(** * The three-colour Go rules engine of GoGame/game.py and GoGame/players.py

    A shallow embedding of the board geometry ([Goban]), the game state
    ([GameState]) with its group, liberty, capture and territory algorithms,
    the text serialisation, the virtual players of GoGame/players.py and the
    table of records of GoGame/scoreboard.py, followed by the properties
    proved about them.

    Conventions of the embedding.
    - Python integers are [Z]; a coordinate is a pair of integers.
    - The cell dictionary [_state] and the score dictionary [_score] are
      finite maps; a Python [set] is a finite set ([gset]).  A read of the
      cell dictionary at an absent key yields [FREE] (it is a
      [defaultdict]); the constructor fills every in-bounds key and no key is
      ever removed, so reads at in-bounds points never miss.
    - The work list [next_points] of the flood fills is a list whose head is
      the top of the Python stack ([pop()] takes the head, [append] conses).
    - Mutating methods are computations in the monad [M]: they take the
      state and give back an outcome together with the state as mutated so
      far, so that an exception leaves the partial mutations in place.
    - The [while] loops run on a fuel that is proved sufficient below.
    - A time limit is a budget of changes the search may make before its
      caller stops waiting (module [Timed]). *)

From Stdlib Require Import ZArith String Ascii List Lia Sorted.
From stdpp Require Import gmap strings list fin_maps fin_sets.

#[local] Set Warnings "-clear-no-such-hyp".

Open Scope Z_scope.

(** ** Exceptions and outcomes *)

Inductive exn : Type :=
| ValueError (msg : string)
| KeyError
| IndexError
| TypeError.

Inductive outcome (A : Type) : Type :=
| Return (a : A)
| Raise (e : exn)
| OutOfFuel.
Arguments Return {A} a.
Arguments Raise {A} e.
Arguments OutOfFuel {A}.

(** ** Colours *)

Inductive colour : Type := FREE | BLACK | GREY | WHITE.

#[global] Instance colour_eq_dec : EqDecision colour.
Proof. solve_decision. Defined.

(** The integer values of the class constants. *)
Definition colour_value (c : colour) : Z :=
  match c with FREE => 0 | BLACK => 1 | GREY => 2 | WHITE => 3 end.

Definition colour_of_value (z : Z) : option colour :=
  match z with
  | 0 => Some FREE | 1 => Some BLACK | 2 => Some GREY | 3 => Some WHITE
  | _ => None
  end.

#[global] Instance colour_countable : Countable colour :=
  inj_countable colour_value colour_of_value
    (λ c, match c with
          | FREE => eq_refl | BLACK => eq_refl | GREY => eq_refl | WHITE => eq_refl
          end).

Definition TURNS : list colour := [BLACK; GREY; WHITE].

(** ** Board geometry: class Goban *)

Definition coord : Type := Z * Z.

Record Goban : Type := { _size : Z * Z }.

Definition check_size (size : list Z) : bool * option string :=
  if negb (length size =? 2)%nat then
    (false, Some "Wrong number of parameters"%string)
  else if existsb (λ item, item <=? 0) size then
    (false, Some "Parameter should be positive"%string)
  else (true, None).

Definition Goban_init (size : list Z) : outcome Goban :=
  match check_size size, size with
  | (true, _), [w; h] => Return {| _size := (w, h) |}
  | (_, Some error), _ => Raise (ValueError error)
  | _, _ => Raise (ValueError "")
  end.

Definition check_coordinates (g : Goban) (p : coord) : bool :=
  (0 <=? p.1) && (p.1 <? (_size g).1) && (0 <=? p.2) && (p.2 <? (_size g).2).

Definition deltas4 : list (Z * Z) := [(1, 0); (0, 1); (-1, 0); (0, -1)].

Definition neighbour_points (g : Goban) (p : coord) : list coord :=
  List.filter (check_coordinates g)
    (map (λ delta : Z * Z, (p.1 + delta.1, p.2 + delta.2)) deltas4).

(** Every coordinate of the board, in the order of the constructor's loops. *)
Definition board_points (g : Goban) : list coord :=
  flat_map (λ x, map (λ y, (x, y)) (seqZ 0 (_size g).2)) (seqZ 0 (_size g).1).

(** ** Game state: class GameState *)

Record GameState : Type := {
  goban : Goban;
  _state : gmap coord colour;
  _turn : colour;
  _score : gmap colour Z
}.

Definition with_state (st : GameState) (m : gmap coord colour) : GameState :=
  {| goban := goban st; _state := m; _turn := _turn st; _score := _score st |}.

Definition with_turn (st : GameState) (c : colour) : GameState :=
  {| goban := goban st; _state := _state st; _turn := c; _score := _score st |}.

Definition with_score (st : GameState) (s : gmap colour Z) : GameState :=
  {| goban := goban st; _state := _state st; _turn := _turn st; _score := s |}.

(** [get_turns_order]: the successor table built from [TURNS]. *)
Definition get_turns_order : gmap colour colour :=
  let d :=
    foldl (λ (d : gmap colour colour) (i : nat),
             match TURNS !! i, TURNS !! S i with
             | Some a, Some b => <[a:=b]> d
             | _, _ => d
             end) ∅ (seq 0 (length TURNS - 1)) in
  match TURNS !! (length TURNS - 1)%nat, TURNS !! 0%nat with
  | Some a, Some b => <[a:=b]> d
  | _, _ => d
  end.

Definition dict_turns : gmap colour colour := get_turns_order.

Definition GameState_init (g : Goban) : GameState :=
  {| goban := g;
     _state := foldl (λ (m : gmap coord colour) p, <[p:=FREE]> m) ∅ (board_points g);
     _turn := BLACK;
     _score := <[WHITE:=0]> (<[GREY:=0]> (<[BLACK:=0]> ∅)) |}.

Definition get_state (st : GameState) (p : coord) : colour :=
  default FREE (_state st !! p).

Definition get_free_points (st : GameState) : gset coord :=
  dom (filter (λ kv : coord * colour, kv.2 = FREE) (_state st)).

(** ** The flood fills *)

(** A bound on the number of iterations of the two [while] loops. *)
Definition loop_fuel (g : Goban) : nat :=
  8 * (Z.to_nat (_size g).1 * Z.to_nat (_size g).2) + 14.

(** One pass of the [for] loop of [get_group] over the neighbour [p]. *)
Definition get_group_visit (st : GameState) (point_state : colour)
    (group : gset coord) (acc : list coord * gset coord) (p : coord)
  : list coord * gset coord :=
  let next_points :=
    if bool_decide (get_state st p = point_state ∧ p ∉ group)
    then p :: acc.1 else acc.1 in
  let boarder :=
    if bool_decide (get_state st p ≠ point_state)
    then {[p]} ∪ acc.2 else acc.2 in
  (next_points, boarder).

Fixpoint get_group_loop (fuel : nat) (st : GameState) (point_state : colour)
    (next_points : list coord) (group boarder : gset coord)
  : option (gset coord * gset coord) :=
  match next_points with
  | [] => Some (group, boarder)
  | current_point :: next_points =>
      match fuel with
      | O => None
      | S fuel =>
          let group := {[current_point]} ∪ group in
          let acc :=
            foldl (get_group_visit st point_state group)
                  (next_points, boarder)
                  (neighbour_points (goban st) current_point) in
          get_group_loop fuel st point_state acc.1 group acc.2
      end
  end.

Definition get_group (st : GameState) (point : coord)
  : option (gset coord * gset coord) :=
  let point_state := get_state st point in
  get_group_loop (loop_fuel (goban st)) st point_state [point] {[point]} ∅.

(** One pass of the [for] loop of [get_liberties] over the neighbour [p]. *)
Definition get_liberties_visit (st : GameState) (point_state : colour)
    (visited : list coord) (acc : list coord * gset coord) (p : coord)
  : list coord * gset coord :=
  let next_points :=
    if bool_decide (get_state st p = point_state ∧ p ∉ visited)
    then p :: acc.1 else acc.1 in
  let liberties :=
    if bool_decide (get_state st p = FREE)
    then {[p]} ∪ acc.2 else acc.2 in
  (next_points, liberties).

Fixpoint get_liberties_loop (fuel : nat) (st : GameState) (point_state : colour)
    (next_points visited : list coord) (liberties : gset coord)
  : option (gset coord) :=
  match next_points with
  | [] => Some liberties
  | current_point :: next_points =>
      match fuel with
      | O => None
      | S fuel =>
          let visited := visited ++ [current_point] in
          let acc :=
            foldl (get_liberties_visit st point_state visited)
                  (next_points, liberties)
                  (neighbour_points (goban st) current_point) in
          get_liberties_loop fuel st point_state acc.1 visited acc.2
      end
  end.

Definition get_liberties (st : GameState) (point : coord) : option (gset coord) :=
  let point_state := get_state st point in
  if bool_decide (point_state = FREE) then Some {[point]}
  else get_liberties_loop (loop_fuel (goban st)) st point_state [point] [] ∅.

Definition count_liberties (st : GameState) (point : coord) : option Z :=
  (λ liberties : gset coord, Z.of_nat (size liberties)) <$> get_liberties st point.

(** ** The state and exception monad of the mutating methods *)

Definition M (A : Type) : Type := GameState → outcome A * GameState.

Definition ret {A} (a : A) : M A := λ st, (Return a, st).

Definition raise {A} (e : exn) : M A := λ st, (Raise e, st).

Definition bind {A B} (m : M A) (k : A → M B) : M B :=
  λ st,
    match m st with
    | (Return a, st') => k a st'
    | (Raise e, st') => (Raise e, st')
    | (OutOfFuel, st') => (OutOfFuel, st')
    end.

Definition get_self : M GameState := λ st, (Return st, st).

(** A read-only query that runs a fuelled loop. *)
Definition query {A} (q : GameState → option A) : M A :=
  λ st, match q st with
        | Some a => (Return a, st)
        | None => (OutOfFuel, st)
        end.

Notation "x <- m ;; k" := (bind m (λ x, k))
  (at level 100, m at next level, right associativity).
Notation "m ;;; k" := (bind m (λ _, k))
  (at level 100, right associativity).

Definition set_state (p : coord) (value : colour) : M unit :=
  λ st, (Return tt, with_state st (<[p:=value]> (_state st))).

Definition set_turn (c : colour) : M unit :=
  λ st, (Return tt, with_turn st c).

Definition set_score (c : colour) (score : Z) : M unit :=
  λ st, (Return tt, with_score st (<[c:=score]> (_score st))).

Definition next_turn : M unit :=
  λ st, match dict_turns !! _turn st with
        | Some c => (Return tt, with_turn st c)
        | None => (Raise KeyError, st)
        end.

Definition increase_score (score : Z) : M unit :=
  λ st, match _score st !! _turn st with
        | Some old => (Return tt, with_score st (<[_turn st:=old + score]> (_score st)))
        | None => (Raise KeyError, st)
        end.

Definition catch_group (point : coord) : M Z :=
  gb <- query (λ st, get_group st point) ;;
  let score := Z.of_nat (size gb.1) in
  (λ st, (Return tt,
          with_state st (foldl (λ (m : gmap coord colour) p, <[p:=FREE]> m)
                               (_state st) (elements gb.1)))) ;;;
  ret score.

Definition check_for_suicide (point : coord) : M unit :=
  n <- query (λ st, count_liberties st point) ;;
  if n =? 0 then
    set_state point FREE ;;;
    raise (ValueError "This move leads to suicide")
  else ret tt.

Fixpoint take_stones_loop (ps : list coord) (taken_stones : Z) : M Z :=
  match ps with
  | [] => ret taken_stones
  | p :: ps =>
      st <- get_self ;;
      if bool_decide (get_state st p ≠ _turn st) then
        n <- query (λ st, count_liberties st p) ;;
        if n =? 0 then
          score <- catch_group p ;;
          increase_score score ;;;
          take_stones_loop ps (taken_stones + score)
        else take_stones_loop ps taken_stones
      else take_stones_loop ps taken_stones
  end.

Definition take_stones (point : coord) : M Z :=
  st <- get_self ;;
  take_stones_loop (neighbour_points (goban st) point) 0.

Definition make_move (point : coord) : M Z :=
  st <- get_self ;;
  if negb (check_coordinates (goban st) point) then
    raise (ValueError "Wrong coordinates of point")
  else if bool_decide (get_state st point = FREE) then
    set_state point (_turn st) ;;;
    check_for_suicide point ;;;
    taken_stones <- take_stones point ;;
    next_turn ;;;
    ret taken_stones
  else raise (ValueError "Player should move to a free point").

(** [take_territory], for a given iteration order [free_points] of the set
    returned by [get_free_points] (Python does not fix the order in which a
    set is traversed). *)
Fixpoint take_territory_loop (st : GameState) (colour : colour)
    (free_points visited : list coord) (score : Z) : option Z :=
  match free_points with
  | [] => Some score
  | point :: free_points =>
      if bool_decide (point ∉ visited) then
        match get_group st point with
        | None => None
        | Some (group, boarder) =>
            let visited := visited ++ elements group in
            let score :=
              if forallb (λ p, bool_decide (get_state st p = colour))
                         (elements boarder)
              then score + Z.of_nat (size group) else score in
            take_territory_loop st colour free_points visited score
        end
      else take_territory_loop st colour free_points visited score
  end.

Definition take_territory_in (free_points : list coord) (colour : colour) : M unit :=
  score <- query (λ st, take_territory_loop st colour free_points [] 0) ;;
  (λ st, match _score st !! colour with
         | Some old => (Return tt, with_score st (<[colour:=old + score]> (_score st)))
         | None => (Raise KeyError, st)
         end).

Definition take_territory (colour : colour) : M unit :=
  st <- get_self ;;
  take_territory_in (elements (get_free_points st)) colour.

(** ** Text serialisation *)

Definition point_states_char (c : colour) : ascii :=
  match c with
  | BLACK => "X" | GREY => "#" | WHITE => "O" | FREE => "."
  end%char.

Definition point_states_colour (a : ascii) : option colour :=
  if Ascii.eqb a "X" then Some BLACK
  else if Ascii.eqb a "#" then Some GREY
  else if Ascii.eqb a "O" then Some WHITE
  else if Ascii.eqb a "." then Some FREE
  else None.

Definition convert_state_to_string (st : GameState) : string :=
  foldl (λ (result : string) (y : Z),
           foldl (λ (result : string) (x : Z),
                    result +:+ String (point_states_char (get_state st (x, y))) "")
                 result (seqZ 0 (_size (goban st)).1)
           +:+ ";")
        ""%string (seqZ 0 (_size (goban st)).2).

(** [str.split] for a non-empty separator: [skip] characters of a separator
    just recognised remain to be passed over, [cur] is the piece read so
    far. *)
Fixpoint split_from (sep : string) (skip : nat) (cur : string) (s : string)
  : list string :=
  match s with
  | EmptyString => [cur]
  | String c s' =>
      match skip with
      | S skip => split_from sep skip cur s'
      | O =>
          if String.prefix sep s
          then cur :: split_from sep (String.length sep - 1) "" s'
          else split_from sep 0 (cur +:+ String c "") s'
      end
  end.

Definition split (s sep : string) : outcome (list string) :=
  match sep with
  | EmptyString => Raise (ValueError "empty separator")
  | _ => Return (split_from sep 0 "" s)
  end.

(** The body of the two loops of [convert_string_to_state]. *)
Definition load_cell (rows : list string) (acc : outcome GameState) (xy : coord)
  : outcome GameState :=
  match acc with
  | Return state =>
      match rows !! Z.to_nat xy.2 with
      | None => Raise IndexError
      | Some row =>
          match String.get (Z.to_nat xy.1) row with
          | None => Raise IndexError
          | Some ch =>
              match point_states_colour ch with
              | None => Raise KeyError
              | Some c => Return (set_state xy c state).2
              end
          end
      end
  | failed => failed
  end.

Definition convert_string_to_state (s separator : string) : outcome GameState :=
  match split s separator with
  | Return pieces =>
      let rows := List.filter (λ r, negb (String.eqb r "")) pieces in
      match rows with
      | [] => Raise IndexError
      | row0 :: _ =>
          let w := Z.of_nat (String.length row0) in
          let h := Z.of_nat (length rows) in
          match Goban_init [w; h] with
          | Return goban =>
              foldl (load_cell rows) (Return (GameState_init goban))
                    (flat_map (λ x, map (λ y, (x, y)) (seqZ 0 h)) (seqZ 0 w))
          | Raise e => Raise e
          | OutOfFuel => OutOfFuel
          end
      end
  | Raise e => Raise e
  | OutOfFuel => OutOfFuel
  end.

(** ** The move with the suicide check after the capture sweep

    The order that the specification compares [make_move] with: the stone is
    placed, the neighbouring groups without liberty are removed, and only
    then is the liberty of the placed stone examined. *)

Definition make_move_capture_first (point : coord) : M Z :=
  st <- get_self ;;
  if negb (check_coordinates (goban st) point) then
    raise (ValueError "Wrong coordinates of point")
  else if bool_decide (get_state st point = FREE) then
    set_state point (_turn st) ;;;
    taken_stones <- take_stones point ;;
    check_for_suicide point ;;;
    next_turn ;;;
    ret taken_stones
  else raise (ValueError "Player should move to a free point").

(** ** The fallback tier of CleverVirtualPlayer.find_point_to_move *)

#[local] Set Warnings "-register-all".

(** The Python values that occur in the candidate filter: integers, tuples
    and lists. *)
Inductive pyval : Type :=
| PyInt (z : Z)
| PyTuple (items : list pyval)
| PyList (items : list pyval).

(** [a == b] *)
Fixpoint py_eq (a b : pyval) : bool :=
  match a, b with
  | PyInt x, PyInt y => x =? y
  | PyTuple xs, PyTuple ys =>
      (fix all_eq (xs ys : list pyval) : bool :=
         match xs, ys with
         | [], [] => true
         | x :: xs, y :: ys => py_eq x y && all_eq xs ys
         | _, _ => false
         end) xs ys
  | PyList xs, PyList ys =>
      (fix all_eq (xs ys : list pyval) : bool :=
         match xs, ys with
         | [], [] => true
         | x :: xs, y :: ys => py_eq x y && all_eq xs ys
         | _, _ => false
         end) xs ys
  | _, _ => false
  end.

(** [x in container]: an integer is not iterable. *)
Definition py_in (x container : pyval) : outcome bool :=
  match container with
  | PyInt _ => Raise TypeError
  | PyTuple items | PyList items => Return (existsb (λ item, py_eq item x) items)
  end.

(** [x not in container] *)
Definition py_not_in (x container : pyval) : outcome bool :=
  match py_in x container with
  | Return r => Return (negb r)
  | Raise e => Raise e
  | OutOfFuel => OutOfFuel
  end.

(** [a not in b not in c], a chained comparison: [(a not in b) and (b not in c)]
    with [b] evaluated once and the second test skipped when the first is
    false. *)
Definition py_not_in_not_in (a b c : pyval) : outcome bool :=
  match py_not_in a b with
  | Return true => py_not_in b c
  | Return false => Return false
  | Raise e => Raise e
  | OutOfFuel => OutOfFuel
  end.

Definition py_point (p : coord) : pyval := PyTuple [PyInt p.1; PyInt p.2].

Definition move_result : Type := bool * option coord * Z.

(** The last loop of [find_point_to_move], with the filter [keep] applied to
    the point and the list of forbidden points; the second component of the
    result is the player's [_current_point]. *)
Fixpoint fallback_loop (keep : coord → list coord → outcome bool)
    (free_points forbidden_points : list coord) (_current_point : option coord)
  : M (move_result * option coord) :=
  match free_points with
  | [] => ret ((false, None, 0), _current_point)
  | point :: free_points =>
      match keep point forbidden_points with
      | Return true =>
          λ st,
            match make_move point st with
            | (Return taken_stones, st') =>
                (Return ((true, Some point, taken_stones), Some point), st')
            | (Raise (ValueError _), st') =>
                fallback_loop keep free_points (forbidden_points ++ [point])
                              (Some point) st'
            | (Raise e, st') => (Raise e, st')
            | (OutOfFuel, st') => (OutOfFuel, st')
            end
      | Return false => fallback_loop keep free_points forbidden_points _current_point
      | Raise e => raise e
      | OutOfFuel => λ st, (OutOfFuel, st)
      end
  end.

(** The filter as written in the source: [point not in point not in forbidden_points]. *)
Definition fallback_filter (point : coord) (forbidden_points : list coord) : outcome bool :=
  py_not_in_not_in (py_point point) (py_point point)
                   (PyList (map py_point forbidden_points)).

Definition fallback_tier := fallback_loop fallback_filter.

(** ** Vocabulary of the specification *)

(** 4-adjacency on the board. *)
Definition adjacent (g : Goban) (p q : coord) : Prop := q ∈ neighbour_points g p.

(** One step of a path through cells of colour [c]. *)
Definition link (st : GameState) (c : colour) (p q : coord) : Prop :=
  adjacent (goban st) p q ∧ get_state st q = c.

(** [q] belongs to the group of [p]. *)
Definition in_group (st : GameState) (p q : coord) : Prop :=
  rtc (link st (get_state st p)) p q.

(** [b] is a border cell of the group of [p]. *)
Definition on_border (st : GameState) (p b : coord) : Prop :=
  ∃ q, in_group st p q ∧ adjacent (goban st) q b ∧ get_state st b ≠ get_state st p.

(** [b] is a liberty of the group of [p]. *)
Definition is_liberty (st : GameState) (p b : coord) : Prop :=
  ∃ q, in_group st p q ∧ adjacent (goban st) q b ∧ get_state st b = FREE.

(** The keys of the cell dictionary are exactly the coordinates of the board. *)
Definition wf_cells (st : GameState) : Prop :=
  dom (_state st) = (list_to_set (board_points (goban st)) : gset coord).

(** A well-formed game state: total cells, a player to move, a score for
    every player. *)
Definition wf_state (st : GameState) : Prop :=
  wf_cells st ∧ _turn st ∈ TURNS ∧ Forall (λ c, is_Some (_score st !! c)) TURNS.

#[global] Instance wf_cells_dec st : Decision (wf_cells st).
Proof. unfold wf_cells. apply _. Defined.

#[global] Instance wf_state_dec st : Decision (wf_state st).
Proof. unfold wf_state. apply _. Defined.

(** A maximal 4-connected region of empty cells. *)
Definition empty_region (st : GameState) (R : gset coord) : Prop :=
  ∃ p, check_coordinates (goban st) p = true ∧ get_state st p = FREE ∧
       ∀ q, q ∈ R ↔ rtc (link st FREE) p q.

(** [b] is a stone next to a cell of the region [R]. *)
Definition region_border (st : GameState) (R : gset coord) (b : coord) : Prop :=
  ∃ q, q ∈ R ∧ adjacent (goban st) q b ∧ get_state st b ≠ FREE.

(** Every border cell of [R] holds [colour]. *)
Definition owned_by (st : GameState) (colour : colour) (R : gset coord) : Prop :=
  ∀ b, region_border st R b → get_state st b = colour.

(** The sum of the sizes of the regions listed in [Rs]. *)
Definition sum_sizes (Rs : list (gset coord)) : Z :=
  foldr (λ R total, Z.of_nat (size R) + total) 0 Rs.

(** The board after the tentative placement of step 3 of [make_move]. *)
Definition placed (st : GameState) (p : coord) : GameState :=
  with_state st (<[p:=_turn st]> (_state st)).

(** Same board, same cells. *)
Definition board_eq (s s' : GameState) : Prop :=
  goban s' = goban s ∧ ∀ q, get_state s' q = get_state s q.

(** [s2] is [s] with every member of [G] set to [FREE]. *)
Definition removed (G : gset coord) (s s2 : GameState) : Prop :=
  goban s2 = goban s ∧
  ∀ q, get_state s2 q = if decide (q ∈ G) then FREE else get_state s q.

(** The capture sweep of a move by [turn]: the neighbours are examined in
    order, and a neighbouring group of another colour is removed when it has
    no liberty on the board as it stands at that moment. *)
Inductive sweep (turn : colour) : GameState → list coord → GameState → Z → Prop :=
| sweep_nil s s' :
    board_eq s s' → sweep turn s [] s' 0
| sweep_skip s r rs s' n :
    get_state s r = turn ∨ get_state s r = FREE ∨ (∃ b, is_liberty s r b) →
    sweep turn s rs s' n →
    sweep turn s (r :: rs) s' n
| sweep_take s r rs s2 s' n (G : gset coord) :
    get_state s r ≠ turn → get_state s r ≠ FREE →
    (∀ b, ¬ is_liberty s r b) →
    (∀ q, q ∈ G ↔ in_group s r q) →
    removed G s s2 →
    sweep turn s2 rs s' n →
    sweep turn s (r :: rs) s' (Z.of_nat (size G) + n).

(** One operation of a game, other than the explicit corrections
    [set_score], [set_state] and [set_turn]; an operation that raises leaves
    the state as mutated so far. *)
Inductive step : GameState → GameState → Prop :=
| step_make_move st point :
    step st (make_move point st).2
| step_next_turn st :
    step st (next_turn st).2
| step_take_territory st colour order :
    order ≡ₚ elements (get_free_points st) →
    step st (take_territory_in order colour st).2
| step_catch_group st point :
    step st (catch_group point st).2.

(** The score of [c] in [st'] is at least its score in [st]. *)
Definition score_le (c : colour) (st st' : GameState) : Prop :=
  ∀ v, _score st !! c = Some v → ∃ v', _score st' !! c = Some v' ∧ v ≤ v'.

(** A computation that never lowers a score. *)
Definition grows {A} (m : M A) : Prop := ∀ st c, score_le c st (m st).2.

(** The characters of row [y] over the columns [xs], followed by [tail]. *)
Definition row_chars (st : GameState) (y : Z) (xs : list Z) (tail : string) : string :=
  foldr (λ x s, String (point_states_char (get_state st (x, y))) s) tail xs.

(** ** Proof devices

    The two flood fills are instances of one work-list loop [flood], which
    collects the neighbours satisfying [keep]; [flood_inv] is its invariant
    and [flood_measure] decreases at every iteration. *)

Section flood.
Context (st : GameState) (c : colour) (keep : coord → bool).

Definition flood_visit (seen : gset coord) (acc : list coord * gset coord) (p : coord)
  : list coord * gset coord :=
  (if bool_decide (get_state st p = c ∧ p ∉ seen) then p :: acc.1 else acc.1,
   if keep p then {[p]} ∪ acc.2 else acc.2).

Fixpoint flood (fuel : nat) (next : list coord) (seen acc : gset coord)
  : option (gset coord * gset coord) :=
  match next with
  | [] => Some (seen, acc)
  | cur :: rest =>
      match fuel with
      | O => None
      | S fuel =>
          let seen := {[cur]} ∪ seen in
          let r := foldl (flood_visit seen) (rest, acc) (neighbour_points (goban st) cur) in
          flood fuel r.1 seen r.2
      end
  end.

Definition pushed (seen : gset coord) (l : list coord) : list coord :=
  List.filter (λ p, bool_decide (get_state st p = c ∧ p ∉ seen)) l.

End flood.

Section flood_invariant.
Context (st : GameState) (c : colour) (keep : coord → bool) (seed : coord).

Record flood_inv (next : list coord) (seen acc : gset coord) : Prop := {
  inv_seed : seed ∈ seen ∨ seed ∈ next;
  inv_next : ∀ q, q ∈ next → rtc (link st c) seed q;
  inv_seen : ∀ q, q ∈ seen → rtc (link st c) seed q;
  inv_done : ∀ q, q ∈ seen → q ∈ next ∨
               ∀ b, adjacent (goban st) q b →
                    (get_state st b = c → b ∈ seen ∨ b ∈ next) ∧
                    (keep b = true → b ∈ acc);
  inv_acc : ∀ b, b ∈ acc → ∃ q, q ∈ seen ∧ adjacent (goban st) q b ∧ keep b = true
}.

Definition candidates : gset coord :=
  {[seed]} ∪ list_to_set (List.filter (λ q, bool_decide (get_state st q = c))
                                      (board_points (goban st))).

Definition flood_measure (next : list coord) (seen : gset coord) : nat :=
  (8 * size (candidates ∖ seen) + length next +
   match next with
   | [] => 4
   | q :: _ => if bool_decide (q ∈ seen) then 4 else 0
   end)%nat.

End flood_invariant.

(** The invariant of the loop of [take_territory]: [Rs] lists the regions
    counted so far. *)
Section territory_invariant.
Context (st : GameState) (colour : colour).

Record territory_inv (visited : list coord) (Rs : list (gset coord)) : Prop := {
  tinv_free : ∀ q, q ∈ visited →
                   check_coordinates (goban st) q = true ∧ get_state st q = FREE;
  tinv_closed : ∀ q q', q ∈ visited → rtc (link st FREE) q q' → q' ∈ visited;
  tinv_nodup : NoDup Rs;
  tinv_sound : ∀ R, R ∈ Rs → empty_region st R ∧ owned_by st colour R ∧
                            ∀ q, q ∈ R → q ∈ visited;
  tinv_complete : ∀ R, empty_region st R → owned_by st colour R →
                       (∃ q, q ∈ R ∧ q ∈ visited) → R ∈ Rs
}.

End territory_invariant.

(** ** Example boards *)

(** A board set up stone by stone, as the tests do. *)
Definition setup (g : Goban) (turn : colour) (stones : list (coord * colour)) : GameState :=
  foldl (λ st pc, (set_state pc.1 pc.2 st).2) (with_turn (GameState_init g) turn) stones.

Definition board_2x2 : GameState := GameState_init {| _size := (2, 2) |}.

Definition board_2x1 : GameState := GameState_init {| _size := (2, 1) |}.

(** Black to play at (1,0):
<<
    . . #
    X O #
>> *)
Definition board_two_dead_groups : GameState :=
  setup {| _size := (3, 2) |} BLACK
        [((2, 0), GREY); ((0, 1), BLACK); ((1, 1), WHITE); ((2, 1), GREY)].

(** Black to play at (1,0):
<<
    O .
>> *)
Definition board_corner_capture : GameState :=
  setup {| _size := (2, 1) |} BLACK [((0, 0), WHITE)].

(** Black and White territories of the test suite:
<<
    . X . . .
    . X . . .
    X . . . O
    . . . O .
    . . . . O
>> *)
Definition board_territory : GameState :=
  setup {| _size := (5, 5) |} BLACK
        [((1, 0), BLACK); ((1, 1), BLACK); ((0, 2), BLACK);
         ((4, 2), WHITE); ((3, 3), WHITE); ((4, 4), WHITE)].

(** Decides a decidable proposition on a concrete state. *)
Ltac by_computation := apply (bool_decide_unpack _); vm_compute; exact I.

(** ** Further methods of Goban and GameState *)

(** [itertools.product((-1, 0, 1), (-1, 0, 1))] *)
Definition product3 : list (Z * Z) :=
  flat_map (λ a, map (λ b, (a, b)) [-1; 0; 1]) [-1; 0; 1].

Definition get_next_points (g : Goban) (p : coord) : list coord :=
  flat_map (λ delta : Z * Z,
              let coords := (p.1 + delta.1, p.2 + delta.2) in
              if (negb (delta.1 =? 0) || negb (delta.2 =? 0))
                 && check_coordinates g coords
              then [coords] else [])
           product3.

(** ** Pixel coordinates: class Stone of gograph.py *)

Definition get_graph_point (coords : Z * Z) : Z * Z :=
  let delta_x := coords.1 `mod` 30 in
  let delta_x := if 15 <=? delta_x then delta_x - 30 else delta_x in
  let delta_y := coords.2 `mod` 30 in
  let delta_y := if 15 <=? delta_y then delta_y - 30 else delta_y in
  (coords.1 - delta_x, coords.2 - delta_y).

(** ** Further vocabulary *)

(** Every stone of the board belongs to a group that has a liberty. *)
Definition no_dead_stone (st : GameState) : Prop :=
  ∀ x, get_state st x ≠ FREE → ∃ b, is_liberty st x b.

(** ** The winners: GameState.get_winner *)

(** [max] of a sequence of integers; Python raises [ValueError] on an empty
    one. *)
Definition py_max (values : list Z) : outcome Z :=
  match values with
  | [] => Raise (ValueError "max() arg is an empty sequence")
  | v :: values => Return (foldl Z.max v values)
  end.

(** [get_winner], for a given order [keys] of the keys of the score
    dictionary (Python keeps them in the order of their insertion, which the
    finite map does not record). *)
Definition get_winner_in (keys : list colour) (st : GameState) : outcome (list colour) :=
  foldr (λ key (rest : outcome (list colour)),
           match _score st !! key with
           | None => Raise KeyError
           | Some v =>
               match py_max (map_to_list (_score st)).*2 with
               | Return m =>
                   match rest with
                   | Return winners => Return (if v =? m then key :: winners else winners)
                   | failed => failed
                   end
               | Raise e => Raise e
               | OutOfFuel => OutOfFuel
               end
           end)
        (Return []) keys.

(** ** The virtual players: players.py

    The methods are modelled for [limit = None], where the [timeout]
    decorator waits for the result without a bound.  The shuffled list of
    free points is a parameter [free_points]. *)

(** A [for] loop whose body either returns from the method ([inl]) or goes
    on to the next item with new local variables ([inr]). *)
Fixpoint for_each {A S R : Type} (body : A → S → M (R + S)) (items : list A) (s : S)
  : M (R + S) :=
  match items with
  | [] => ret (inr s)
  | item :: items =>
      r <- body item s ;;
      match r with
      | inl result => ret (inl result)
      | inr s => for_each body items s
      end
  end.

(** [any(test(p) for p in l)] and [all(test(p) for p in l)]. *)
Fixpoint py_any {A : Type} (test : A → M bool) (l : list A) : M bool :=
  match l with
  | [] => ret false
  | p :: l => b <- test p ;; if b then ret true else py_any test l
  end.

Fixpoint py_all {A : Type} (test : A → M bool) (l : list A) : M bool :=
  match l with
  | [] => ret true
  | p :: l => b <- test p ;; if b then py_all test l else ret false
  end.

(** [try: return True, point, state.make_move(point)], with the local
    variables [otherwise] of the [except ValueError] branch. *)
Definition play {S : Type} (point : coord) (otherwise : S) : M (move_result + S) :=
  λ st,
    match make_move point st with
    | (Return taken_stones, st') => (Return (inl (true, Some point, taken_stones)), st')
    | (Raise (ValueError _), st') => (Return (inr otherwise), st')
    | (Raise e, st') => (Raise e, st')
    | (OutOfFuel, st') => (OutOfFuel, st')
    end.

Module SimpleVirtualPlayer.

Definition find_point_to_move (free_points : list coord) : M move_result :=
  r <- for_each (λ point (_ : unit), play point tt) free_points tt ;;
  match r with
  | inl result => ret result
  | inr _ => ret (false, None, 0)
  end.

Definition try_make_move (_colour : colour) (free_points : list coord) : M move_result :=
  st <- get_self ;;
  if bool_decide (_colour = _turn st) then find_point_to_move free_points
  else ret (false, None, 0).

End SimpleVirtualPlayer.

(** [CleverVirtualPlayer.check_liberties] *)
Definition check_liberties (_colour : colour) (point enemy_point : coord) : M Z :=
  set_state point _colour ;;;
  liberties <- query (λ st, count_liberties st enemy_point) ;;
  set_state point FREE ;;;
  ret liberties.

(** A move of the player to move at [p] would leave its group without a
    liberty. *)
Definition suicide (st : GameState) (p : coord) : Prop :=
  ∀ b, ¬ is_liberty (placed st p) p b.

(** [any(state.get_state(p) != state.FREE and state.get_state(p) != self._colour
         for p in state.goban.neighbour_points(point))] *)
Definition next_to_a_rival (_colour : colour) (st : GameState) (point : coord) : bool :=
  existsb (λ p, bool_decide (get_state st p ≠ FREE) && bool_decide (get_state st p ≠ _colour))
          (neighbour_points (goban st) point).

Fixpoint free_visited (visited : list coord) : M unit :=
  match visited with
  | [] => ret tt
  | v :: visited => set_state v FREE ;;; free_visited visited
  end.

(** The [while] loop of [check_moves_to_take_stones]; the head of
    [next_points] is the top of the stack. *)
Fixpoint check_moves_loop (fuel : nat) (_colour : colour)
    (next_points visited : list coord) : M Z :=
  match fuel with
  | O => λ st, (OutOfFuel, st)
  | S fuel =>
      match next_points with
      | [] => free_visited visited ;;; ret 0
      | current_point :: next_points =>
          set_state current_point _colour ;;;
          let visited := visited ++ [current_point] in
          st <- get_self ;;
          captured <- py_any (λ p, n <- query (λ st, count_liberties st p) ;; ret (n =? 0))
                             (neighbour_points (goban st) current_point) ;;
          if captured : bool then
            free_visited visited ;;;
            ret (Z.of_nat (length visited))
          else
            let next_points :=
              foldl (λ next_points np,
                       if bool_decide (get_state st np = FREE)
                          && next_to_a_rival _colour st np
                       then np :: next_points else next_points)
                    next_points (get_next_points (goban st) current_point) in
            check_moves_loop fuel _colour next_points visited
      end
  end.

Definition check_moves_to_take_stones (_colour : colour) (point : coord) : M Z :=
  st <- get_self ;;
  check_moves_loop (2 * loop_fuel (goban st)) _colour [point] [].

(** [sorted(l, key=key, reverse=True)] and [l.sort(key=key, reverse=True)]:
    a stable sort by decreasing key. *)
Fixpoint insert_reverse {A : Type} (key : A → Z) (x : A) (l : list A) : list A :=
  match l with
  | [] => [x]
  | y :: rest => if key x <? key y then y :: insert_reverse key x rest else x :: l
  end.

Definition sorted_reverse {A : Type} (key : A → Z) (l : list A) : list A :=
  foldr (insert_reverse key) [] l.

Module CleverVirtualPlayer.

(** The local variables of [find_point_to_move] and the attribute
    [_current_point]. *)
Record locals : Type := {
  moves : list (Z * coord);
  forbidden_points : list coord;
  _current_point : option coord
}.

Definition aim (point : coord) (l : locals) : locals :=
  {| moves := moves l; forbidden_points := forbidden_points l;
     _current_point := Some point |}.

Definition forbid (point : coord) (l : locals) : locals :=
  {| moves := moves l; forbidden_points := forbidden_points l ++ [point];
     _current_point := _current_point l |}.

Definition add_move (move : Z * coord) (l : locals) : locals :=
  {| moves := moves l ++ [move]; forbidden_points := forbidden_points l;
     _current_point := _current_point l |}.

(** Body of the first loop: a move that takes a neighbouring group. *)
Definition capture_tier (_colour : colour) (point : coord) (l : locals)
  : M (move_result + locals) :=
  let l := aim point l in
  if bool_decide (point ∉ forbidden_points l) then
    st <- get_self ;;
    found <- py_any (λ p, st <- get_self ;;
                          if bool_decide (get_state st p ≠ _colour) then
                            n <- check_liberties _colour point p ;;
                            ret (n =? 0)
                          else ret false)
                    (neighbour_points (goban st) point) ;;
    if found : bool then play point (forbid point l) else ret (inr l)
  else ret (inr l).

(** Body of the second loop: forbid a move into atari, save a group in
    atari, or record how many stones a capture needs. *)
Definition rescue_tier (_colour : colour) (point : coord) (l : locals)
  : M (move_result + locals) :=
  if bool_decide (point ∉ forbidden_points l) then
    set_state point _colour ;;;
    n <- query (λ st, count_liberties st point) ;;
    st <- get_self ;;
    atari <- (if n =? 1 then
                py_all (λ p, k <- query (λ st, count_liberties st p) ;; ret (negb (k =? 0)))
                       (neighbour_points (goban st) point)
              else ret false) ;;
    if atari : bool then
      set_state point FREE ;;;
      ret (inr (forbid point l))
    else
      set_state point FREE ;;;
      st <- get_self ;;
      found <- py_any (λ p, st <- get_self ;;
                            if bool_decide (get_state st p = _colour) then
                              k <- query (λ st, count_liberties st p) ;;
                              ret (k =? 1)
                            else ret false)
                      (neighbour_points (goban st) point) ;;
      if found : bool then play point (forbid point (aim point l))
      else
        st <- get_self ;;
        if next_to_a_rival _colour st point then
          move <- check_moves_to_take_stones _colour point ;;
          if move =? 0 then ret (inr l) else ret (inr (add_move (move, point) l))
        else ret (inr l)
  else ret (inr l).

(** Body of the [while moves] loop, for the move popped off the end. *)
Definition pop_tier (min_move : Z * coord) (l : locals) : M (move_result + locals) :=
  r <- play min_move.2 (forbid min_move.2 (aim min_move.2 l)) ;;
  match r with
  | inl result => ret (inl result)
  | inr l => set_state min_move.2 FREE ;;; ret (inr l)
  end.

(** Body of the fourth loop: a move next to a rival that keeps two liberties. *)
Definition attack_tier (_colour : colour) (point : coord) (l : locals)
  : M (move_result + locals) :=
  if bool_decide (point ∉ forbidden_points l) then
    st <- get_self ;;
    if next_to_a_rival _colour st point then
      n <- check_liberties _colour point point ;;
      if 1 <? n then play point (forbid point (aim point l)) else ret (inr l)
    else ret (inr l)
  else ret (inr l).

Definition find_point_to_move (_colour : colour) (free_points : list coord)
  : M move_result :=
  let l := {| moves := []; forbidden_points := []; _current_point := None |} in
  r <- for_each (capture_tier _colour) free_points l ;;
  match r with
  | inl result => ret result
  | inr l =>
      r <- for_each (rescue_tier _colour) free_points l ;;
      match r with
      | inl result => ret result
      | inr l =>
          r <- for_each pop_tier (rev (sorted_reverse fst (moves l))) l ;;
          match r with
          | inl result => ret result
          | inr l =>
              r <- for_each (attack_tier _colour) free_points l ;;
              match r with
              | inl result => ret result
              | inr l =>
                  r <- fallback_tier free_points (forbidden_points l) (_current_point l) ;;
                  ret r.1
              end
          end
      end
  end.

Definition try_make_move (_colour : colour) (free_points : list coord) : M move_result :=
  st <- get_self ;;
  if bool_decide (_colour = _turn st) then find_point_to_move _colour free_points
  else ret (false, None, 0).

End CleverVirtualPlayer.

(** After a move of the player to move at [p] its group would have exactly
    one liberty, and no neighbouring group would be left without one. *)
Definition self_atari (st : GameState) (p : coord) : Prop :=
  (∃ b, ∀ b', is_liberty (placed st p) p b' ↔ b' = b) ∧
  ∀ q, adjacent (goban st) p q → get_state (placed st p) q ≠ FREE →
       ∃ b, is_liberty (placed st p) q b.

(** ** The search of the clever player under a time limit

    [timeout] runs [find_point_to_move] on a thread of its own and waits for
    the result for [limit] seconds; when they have passed it raises
    [TimeoutError] in the caller and leaves the search running on the state
    the two threads share.  The deadline is modelled by a [budget]: the
    number of changes (calls of [set_state] and [make_move], assignments to
    [_current_point]) the search has made when the caller stops waiting; the
    search is cut before the next change, and takes no further step before
    [try_make_move] returns. *)

Module Timed.

(** What the two threads share: the game state and the attribute
    [_current_point] of the player. *)
Record world : Type := {
  state : GameState;
  _current_point : option coord
}.

(** The search has ended with an outcome, a part of the budget being left,
    or has been cut by the deadline. *)
Inductive timed (A : Type) : Type :=
| Done (o : outcome A) (left : nat)
| Cut.
Arguments Done {A} o left.
Arguments Cut {A}.

Definition T (A : Type) : Type := nat → world → timed A * world.

Definition ret {A} (a : A) : T A := λ n w, (Done (Return a) n, w).

Definition bind {A B} (m : T A) (k : A → T B) : T B :=
  λ n w,
    match m n w with
    | (Done (Return a) n', w') => k a n' w'
    | (Done (Raise e) n', w') => (Done (Raise e) n', w')
    | (Done OutOfFuel n', w') => (Done OutOfFuel n', w')
    | (Cut, w') => (Cut, w')
    end.

Notation "x <~ m ;; k" := (bind m (λ x, k))
  (at level 100, m at next level, right associativity).
Notation "m ;;~ k" := (bind m (λ _, k))
  (at level 100, right associativity).

Definition get_self : T GameState := λ n w, (Done (Return (state w)) n, w).

Definition query {A} (q : GameState → option A) : T A :=
  λ n w, match q (state w) with
         | Some a => (Done (Return a) n, w)
         | None => (Done OutOfFuel n, w)
         end.

(** A call that changes the state: it is made only while the budget lasts. *)
Definition act {A} (m : M A) : T A :=
  λ n w,
    match n with
    | O => (Cut, w)
    | S n => (Done (m (state w)).1 n,
              {| state := (m (state w)).2; _current_point := _current_point w |})
    end.

(** [self._current_point = point] *)
Definition set_current_point (point : coord) : T unit :=
  λ n w,
    match n with
    | O => (Cut, w)
    | S n => (Done (Return tt) n, {| state := state w; _current_point := Some point |})
    end.

Fixpoint for_each {A S R : Type} (body : A → S → T (R + S)) (items : list A) (s : S)
  : T (R + S) :=
  match items with
  | [] => ret (inr s)
  | item :: items =>
      r <~ body item s ;;
      match r with
      | inl result => ret (inl result)
      | inr s => for_each body items s
      end
  end.

Fixpoint py_any {A : Type} (test : A → T bool) (l : list A) : T bool :=
  match l with
  | [] => ret false
  | p :: l => b <~ test p ;; if b then ret true else py_any test l
  end.

Fixpoint py_all {A : Type} (test : A → T bool) (l : list A) : T bool :=
  match l with
  | [] => ret true
  | p :: l => b <~ test p ;; if b then py_all test l else ret false
  end.

Definition play {S : Type} (point : coord) (otherwise : S) : T (move_result + S) :=
  λ n w,
    match act (make_move point) n w with
    | (Done (Return taken_stones) n', w') =>
        (Done (Return (inl (true, Some point, taken_stones))) n', w')
    | (Done (Raise (ValueError _)) n', w') => (Done (Return (inr otherwise)) n', w')
    | (Done (Raise e) n', w') => (Done (Raise e) n', w')
    | (Done OutOfFuel n', w') => (Done OutOfFuel n', w')
    | (Cut, w') => (Cut, w')
    end.

Definition check_liberties (_colour : colour) (point enemy_point : coord) : T Z :=
  act (set_state point _colour) ;;~
  liberties <~ query (λ st, count_liberties st enemy_point) ;;
  act (set_state point FREE) ;;~
  ret liberties.

Fixpoint free_visited (visited : list coord) : T unit :=
  match visited with
  | [] => ret tt
  | v :: visited => act (set_state v FREE) ;;~ free_visited visited
  end.

Fixpoint check_moves_loop (fuel : nat) (_colour : colour)
    (next_points visited : list coord) : T Z :=
  match fuel with
  | O => λ n w, (Done OutOfFuel n, w)
  | S fuel =>
      match next_points with
      | [] => free_visited visited ;;~ ret 0
      | current_point :: next_points =>
          act (set_state current_point _colour) ;;~
          let visited := visited ++ [current_point] in
          st <~ get_self ;;
          captured <~ py_any (λ p, n <~ query (λ st, count_liberties st p) ;; ret (n =? 0))
                             (neighbour_points (goban st) current_point) ;;
          if captured : bool then
            free_visited visited ;;~
            ret (Z.of_nat (length visited))
          else
            let next_points :=
              foldl (λ next_points np,
                       if bool_decide (get_state st np = FREE)
                          && next_to_a_rival _colour st np
                       then np :: next_points else next_points)
                    next_points (get_next_points (goban st) current_point) in
            check_moves_loop fuel _colour next_points visited
      end
  end.

Definition check_moves_to_take_stones (_colour : colour) (point : coord) : T Z :=
  st <~ get_self ;;
  check_moves_loop (2 * loop_fuel (goban st)) _colour [point] [].

Definition capture_tier (_colour : colour) (point : coord) (l : CleverVirtualPlayer.locals)
  : T (move_result + CleverVirtualPlayer.locals) :=
  set_current_point point ;;~
  let l := CleverVirtualPlayer.aim point l in
  if bool_decide (point ∉ CleverVirtualPlayer.forbidden_points l) then
    st <~ get_self ;;
    found <~ py_any (λ p, st <~ get_self ;;
                          if bool_decide (get_state st p ≠ _colour) then
                            n <~ check_liberties _colour point p ;;
                            ret (n =? 0)
                          else ret false)
                    (neighbour_points (goban st) point) ;;
    if found : bool then
      set_current_point point ;;~
      play point (CleverVirtualPlayer.forbid point l)
    else ret (inr l)
  else ret (inr l).

Definition rescue_tier (_colour : colour) (point : coord) (l : CleverVirtualPlayer.locals)
  : T (move_result + CleverVirtualPlayer.locals) :=
  if bool_decide (point ∉ CleverVirtualPlayer.forbidden_points l) then
    act (set_state point _colour) ;;~
    n <~ query (λ st, count_liberties st point) ;;
    st <~ get_self ;;
    atari <~ (if n =? 1 then
                py_all (λ p, k <~ query (λ st, count_liberties st p) ;; ret (negb (k =? 0)))
                       (neighbour_points (goban st) point)
              else ret false) ;;
    if atari : bool then
      act (set_state point FREE) ;;~
      ret (inr (CleverVirtualPlayer.forbid point l))
    else
      act (set_state point FREE) ;;~
      st <~ get_self ;;
      found <~ py_any (λ p, st <~ get_self ;;
                            if bool_decide (get_state st p = _colour) then
                              k <~ query (λ st, count_liberties st p) ;;
                              ret (k =? 1)
                            else ret false)
                      (neighbour_points (goban st) point) ;;
      if found : bool then
        set_current_point point ;;~
        play point (CleverVirtualPlayer.forbid point (CleverVirtualPlayer.aim point l))
      else
        st <~ get_self ;;
        if next_to_a_rival _colour st point then
          move <~ check_moves_to_take_stones _colour point ;;
          if move =? 0 then ret (inr l)
          else ret (inr (CleverVirtualPlayer.add_move (move, point) l))
        else ret (inr l)
  else ret (inr l).

Definition pop_tier (min_move : Z * coord) (l : CleverVirtualPlayer.locals)
  : T (move_result + CleverVirtualPlayer.locals) :=
  set_current_point min_move.2 ;;~
  r <~ play min_move.2
         (CleverVirtualPlayer.forbid min_move.2 (CleverVirtualPlayer.aim min_move.2 l)) ;;
  match r with
  | inl result => ret (inl result)
  | inr l => act (set_state min_move.2 FREE) ;;~ ret (inr l)
  end.

Definition attack_tier (_colour : colour) (point : coord) (l : CleverVirtualPlayer.locals)
  : T (move_result + CleverVirtualPlayer.locals) :=
  if bool_decide (point ∉ CleverVirtualPlayer.forbidden_points l) then
    st <~ get_self ;;
    if next_to_a_rival _colour st point then
      n <~ check_liberties _colour point point ;;
      if 1 <? n then
        set_current_point point ;;~
        play point (CleverVirtualPlayer.forbid point (CleverVirtualPlayer.aim point l))
      else ret (inr l)
    else ret (inr l)
  else ret (inr l).

Definition fallback_tier (point : coord) (l : CleverVirtualPlayer.locals)
  : T (move_result + CleverVirtualPlayer.locals) :=
  match fallback_filter point (CleverVirtualPlayer.forbidden_points l) with
  | Return true =>
      set_current_point point ;;~
      play point (CleverVirtualPlayer.forbid point (CleverVirtualPlayer.aim point l))
  | Return false => ret (inr l)
  | Raise e => λ n w, (Done (Raise e) n, w)
  | OutOfFuel => λ n w, (Done OutOfFuel n, w)
  end.

Definition find_point_to_move (_colour : colour) (free_points : list coord)
  : T move_result :=
  let l := {| CleverVirtualPlayer.moves := [];
              CleverVirtualPlayer.forbidden_points := [];
              CleverVirtualPlayer._current_point := None |} in
  r <~ for_each (capture_tier _colour) free_points l ;;
  match r with
  | inl result => ret result
  | inr l =>
      r <~ for_each (rescue_tier _colour) free_points l ;;
      match r with
      | inl result => ret result
      | inr l =>
          r <~ for_each pop_tier
                 (rev (sorted_reverse fst (CleverVirtualPlayer.moves l))) l ;;
          match r with
          | inl result => ret result
          | inr l =>
              r <~ for_each (attack_tier _colour) free_points l ;;
              match r with
              | inl result => ret result
              | inr l =>
                  r <~ for_each fallback_tier free_points l ;;
                  match r with
                  | inl result => ret result
                  | inr _ => ret (false, None, 0)
                  end
              end
          end
      end
  end.

(** [try_make_move] with a limit that lets the search make [budget] changes. *)
Definition try_make_move (_colour : colour) (free_points : list coord) (budget : nat)
  : M move_result :=
  λ st,
    if bool_decide (_colour = _turn st) then
      match find_point_to_move _colour free_points budget
              {| state := st; _current_point := None |} with
      | (Done result _, w) => (result, state w)
      | (Cut, w) =>
          match _current_point w with
          | Some point =>
              match make_move point (state w) with
              | (Return taken_stones, st') =>
                  (Return (true, Some point, taken_stones), st')
              | (Raise (ValueError _), st') => (Return (false, None, 0), st')
              | (Raise e, st') => (Raise e, st')
              | (OutOfFuel, st') => (OutOfFuel, st')
              end
          | None => (Return (false, None, 0), state w)
          end
      end
    else (Return (false, None, 0), st).

End Timed.

(** ** Proof devices of the virtual players *)

(** The count of liberties as a total function. *)
Definition liberties_count (st : GameState) (p : coord) : Z :=
  default 0 (count_liberties st p).

(** The state in the middle of [check_moves_to_take_stones]. *)
Definition tried (st : GameState) (c : colour) (visited : list coord) : GameState :=
  with_state st (foldl (λ (m : gmap coord colour) p, <[p:=c]> m) (_state st) visited).

(** The measure that decreases along [check_moves_loop]. *)
Definition moves_bonus (s : GameState) (stack : list coord) : nat :=
  match stack with
  | [] => 8
  | x :: _ => if decide (_state s !! x = Some FREE) then 0 else 8
  end.

Definition moves_measure (s : GameState) (stack : list coord) : nat :=
  16 * size (get_free_points s) + length stack + moves_bonus s stack.

(** A point the clever player will not play. *)
Definition rejected (st : GameState) (p : coord) : Prop :=
  suicide st p ∨ self_atari st p.

(** What holds of the local variables of [find_point_to_move] between two
    iterations, on the state [st] and the free points [fp], once the second
    loop has gone through the points [covered]. *)
Definition ok_locals (st : GameState) (fp covered : list coord)
    (l : CleverVirtualPlayer.locals) : Prop :=
  (∀ p, p ∈ CleverVirtualPlayer.forbidden_points l → rejected st p) ∧
  (∀ mv, mv ∈ CleverVirtualPlayer.moves l → mv.2 ∈ fp ∧ ¬ self_atari st mv.2) ∧
  (∀ p, p ∈ covered → self_atari st p → p ∈ CleverVirtualPlayer.forbidden_points l).

(** A piece of [find_point_to_move], run from the state [s], either returns
    a move made on [st], or goes on with the state [st]. *)
Definition sound_from (st : GameState) (fp covered : list coord) (s : GameState)
    (m : M (move_result + CleverVirtualPlayer.locals)) : Prop :=
  (∃ p n st', p ∈ fp ∧ ¬ self_atari st p ∧ make_move p st = (Return n, st') ∧
              m s = (Return (inl (true, Some p, n)), st')) ∨
  (∃ l', ok_locals st fp covered l' ∧ m s = (Return (inr l'), st)).




(** The moves recorded by the second loop are at free points. *)
Definition moves_ok (fp : list coord) (l : CleverVirtualPlayer.locals) : Prop :=
  ∀ mv, mv ∈ CleverVirtualPlayer.moves l → mv.2 ∈ fp.



(** ** The table of records: scoreboard.py

    The file is modelled by the JSON value it holds: [json.load] gives the
    value read, [json.dump] the value written. *)

Module Scoreboard.

#[local] Set Warnings "-register-all".
Inductive json : Type :=
| JNull
| JBool (b : bool)
| JInt (z : Z)
| JFloat (mantissa exponent : Z)
| JString (s : string)
| JArray (items : list json)
| JObject (members : gmap string json).
#[local] Set Warnings "register-all".

(** [isinstance(v, int)]: a Python [bool] is an [int]. *)
Definition isinstance_int (v : json) : bool :=
  match v with
  | JInt _ | JBool _ => true
  | _ => false
  end.

(** The integer an [int] or [bool] compares as. *)
Definition int_value (v : json) : Z :=
  match v with
  | JInt z => z
  | JBool true => 1
  | _ => 0
  end.

(** The tests of the inner loop of [_check] on one [value]; [None] is
    [continue], [Some] the tuple appended to [items]. *)
Definition check_value (value : json) : option (string * json) :=
  match value with
  | JArray value =>
      if negb (length value =? 2)%nat then None
      else
        match value with
        | [JString name; score] =>
            if negb (isinstance_int score) then None
            else if int_value score <=? 0 then None
            else Some (name, score)
        | _ => None
        end
  | _ => None
  end.

Definition _check (scores : json) : gmap string (list (string * json)) :=
  match scores with
  | JObject scores =>
      map_fold (λ key values (result : gmap string (list (string * json))),
                  match values with
                  | JArray values => <[key:=omap check_value values]> result
                  | _ => result
                  end) ∅ scores
  | _ => ∅
  end.

(** The attribute [_scores] after [add_score]; [key], [name] and [score] are
    [str(size)], [str(name)] and [int(score)]. *)
Definition add_score (key name : string) (score : Z)
    (_scores : gmap string (list (string * json))) : gmap string (list (string * json)) :=
  let _scores :=
    if bool_decide (key ∉ dom _scores) then <[key:=[]]> _scores else _scores in
  alter (λ records, records ++ [(name, JInt score)]) key _scores.

(** The value [json.dump] writes for [_scores]: a tuple is written as an
    array. *)
Definition dump (_scores : gmap string (list (string * json))) : json :=
  JObject ((λ records : list (string * json),
              JArray (map (λ record, JArray [JString record.1; record.2]) records))
           <$> _scores).

Definition get_scores (key : string) (_scores : gmap string (list (string * json)))
  : list (string * json) :=
  sorted_reverse (λ record, int_value record.2) (default [] (_scores !! key)).

(** Every record of the table holds a positive integer. *)
Definition valid (_scores : gmap string (list (string * json))) : Prop :=
  ∀ key records record,
    _scores !! key = Some records → record ∈ records →
    isinstance_int record.2 = true ∧ 0 < int_value record.2.

End Scoreboard.

(** * Properties *)

(** ** Geometry *)

Lemma elem_of_neighbour_points g p q :
  q ∈ neighbour_points g p ↔
  check_coordinates g q = true ∧
  (q = (p.1 + 1, p.2) ∨ q = (p.1, p.2 + 1) ∨ q = (p.1 - 1, p.2) ∨ q = (p.1, p.2 - 1)).
Proof.
  unfold neighbour_points. rewrite list_elem_of_In, filter_In. simpl.
  replace (p.1 + 0) with p.1 by lia. replace (p.2 + 0) with p.2 by lia.
  replace (p.1 + -1) with (p.1 - 1) by lia. replace (p.2 + -1) with (p.2 - 1) by lia.
  naive_solver.
Qed.

Lemma neighbour_points_length g p : (length (neighbour_points g p) ≤ 4)%nat.
Proof. unfold neighbour_points. etrans; [apply filter_length_le|]. simpl. lia. Qed.

Lemma adjacent_sym g p q :
  check_coordinates g p = true → adjacent g p q → adjacent g q p.
Proof.
  unfold adjacent. rewrite !elem_of_neighbour_points. intros Hp [Hq H].
  split; [done|]. destruct p as [x y], q as [x' y']; simpl in *.
  destruct H as [H|[H|[H|H]]]; inversion H; subst.
  - right; right; left. f_equal; lia.
  - right; right; right. f_equal; lia.
  - left. f_equal; lia.
  - right; left. f_equal; lia.
Qed.

Lemma adjacent_in_bounds g p q : adjacent g p q → check_coordinates g q = true.
Proof. unfold adjacent. rewrite elem_of_neighbour_points. tauto. Qed.

Lemma elem_of_board_points g p : p ∈ board_points g ↔ check_coordinates g p = true.
Proof.
  unfold board_points, check_coordinates. rewrite list_elem_of_In, in_flat_map.
  destruct p as [x y]; simpl. split.
  - intros (x' & Hx & Hy). apply in_map_iff in Hy as (y' & [= -> ->] & Hy).
    apply list_elem_of_In, elem_of_seqZ in Hx. apply list_elem_of_In, elem_of_seqZ in Hy.
    repeat (apply andb_true_intro; split); lia.
  - intros H. repeat (apply andb_prop in H as [H ?]).
    exists x. split.
    + apply list_elem_of_In, elem_of_seqZ. lia.
    + apply in_map, list_elem_of_In, elem_of_seqZ. lia.
Qed.

Lemma board_points_length g :
  length (board_points g) = (Z.to_nat (_size g).1 * Z.to_nat (_size g).2)%nat.
Proof.
  unfold board_points. generalize (seqZ 0 (_size g).1) (length_seqZ 0 (_size g).1).
  intros l <-. induction l as [|x l IH]; simpl; [done|].
  rewrite length_app, length_map, length_seqZ. f_equal. exact IH.
Qed.

Lemma board_points_NoDup g : NoDup (board_points g).
Proof.
  unfold board_points.
  generalize (seqZ 0 (_size g).1) (NoDup_seqZ 0 (_size g).1).
  generalize (seqZ 0 (_size g).2) (NoDup_seqZ 0 (_size g).2).
  intros ys Hys xs Hxs. induction Hxs as [|x xs Hx Hxs IH]; simpl; [constructor|].
  apply NoDup_app. split; [|split; [|done]].
  - apply NoDup_fmap_2; [|done]. by intros ?? [=].
  - intros [a b] Ha Hb. apply list_elem_of_fmap in Ha as (y & [= -> ->] & _).
    apply list_elem_of_In, in_flat_map in Hb as (x' & Hx' & Hb).
    apply in_map_iff in Hb as (y' & [= -> ->] & _). by apply Hx, list_elem_of_In.
Qed.

Lemma size_list_to_set_le (l : list coord) : (size (list_to_set l : gset coord) ≤ length l)%nat.
Proof.
  induction l as [|x l IH]; simpl.
  - change (size (∅ : gset coord) ≤ 0)%nat. by rewrite size_empty.
  - change (size ({[x]} ∪ list_to_set l : gset coord) ≤ S (length l))%nat.
    rewrite size_union_alt. rewrite size_singleton.
    assert (size (list_to_set l ∖ {[x]} : gset coord) ≤ size (list_to_set l : gset coord))%nat
      by (apply subseteq_size; set_solver). lia.
Qed.

Lemma elem_of_rev {A} (x : A) (l : list A) : x ∈ rev l ↔ x ∈ l.
Proof. rewrite !list_elem_of_In. symmetry. apply in_rev. Qed.

Lemma lookup_clear (l : list coord) (m : gmap coord colour) q :
  foldl (λ (m : gmap coord colour) p, <[p:=FREE]> m) m l !! q
  = if decide (q ∈ l) then Some FREE else m !! q.
Proof.
  revert m. induction l as [|x l IH]; intros m; cbn [foldl].
  - rewrite decide_False; [done|]. by intros ?%elem_of_nil.
  - rewrite IH. destruct (decide (q ∈ l)) as [Hl|Hl].
    + rewrite decide_True; [done|by right].
    + destruct (decide (q = x)) as [->|Hne].
      * rewrite lookup_insert_eq, decide_True; [done|by left].
      * rewrite lookup_insert_ne by done. rewrite decide_False; [done|].
        by intros [?|?]%elem_of_cons.
Qed.

(** ** The work-list loop *)

Lemma foldl_flood_visit st c keep seen l next acc :
  foldl (flood_visit st c keep seen) (next, acc) l
  = (rev (pushed st c seen l) ++ next, list_to_set (List.filter keep l) ∪ acc).
Proof.
  revert next acc. induction l as [|p l IH]; intros next acc; simpl.
  - f_equal. set_solver.
  - unfold flood_visit at 2. simpl. rewrite IH. unfold pushed; simpl.
    destruct (bool_decide _); destruct (keep p); simpl;
      rewrite <- ?app_assoc; simpl; f_equal; set_solver.
Qed.

Lemma elem_of_pushed st c seen l p :
  p ∈ pushed st c seen l ↔ p ∈ l ∧ get_state st p = c ∧ p ∉ seen.
Proof.
  unfold pushed. rewrite !list_elem_of_In, filter_In, bool_decide_eq_true.
  tauto.
Qed.

Section flood_correct.
Context (st : GameState) (c : colour) (keep : coord → bool) (seed : coord).

Lemma flood_inv_step cur rest seen acc :
  flood_inv st c keep seed (cur :: rest) seen acc →
  flood_inv st c keep seed (rev (pushed st c ({[cur]} ∪ seen) (neighbour_points (goban st) cur)) ++ rest)
            ({[cur]} ∪ seen)
            (list_to_set (List.filter keep (neighbour_points (goban st) cur)) ∪ acc).
Proof.
  intros [I0 I1 I2 I3 I4].
  assert (Hcur : rtc (link st c) seed cur) by (apply I1; left).
  split.
  - destruct I0 as [?|H]; [set_solver|].
    apply elem_of_cons in H as [->|H]; [set_solver|].
    right. apply elem_of_app. by right.
  - intros q [Hq|Hq]%elem_of_app.
    + apply elem_of_rev, elem_of_pushed in Hq as (Hq & Hc & _).
      eapply rtc_r; [done|]. by split.
    + apply I1. by right.
  - intros q [->%elem_of_singleton|Hq]%elem_of_union; auto.
  - intros q Hq. destruct (decide (q = cur)) as [->|Hne].
    + right. intros b Hb. split.
      * intros Hc. destruct (decide (b ∈ ({[cur]} ∪ seen : gset coord))); [by left|].
        right. apply elem_of_app. left.
        apply elem_of_rev, elem_of_pushed. done.
      * intros Hk. apply elem_of_union. left.
        apply elem_of_list_to_set, list_elem_of_In, filter_In.
        split; [by apply list_elem_of_In|done].
    + assert (Hs : q ∈ seen) by set_solver.
      destruct (I3 q Hs) as [Hn|Hd].
      * left. apply elem_of_cons in Hn as [?|Hn]; [done|].
        apply elem_of_app. by right.
      * right. intros b Hb. destruct (Hd b Hb) as [H1 H2]. split.
        -- intros Hc. destruct (H1 Hc) as [?|Hn]; [left; set_solver|].
           apply elem_of_cons in Hn as [->|Hn]; [left; set_solver|].
           right. apply elem_of_app. by right.
        -- intros Hk. apply elem_of_union. right. auto.
  - intros b [Hb|Hb]%elem_of_union.
    + apply elem_of_list_to_set, list_elem_of_In, filter_In in Hb as [Hb Hk].
      exists cur. split; [set_solver|]. split; [by apply list_elem_of_In|done].
    + destruct (I4 b Hb) as (q & ? & ? & ?). exists q. split; [set_solver|done].
Qed.

Lemma flood_inv_final seen acc :
  flood_inv st c keep seed [] seen acc →
  (∀ q, q ∈ seen ↔ rtc (link st c) seed q) ∧
  (∀ b, b ∈ acc ↔ ∃ q, rtc (link st c) seed q ∧ adjacent (goban st) q b ∧ keep b = true).
Proof.
  intros [I0 I1 I2 I3 I4].
  assert (Hall : ∀ q, rtc (link st c) seed q → q ∈ seen).
  { apply (rtc_ind_r (λ q, q ∈ seen)).
    - destruct I0 as [?|H]; [done|]. by apply elem_of_nil in H.
    - intros y z _ Hyz IH. destruct (I3 _ IH) as [H|H]; [by apply elem_of_nil in H|].
      destruct Hyz as [Ha Hc]. destruct (H _ Ha) as [H1 _].
      destruct (H1 Hc) as [?|H']; [done|]. by apply elem_of_nil in H'. }
  split.
  - intros q. split; auto.
  - intros b. split.
    + intros Hb. destruct (I4 b Hb) as (q & ? & ? & ?). exists q. auto.
    + intros (q & Hq & Ha & Hk). destruct (I3 q (Hall q Hq)) as [H|H];
        [by apply elem_of_nil in H|]. by apply H.
Qed.

End flood_correct.

Section flood_terminates.
Context (st : GameState) (c : colour) (seed : coord).

Lemma reachable_candidate q : rtc (link st c) seed q → q ∈ candidates st c seed.
Proof.
  intros H. apply rtc_inv_r in H as [->|(y & _ & [Ha Hc])]; unfold candidates.
  - set_solver.
  - apply elem_of_union. right.
    apply elem_of_list_to_set, list_elem_of_In, filter_In. split.
    + apply list_elem_of_In, elem_of_board_points. by eapply adjacent_in_bounds.
    + by apply bool_decide_eq_true.
Qed.

Lemma candidates_size : (size (candidates st c seed) ≤ S (length (board_points (goban st))))%nat.
Proof.
  unfold candidates. rewrite size_union_alt, size_singleton.
  match goal with |- (1 + size ?X ≤ _)%nat =>
    assert (size X ≤ length (board_points (goban st)))%nat end; [|lia].
  etrans; [apply subseteq_size, subseteq_difference_l; reflexivity|].
  etrans; [apply size_list_to_set_le|]. apply filter_length_le.
Qed.

Context (keep : coord → bool).

Lemma flood_measure_step cur rest seen acc :
  flood_inv st c keep seed (cur :: rest) seen acc →
  (flood_measure st c seed
     (rev (pushed st c ({[cur]} ∪ seen) (neighbour_points (goban st) cur)) ++ rest)
     ({[cur]} ∪ seen)
   < flood_measure st c seed (cur :: rest) seen)%nat.
Proof.
  intros Hinv. unfold flood_measure.
  set (nb := neighbour_points (goban st) cur).
  set (seen' := ({[cur]} ∪ seen : gset coord)).
  assert (Hk : (length (rev (pushed st c seen' nb)) ≤ 4)%nat).
  { rewrite length_rev. unfold pushed. etrans; [apply filter_length_le|].
    apply neighbour_points_length. }
  assert (Hhead : match rev (pushed st c seen' nb) ++ rest with
                  | [] => True
                  | q :: _ => rev (pushed st c seen' nb) = [] ∨ q ∉ seen'
                  end).
  { destruct (rev (pushed st c seen' nb)) as [|q l] eqn:E; simpl.
    - destruct rest; [done|by left].
    - right. assert (Hq : q ∈ rev (pushed st c seen' nb)) by (rewrite E; left).
      apply elem_of_rev, elem_of_pushed in Hq. by destruct Hq as (_ & _ & ?). }
  rewrite length_app. simpl length.
  destruct (decide (cur ∈ seen)) as [Hin|Hnin].
  - assert (Heq : seen' = seen) by (unfold seen'; set_solver).
    rewrite Heq in *. rewrite (bool_decide_eq_true_2 _ Hin).
    destruct (rev (pushed st c seen nb)) as [|q l]; simpl in *.
    + destruct rest as [|q' rest']; [lia|]. destruct (bool_decide _); lia.
    + destruct Hhead as [?|Hq]; [done|].
      rewrite (bool_decide_eq_false_2 _ Hq). lia.
  - rewrite (bool_decide_eq_false_2 _ Hnin).
    assert (Hc : cur ∈ candidates st c seed).
    { apply reachable_candidate. apply (inv_next _ _ _ _ _ _ _ Hinv). left. }
    assert (Hsz : size (candidates st c seed ∖ seen) = S (size (candidates st c seed ∖ seen'))).
    { replace (candidates st c seed ∖ seen) with ({[cur]} ∪ candidates st c seed ∖ seen').
      - rewrite size_union by set_solver. by rewrite size_singleton.
      - unfold seen'. apply set_eq. intros x.
        destruct (decide (x = cur)); set_solver. }
    rewrite Hsz.
    destruct (rev (pushed st c seen' nb) ++ rest) as [|q l]; [lia|].
    destruct (bool_decide _); lia.
Qed.

Lemma flood_runs fuel next seen acc :
  flood_inv st c keep seed next seen acc →
  (flood_measure st c seed next seen < fuel)%nat →
  ∃ seen' acc', flood st c keep fuel next seen acc = Some (seen', acc') ∧
                flood_inv st c keep seed [] seen' acc'.
Proof.
  revert next seen acc. induction fuel as [|fuel IH]; intros next seen acc Hinv Hm.
  { lia. }
  destruct next as [|cur rest]; simpl.
  { eauto. }
  rewrite foldl_flood_visit. simpl. apply IH.
  - by apply flood_inv_step.
  - pose proof (flood_measure_step _ _ _ _ Hinv). lia.
Qed.

End flood_terminates.

(** ** The flood fills of the source are instances of the loop *)

Lemma get_group_loop_flood fuel st c next group boarder :
  get_group_loop fuel st c next group boarder
  = flood st c (λ p, bool_decide (get_state st p ≠ c)) fuel next group boarder.
Proof.
  revert next group boarder. induction fuel as [|fuel IH]; intros [|cur rest] group boarder;
    simpl; try done; apply IH.
Qed.

Lemma get_liberties_visits st c visited l acc :
  foldl (get_liberties_visit st c visited) acc l
  = foldl (flood_visit st c (λ p, bool_decide (get_state st p = FREE)) (list_to_set visited)) acc l.
Proof.
  revert acc. induction l as [|p l IH]; intros acc; simpl; [done|].
  rewrite IH. f_equal. unfold get_liberties_visit, flood_visit. f_equal.
  erewrite bool_decide_ext; [done|]. rewrite elem_of_list_to_set. done.
Qed.

Lemma get_liberties_loop_flood fuel st c next visited liberties :
  get_liberties_loop fuel st c next visited liberties
  = snd <$> flood st c (λ p, bool_decide (get_state st p = FREE)) fuel next
                  (list_to_set visited) liberties.
Proof.
  revert next visited liberties.
  induction fuel as [|fuel IH]; intros [|cur rest] visited liberties; simpl; try done.
  rewrite IH, get_liberties_visits.
  replace (list_to_set (visited ++ [cur]) : gset coord)
    with ({[cur]} ∪ list_to_set visited : gset coord); [done|].
  rewrite list_to_set_app_L. set_solver.
Qed.

Lemma loop_fuel_enough st c seed next seen :
  (length next ≤ 1)%nat →
  (seed ∈ seen ∨ seen = ∅) →
  (flood_measure st c seed next seen < loop_fuel (goban st))%nat.
Proof.
  intros Hlen Hseen. unfold flood_measure, loop_fuel.
  rewrite <- board_points_length.
  pose proof (candidates_size st c seed) as Hc.
  destruct Hseen as [Hin| ->].
  - assert (size (candidates st c seed ∖ seen) ≤ length (board_points (goban st)))%nat.
    { etrans; [|etrans; [apply (size_list_to_set_le
                   (List.filter (λ q, bool_decide (get_state st q = c)) (board_points (goban st))))|]].
      - apply subseteq_size. unfold candidates. set_solver.
      - apply filter_length_le. }
    destruct next as [|q ?]; [lia|]. destruct (bool_decide _); lia.
  - replace (candidates st c seed ∖ ∅) with (candidates st c seed) by set_solver.
    destruct next as [|q ?]; [lia|].
    rewrite bool_decide_eq_false_2 by set_solver. lia.
Qed.

(** ** What [get_group] and [get_liberties] compute *)

Lemma get_group_spec st p :
  ∃ group boarder,
    get_group st p = Some (group, boarder) ∧
    (∀ q, q ∈ group ↔ in_group st p q) ∧
    (∀ b, b ∈ boarder ↔ on_border st p b).
Proof.
  unfold get_group. rewrite get_group_loop_flood.
  set (c := get_state st p). set (keep := λ q, bool_decide (get_state st q ≠ c)).
  destruct (flood_runs st c p keep (loop_fuel (goban st)) [p] {[p]} ∅)
    as (group & boarder & Hrun & Hinv).
  - split.
    + left. set_solver.
    + intros q ->%list_elem_of_singleton. done.
    + intros q ->%elem_of_singleton. done.
    + intros q ->%elem_of_singleton. left. by left.
    + set_solver.
  - apply loop_fuel_enough; [simpl; lia|left; set_solver].
  - exists group, boarder. split; [done|].
    apply flood_inv_final in Hinv as [Hg Hb]. split; [done|].
    intros b. rewrite Hb. unfold on_border, in_group, keep. fold c.
    setoid_rewrite bool_decide_eq_true. done.
Qed.

Lemma get_liberties_spec st p :
  get_state st p ≠ FREE →
  ∃ liberties,
    get_liberties st p = Some liberties ∧
    ∀ b, b ∈ liberties ↔ is_liberty st p b.
Proof.
  intros Hp. unfold get_liberties. rewrite bool_decide_eq_false_2 by done.
  rewrite get_liberties_loop_flood.
  set (c := get_state st p). set (keep := λ q, bool_decide (get_state st q = FREE)).
  destruct (flood_runs st c p keep (loop_fuel (goban st)) [p] ∅ ∅)
    as (group & liberties & Hrun & Hinv).
  - split.
    + right. by left.
    + intros q ->%list_elem_of_singleton. done.
    + set_solver.
    + set_solver.
    + set_solver.
  - apply loop_fuel_enough; [simpl; lia|by right].
  - exists liberties. change (list_to_set [] : gset coord) with (∅ : gset coord).
    rewrite Hrun. split; [done|].
    apply flood_inv_final in Hinv as [Hg Hb].
    intros b. rewrite Hb. unfold is_liberty, in_group, keep. fold c.
    setoid_rewrite bool_decide_eq_true. done.
Qed.

Lemma get_liberties_free st p :
  get_state st p = FREE → get_liberties st p = Some {[p]}.
Proof. intros H. unfold get_liberties. by rewrite bool_decide_eq_true_2. Qed.

Lemma count_liberties_spec st p :
  get_state st p ≠ FREE →
  ∃ n, count_liberties st p = Some n ∧
       ((n = 0 ∧ ∀ b, ¬ is_liberty st p b) ∨ (0 < n ∧ ∃ b, is_liberty st p b)).
Proof.
  intros Hp. destruct (get_liberties_spec st p Hp) as (L & HL & Hspec).
  exists (Z.of_nat (size L)). unfold count_liberties. rewrite HL. split; [done|].
  destruct (decide (size L = 0%nat)) as [H0|H0].
  - left. split; [lia|]. intros b Hb%Hspec. apply size_empty_iff in H0. set_solver.
  - right. split; [lia|]. destruct (size_pos_elem_of L) as [b Hb]; [lia|].
    exists b. by apply Hspec.
Qed.

Lemma count_liberties_free st p :
  get_state st p = FREE → count_liberties st p = Some 1.
Proof.
  intros H. unfold count_liberties. rewrite get_liberties_free by done.
  cbn [fmap option_fmap option_map]. by rewrite size_singleton.
Qed.

Lemma liberty_from_count st p n :
  count_liberties st p = Some n → 0 < n → get_state st p ≠ FREE →
  ∃ b, is_liberty st p b.
Proof.
  intros Hn Hpos Hp. destruct (count_liberties_spec st p Hp) as (k & Hk & [[-> _]|[_ ?]]);
    [|done]. rewrite Hn in Hk. injection Hk as ->. lia.
Qed.

Lemma no_liberty_from_count st p :
  count_liberties st p = Some 0 → get_state st p ≠ FREE →
  ∀ b, ¬ is_liberty st p b.
Proof.
  intros Hn Hp. destruct (count_liberties_spec st p Hp) as (k & Hk & [[_ ?]|[Hpos _]]);
    [done|]. rewrite Hn in Hk. injection Hk as <-. lia.
Qed.

Lemma liberty_dec st p :
  get_state st p ≠ FREE →
  (∀ b, ¬ is_liberty st p b) ∨ (∃ b, is_liberty st p b).
Proof.
  intros H. destruct (count_liberties_spec st p H) as (n & _ & [[_ ?]|[_ ?]]); auto.
Qed.

(** ** Connectivity *)

Lemma wf_cells_iff st :
  wf_cells st ↔ ∀ p, is_Some (_state st !! p) ↔ check_coordinates (goban st) p = true.
Proof.
  unfold wf_cells. rewrite set_eq. apply forall_proper. intros p.
  by rewrite elem_of_dom, elem_of_list_to_set, elem_of_board_points.
Qed.

Lemma link_in_bounds st c p q :
  check_coordinates (goban st) p = true → rtc (link st c) p q →
  check_coordinates (goban st) q = true.
Proof.
  intros Hp H. apply rtc_inv_r in H as [->|(y & _ & [Ha _])]; [done|].
  by eapply adjacent_in_bounds.
Qed.

Lemma link_colour st c p q :
  get_state st p = c → rtc (link st c) p q → get_state st q = c.
Proof. intros Hp H. by apply rtc_inv_r in H as [->|(y & _ & [_ ?])]. Qed.

Lemma link_sym st c p q :
  check_coordinates (goban st) p = true → get_state st p = c →
  rtc (link st c) p q → rtc (link st c) q p.
Proof.
  intros Hp Hc. revert q. apply (rtc_ind_r (λ q, rtc (link st c) q p)); [done|].
  intros y z Hy [Ha Hz] IH. eapply rtc_l; [|exact IH].
  split.
  - apply adjacent_sym; [|done]. by apply (link_in_bounds st c p).
  - by apply (link_colour st c p).
Qed.

Lemma free_points_spec st p :
  p ∈ get_free_points st ↔ _state st !! p = Some FREE.
Proof.
  unfold get_free_points. rewrite elem_of_dom. split.
  - intros [v Hv]. apply map_lookup_filter_Some in Hv as [Hv Hf]. simpl in Hf. by subst.
  - intros H. exists FREE. by apply map_lookup_filter_Some.
Qed.

Lemma free_points_wf st p :
  wf_cells st →
  p ∈ get_free_points st ↔ check_coordinates (goban st) p = true ∧ get_state st p = FREE.
Proof.
  intros Hwf'. pose proof (proj1 (wf_cells_iff _) Hwf') as Hwf. rewrite free_points_spec. unfold get_state. split.
  - intros H. split; [apply Hwf; eauto|by rewrite H].
  - intros [Hb Hf]. apply Hwf in Hb as [v Hv]. rewrite Hv in Hf |- *. simpl in Hf. by subst.
Qed.

Lemma all_free_connected st p :
  (∀ q, check_coordinates (goban st) q = true → get_state st q = FREE) →
  check_coordinates (goban st) p = true →
  rtc (link st FREE) p (0, 0).
Proof.
  intros Hfree. destruct p as [x y].
  remember (Z.to_nat (x + y)) as n eqn:Hn. revert x y Hn.
  induction n as [|n IH]; intros x y Hn Hb;
    pose proof Hb as Hb'; unfold check_coordinates in Hb'; simpl in Hb';
    repeat (apply andb_prop in Hb' as [Hb' ?]).
  - assert (x = 0) as -> by lia. assert (y = 0) as -> by lia. done.
  - assert (Hstep : ∀ q, q = (x - 1, y) ∨ q = (x, y - 1) →
                         check_coordinates (goban st) q = true →
                         link st FREE (x, y) q).
    { intros q Hq Hqb. split; [|by apply Hfree].
      apply elem_of_neighbour_points. split; [done|]. simpl. naive_solver. }
    destruct (decide (0 < x)).
    + eapply rtc_l; [apply (Hstep (x - 1, y))|apply IH]; try lia; auto;
        unfold check_coordinates; simpl; repeat (apply andb_true_intro; split); lia.
    + eapply rtc_l; [apply (Hstep (x, y - 1))|apply IH]; try lia; auto;
        unfold check_coordinates; simpl; repeat (apply andb_true_intro; split); lia.
Qed.

(** ** Territory *)

Section territory.
Context (st : GameState) (colour : colour).

Lemma region_unique R p q :
  empty_region st R → q ∈ R →
  check_coordinates (goban st) p = true → get_state st p = FREE →
  rtc (link st FREE) p q →
  ∀ x, x ∈ R ↔ rtc (link st FREE) p x.
Proof.
  intros (p' & Hb' & Hf' & HR) Hq Hb Hf Hpq x. rewrite HR. apply HR in Hq.
  split; intros Hx.
  - etrans; [exact Hpq|]. etrans; [|exact Hx]. by apply link_sym.
  - etrans; [exact Hq|]. etrans; [|exact Hx]. by apply link_sym.
Qed.

Lemma owned_by_forallb (p : coord) (group boarder : gset coord) :
  get_state st p = FREE →
  (∀ q, q ∈ group ↔ in_group st p q) →
  (∀ b, b ∈ boarder ↔ on_border st p b) →
  forallb (λ b, bool_decide (get_state st b = colour)) (elements boarder) = true
  ↔ owned_by st colour group.
Proof.
  intros Hf Hg Hb. rewrite forallb_forall. unfold owned_by, region_border. split.
  - intros H b (q & Hq & Ha & Hne). eapply bool_decide_eq_true, H.
    apply list_elem_of_In, elem_of_elements, Hb. exists q.
    split; [by apply Hg|]. split; [done|]. by rewrite Hf.
  - intros H b Hin. apply bool_decide_eq_true, H.
    apply list_elem_of_In, elem_of_elements, Hb in Hin as (q & Hq & Ha & Hne).
    exists q. split; [by apply Hg|]. split; [done|]. by rewrite <- Hf.
Qed.

Lemma take_territory_loop_spec free_points :
  ∀ visited Rs,
    territory_inv st colour visited Rs →
    (∀ p, p ∈ free_points →
          check_coordinates (goban st) p = true ∧ get_state st p = FREE) →
    ∃ visited' Rs',
      take_territory_loop st colour free_points visited (sum_sizes Rs)
      = Some (sum_sizes Rs') ∧
      territory_inv st colour visited' Rs' ∧
      (∀ p, p ∈ free_points → p ∈ visited') ∧
      (∀ p, p ∈ visited → p ∈ visited').
Proof.
  induction free_points as [|p pts IH]; intros visited Rs Hinv Hpts; simpl.
  { exists visited, Rs. split; [done|]. split; [done|]. split; [|done].
    intros p Hp. by apply elem_of_nil in Hp. }
  assert (Hp : check_coordinates (goban st) p = true ∧ get_state st p = FREE)
    by (apply Hpts; left).
  destruct Hp as [Hpb Hpf].
  assert (Hpts' : ∀ q, q ∈ pts →
            check_coordinates (goban st) q = true ∧ get_state st q = FREE)
    by (intros q Hq; apply Hpts; by right).
  destruct (decide (p ∈ visited)) as [Hin|Hnin].
  { rewrite bool_decide_eq_false_2 by tauto.
    destruct (IH visited Rs Hinv Hpts') as (v' & Rs' & Hrun & Hinv' & Hcov & Hmono).
    exists v', Rs'. split; [done|]. split; [done|]. split; [|done].
    intros q [->|Hq]%elem_of_cons; auto. }
  rewrite bool_decide_eq_true_2 by done.
  destruct (get_group_spec st p) as (group & boarder & -> & Hg & Hb).
  unfold in_group in Hg. rewrite Hpf in Hg.
  assert (Hreg : empty_region st group) by (exists p; done).
  assert (Hpg : p ∈ group) by (by apply Hg).
  destruct Hinv as [J1 J2 J5 J6 J7].
  assert (Hfresh : ∀ q, q ∈ group → q ∉ visited).
  { intros q Hq Hv. apply Hnin. apply (J2 q p Hv).
    apply link_sym; [done|done|]. by apply Hg. }
  assert (Hinv1 : ∀ Rs1,
             NoDup Rs1 →
             (∀ R, R ∈ Rs1 ↔ R ∈ Rs ∨ (R = group ∧ owned_by st colour group)) →
             territory_inv st colour (visited ++ elements group) Rs1).
  { intros Rs1 Hnd HRs1. split.
    - intros q [Hq|Hq]%elem_of_app; [by apply J1|].
      apply elem_of_elements, Hg in Hq. split.
      + by eapply link_in_bounds.
      + by eapply link_colour.
    - intros q q' [Hq|Hq]%elem_of_app Hqq'; apply elem_of_app.
      + left. by eapply J2.
      + right. apply elem_of_elements, Hg. apply elem_of_elements, Hg in Hq.
        by etrans.
    - done.
    - intros R [HR|[-> Hown]]%HRs1.
      + destruct (J6 R HR) as (? & ? & Hsub). split; [done|]. split; [done|].
        intros q Hq. apply elem_of_app. left. auto.
      + split; [done|]. split; [done|]. intros q Hq.
        apply elem_of_app. right. by apply elem_of_elements.
    - intros R HR Hown (q & HqR & [Hq|Hq]%elem_of_app); apply HRs1.
      + left. apply J7; eauto.
      + apply elem_of_elements in Hq.
        assert (R = group) as ->.
        { apply set_eq. intros x. rewrite Hg.
          apply (region_unique R p q); try done. by apply Hg. }
        by right. }
  destruct (forallb _ (elements boarder)) eqn:Hall.
  - apply (owned_by_forallb p group boarder) in Hall; [|done| |done].
    2:{ intros q. unfold in_group. rewrite Hpf. apply Hg. }
    destruct (IH (visited ++ elements group) (group :: Rs)) as (v' & Rs' & Hrun & Hinv' & Hcov & Hmono).
    + apply Hinv1.
      * constructor; [|done]. intros HR. destruct (J6 _ HR) as (_ & _ & Hsub).
        by apply (Hfresh p), Hsub.
      * intros R. rewrite elem_of_cons. naive_solver.
    + done.
    + exists v', Rs'. simpl in Hrun.
      replace (sum_sizes Rs + Z.of_nat (size group)) with (Z.of_nat (size group) + sum_sizes Rs) by lia.
      split; [done|]. split; [done|]. split.
      * intros q [->|Hq]%elem_of_cons; [|auto].
        apply Hmono, elem_of_app. right. by apply elem_of_elements.
      * intros q Hq. apply Hmono, elem_of_app. by left.
  - assert (Hnown : ¬ owned_by st colour group).
    { intros Hown. apply (owned_by_forallb p group boarder) in Hown; [congruence|done| |done].
      intros q. unfold in_group. rewrite Hpf. apply Hg. }
    destruct (IH (visited ++ elements group) Rs) as (v' & Rs' & Hrun & Hinv' & Hcov & Hmono).
    + apply Hinv1; [done|]. intros R. naive_solver.
    + done.
    + exists v', Rs'. split; [done|]. split; [done|]. split.
      * intros q [->|Hq]%elem_of_cons; [|auto].
        apply Hmono, elem_of_app. right. by apply elem_of_elements.
      * intros q Hq. apply Hmono, elem_of_app. by left.
Qed.

End territory.

Lemma take_territory_in_spec st colour order old :
  wf_cells st →
  (∀ p, p ∈ order ↔ p ∈ get_free_points st) →
  _score st !! colour = Some old →
  ∃ Rs, NoDup Rs ∧
        (∀ R, R ∈ Rs ↔ empty_region st R ∧ owned_by st colour R) ∧
        take_territory_in order colour st
        = (Return tt, with_score st (<[colour:=old + sum_sizes Rs]> (_score st))).
Proof.
  intros Hwf Horder Hold.
  destruct (take_territory_loop_spec st colour order [] []) as (v & Rs & Hrun & Hinv & Hcov & _).
  - split; try done.
    + intros q Hq. by apply elem_of_nil in Hq.
    + intros q q' Hq. by apply elem_of_nil in Hq.
    + constructor.
    + intros R HR. by apply elem_of_nil in HR.
    + intros R _ _ (q & _ & Hq). by apply elem_of_nil in Hq.
  - intros p Hp. by apply free_points_wf, Horder.
  - exists Rs. destruct Hinv as [J1 J2 J5 J6 J7]. split; [done|]. split.
    + intros R. split.
      * intros HR. destruct (J6 R HR) as (? & ? & _). done.
      * intros [HR Hown]. apply J7; [done|done|].
        destruct HR as (p & Hb & Hf & HR). exists p. split; [by apply HR|].
        apply Hcov, Horder, free_points_wf; done.
    + unfold take_territory_in, bind, query. simpl in Hrun. rewrite Hrun, Hold. done.
Qed.

Lemma take_territory_order st colour :
  take_territory colour st = take_territory_in (elements (get_free_points st)) colour st.
Proof. done. Qed.

Lemma order_covers st (order : list coord) :
  order ≡ₚ elements (get_free_points st) →
  ∀ p, p ∈ order ↔ p ∈ get_free_points st.
Proof. intros H p. by rewrite H, elem_of_elements. Qed.

Lemma NoDup_singleton_eq {A} (l : list A) (b : A) :
  NoDup l → (∀ x, x ∈ l ↔ x = b) → l = [b].
Proof.
  intros Hnd H. destruct l as [|x l].
  - assert (b ∈ []) as Hb by (by apply H). by apply elem_of_nil in Hb.
  - assert (x = b) as -> by (apply H; left).
    destruct l as [|y l]; [done|].
    assert (y = b) as -> by (apply H; right; left).
    apply NoDup_cons in Hnd as [Hnd _]. exfalso. apply Hnd. left.
Qed.

Lemma empty_board_territory st colour order old :
  wf_cells st →
  0 < (_size (goban st)).1 → 0 < (_size (goban st)).2 →
  (∀ q, check_coordinates (goban st) q = true → get_state st q = FREE) →
  (∀ p, p ∈ order ↔ p ∈ get_free_points st) →
  _score st !! colour = Some old →
  take_territory_in order colour st
  = (Return tt, with_score st
       (<[colour:=old + (_size (goban st)).1 * (_size (goban st)).2]> (_score st))).
Proof.
  intros Hwf HW HH Hfree Horder Hold.
  destruct (take_territory_in_spec st colour order old Hwf Horder Hold)
    as (Rs & Hnd & HRs & ->).
  set (B := list_to_set (board_points (goban st)) : gset coord).
  assert (H0 : check_coordinates (goban st) (0, 0) = true).
  { unfold check_coordinates. simpl. repeat (apply andb_true_intro; split); lia. }
  assert (Hconn : ∀ p q, check_coordinates (goban st) p = true →
                         check_coordinates (goban st) q = true →
                         rtc (link st FREE) p q).
  { intros p q Hp Hq. etrans; [by apply all_free_connected|].
    apply link_sym; auto. by apply all_free_connected. }
  assert (Hreg : ∀ R, empty_region st R → R = B).
  { intros R (p & Hp & _ & HR). apply set_eq. intros q. rewrite HR.
    unfold B. rewrite elem_of_list_to_set, elem_of_board_points. split.
    - by apply link_in_bounds.
    - by apply Hconn. }
  assert (Rs = [B]) as ->.
  { apply NoDup_singleton_eq; [done|]. intros R. rewrite HRs. split.
    - intros [HR _]. by apply Hreg.
    - intros ->. split.
      + exists (0, 0). split; [done|]. split; [by apply Hfree|].
        intros q. unfold B. rewrite elem_of_list_to_set, elem_of_board_points. split.
        * by apply Hconn.
        * by apply link_in_bounds.
      + intros b (q & _ & Ha & Hne). exfalso. apply Hne, Hfree.
        by eapply adjacent_in_bounds. }
  do 3 f_equal. simpl. unfold B.
  rewrite size_list_to_set by apply board_points_NoDup.
  rewrite board_points_length. lia.
Qed.

Lemma init_all_free g q : get_state (GameState_init g) q = FREE.
Proof.
  unfold get_state, GameState_init. simpl. rewrite lookup_clear.
  destruct (decide _); [done|]. by rewrite lookup_empty.
Qed.

(** ** Captures *)

Lemma catch_group_spec s r :
  ∃ (G : gset coord) s2,
    catch_group r s = (Return (Z.of_nat (size G)), s2) ∧
    (∀ q, q ∈ G ↔ in_group s r q) ∧
    removed G s s2 ∧
    _turn s2 = _turn s ∧ _score s2 = _score s ∧
    (∀ q, is_Some (_state s2 !! q) ↔ is_Some (_state s !! q) ∨ q ∈ G).
Proof.
  destruct (get_group_spec s r) as (G & B & HG & Hg & _).
  exists G. eexists. unfold catch_group, bind, query, ret. rewrite HG. simpl.
  split; [done|]. split; [done|]. split; [|split; [done|split; [done|]]].
  - split; [done|]. intros q. unfold get_state. simpl. rewrite lookup_clear.
    destruct (decide (q ∈ elements G)) as [H|H]; apply elem_of_elements in H || rewrite elem_of_elements in H.
    + by rewrite decide_True.
    + by rewrite decide_False.
  - intros q. simpl. rewrite lookup_clear.
    destruct (decide (q ∈ elements G)) as [H|H]; rewrite elem_of_elements in H.
    + split; [by right|eauto].
    + tauto.
Qed.

Lemma take_stones_loop_cons r ps taken s :
  take_stones_loop (r :: ps) taken s
  = if bool_decide (get_state s r ≠ _turn s) then
      match count_liberties s r with
      | Some n =>
          if n =? 0 then
            match catch_group r s with
            | (Return score, s2) =>
                match increase_score score s2 with
                | (Return _, s3) => take_stones_loop ps (taken + score) s3
                | (Raise e, s3) => (Raise e, s3)
                | (OutOfFuel, s3) => (OutOfFuel, s3)
                end
            | (Raise e, s2) => (Raise e, s2)
            | (OutOfFuel, s2) => (OutOfFuel, s2)
            end
          else take_stones_loop ps taken s
      | None => (OutOfFuel, s)
      end
    else take_stones_loop ps taken s.
Proof.
  cbn [take_stones_loop]. unfold bind at 1, get_self.
  destruct (bool_decide _); [|done].
  unfold bind at 1, query. destruct (count_liberties s r) as [n|]; [|done].
  destruct (n =? 0); [|done].
  unfold bind at 1. destruct (catch_group r s) as [[score| |] s2]; done.
Qed.

Lemma removed_board_eq G s s2 s3 :
  removed G s s2 → board_eq s2 s3 → removed G s s3.
Proof.
  intros [Hg Hc] [Hg' Hc']. split; [congruence|]. intros q. by rewrite Hc', Hc.
Qed.

Lemma take_stones_loop_spec ps :
  ∀ s taken old,
    _score s !! _turn s = Some old →
    wf_cells s →
    (∀ r, r ∈ ps → check_coordinates (goban s) r = true) →
    ∃ n s',
      take_stones_loop ps taken s = (Return (taken + n), s') ∧
      sweep (_turn s) s ps s' n ∧
      _turn s' = _turn s ∧
      _score s' = <[_turn s:=old + n]> (_score s) ∧
      goban s' = goban s ∧
      wf_cells s'.
Proof.
  induction ps as [|r ps IH]; intros s taken old Hold Hwf Hps.
  { exists 0, s. simpl. unfold ret. rewrite !Z.add_0_r.
    split; [done|]. split; [by constructor|]. split; [done|].
    split; [by rewrite insert_id|]. done. }
  assert (Hr : check_coordinates (goban s) r = true) by (apply Hps; left).
  assert (Hps' : ∀ r', r' ∈ ps → check_coordinates (goban s) r' = true)
    by (intros r' Hr'; apply Hps; by right).
  rewrite take_stones_loop_cons.
  assert (Hskip : get_state s r = _turn s ∨ get_state s r = FREE ∨ (∃ b, is_liberty s r b) →
                  ∃ n s', take_stones_loop ps taken s = (Return (taken + n), s') ∧
                          sweep (_turn s) s (r :: ps) s' n ∧ _turn s' = _turn s ∧
                          _score s' = <[_turn s:=old + n]> (_score s) ∧
                          goban s' = goban s ∧ wf_cells s').
  { intros Hwhy. destruct (IH s taken old Hold Hwf Hps') as (n & s' & Hrun & Hsw & ?).
    exists n, s'. split; [done|]. split; [by apply sweep_skip|done]. }
  destruct (decide (get_state s r = _turn s)) as [Heq|Hne].
  { rewrite bool_decide_eq_false_2 by tauto. apply Hskip. by left. }
  rewrite bool_decide_eq_true_2 by done.
  destruct (decide (get_state s r = FREE)) as [Hfree|Hnfree].
  { rewrite count_liberties_free by done. simpl. apply Hskip. right. by left. }
  destruct (count_liberties_spec s r Hnfree) as (k & -> & [[-> Hno]|[Hpos Hlib]]).
  2:{ replace (k =? 0) with false by lia. apply Hskip. right. by right. }
  simpl.
  destruct (catch_group_spec s r) as (G & s2 & -> & HG & Hrem & Ht2 & Hs2 & Hdom).
  unfold increase_score. rewrite Ht2, Hs2, Hold.
  set (s3 := with_score s2 _).
  assert (Hwf3 : wf_cells s3).
  { pose proof (proj1 (wf_cells_iff s) Hwf) as Hwf0.
    apply wf_cells_iff. intros q. unfold s3. simpl. rewrite Hdom.
    destruct Hrem as [Hg _]. rewrite Hg.
    split; [|intros ?; left; by apply Hwf0].
    intros [?|Hq]; [by apply Hwf0|]. apply HG in Hq. by eapply link_in_bounds. }
  destruct (IH s3 (taken + Z.of_nat (size G)) (old + Z.of_nat (size G)))
    as (n & s' & Hrun & Hsw & Ht' & Hsc' & Hg' & Hwf').
  - unfold s3. simpl. rewrite Ht2. apply lookup_insert_eq.
  - done.
  - unfold s3. simpl. destruct Hrem as [-> _]. done.
  - exists (Z.of_nat (size G) + n), s'. rewrite Hrun.
    split; [f_equal; f_equal; lia|].
    assert (Hturn3 : _turn s3 = _turn s) by done.
    rewrite Hturn3 in *.
    split.
    { apply (sweep_take _ s r ps s3 s' n G); done. }
    split; [done|]. split.
    { rewrite Hsc'. unfold s3. simpl. rewrite insert_insert_eq. f_equal. lia. }
    split; [|done]. rewrite Hg'. unfold s3. simpl. by destruct Hrem.
Qed.

Lemma sweep_captured turn s ps s' n :
  sweep turn s ps s' n →
  ∃ C : gset coord,
    n = Z.of_nat (size C) ∧
    (∀ q, q ∈ C → get_state s q ≠ FREE ∧ get_state s q ≠ turn) ∧
    goban s' = goban s ∧
    ∀ q, get_state s' q = if decide (q ∈ C) then FREE else get_state s q.
Proof.
  induction 1 as [s s' [Hg Hc]|s r rs s' n Hwhy Hsw IH|s r rs s2 s' n G Ht Hf Hno HG [Hg2 Hc2] Hsw IH].
  - exists ∅. rewrite size_empty. split; [done|]. split; [set_solver|]. split; [done|].
    intros q. rewrite decide_False by set_solver. done.
  - done.
  - destruct IH as (C & -> & HC & Hg & Hc).
    assert (Hdisj : G ## C).
    { intros q Hq1 Hq2. apply HC in Hq2 as [Hq2 _]. apply Hq2.
      rewrite Hc2, decide_True; done. }
    exists (G ∪ C). rewrite size_union by done. split; [lia|]. split; [|split; [congruence|]].
    + intros q [Hq|Hq]%elem_of_union.
      * apply HG in Hq. erewrite (link_colour s _ r q); done.
      * pose proof (HC q Hq) as Hq'. rewrite Hc2 in Hq'.
        destruct (decide (q ∈ G)); [|done]. by destruct Hq'.
    + intros q. rewrite Hc, Hc2.
      destruct (decide (q ∈ C)), (decide (q ∈ G)).
      * rewrite decide_True; [done|set_solver].
      * rewrite decide_True; [done|set_solver].
      * rewrite decide_True; [done|set_solver].
      * rewrite decide_False; [done|set_solver].
Qed.

Lemma sweep_keeps_group turn s ps s' n p q :
  sweep turn s ps s' n → get_state s p = turn →
  in_group s p q → in_group s' p q ∧ get_state s' p = turn.
Proof.
  intros (C & _ & HC & Hg & Hc)%sweep_captured Hp Hq.
  assert (Hkeep : ∀ x, get_state s x = turn → get_state s' x = turn).
  { intros x Hx. rewrite Hc. destruct (decide (x ∈ C)) as [Hin|]; [|done].
    apply HC in Hin as [_ Hin]. done. }
  split; [|by apply Hkeep].
  unfold in_group in *. rewrite (Hkeep p Hp). rewrite Hp in Hq.
  induction Hq as [|x y z [Ha Hy] _ IH]; [done|].
  eapply rtc_l; [|apply IH; by rewrite Hy].
  split; [|by apply Hkeep]. unfold adjacent in *. by rewrite Hg.
Qed.

Lemma sweep_keeps_liberty turn s ps s' n p b :
  sweep turn s ps s' n → get_state s p = turn →
  is_liberty s p b → is_liberty s' p b.
Proof.
  intros Hsw Hp (q & Hq & Ha & Hb).
  destruct (sweep_keeps_group turn s ps s' n p q Hsw Hp Hq) as [Hq' _].
  pose proof Hsw as (C & _ & HC & Hg & Hc)%sweep_captured.
  exists q. split; [done|]. split.
  - unfold adjacent in *. by rewrite Hg.
  - rewrite Hc. destruct (decide (b ∈ C)); done.
Qed.

(** ** Moves *)

Lemma dict_turns_lookup c :
  c ∈ TURNS → ∃ next, dict_turns !! c = Some next ∧ next ∈ TURNS.
Proof.
  unfold TURNS. intros H. repeat (apply elem_of_cons in H as [->|H]).
  - exists GREY. split; [done|]. set_solver.
  - exists WHITE. split; [done|]. set_solver.
  - exists BLACK. split; [done|]. set_solver.
  - by apply elem_of_nil in H.
Qed.

Lemma turn_not_free c : c ∈ TURNS → c ≠ FREE.
Proof. unfold TURNS. intros H ->. set_solver. Qed.

Lemma placed_get st p q :
  get_state (placed st p) q = if decide (q = p) then _turn st else get_state st q.
Proof.
  unfold placed, get_state. simpl. destruct (decide (q = p)) as [->|Hne].
  - by rewrite lookup_insert_eq.
  - by rewrite lookup_insert_ne.
Qed.

Lemma placed_wf_cells st p :
  wf_cells st → check_coordinates (goban st) p = true → wf_cells (placed st p).
Proof.
  intros Hwf' Hp. pose proof (proj1 (wf_cells_iff _) Hwf') as Hwf. apply wf_cells_iff. intros q.
  unfold placed. simpl. destruct (decide (q = p)) as [->|Hne].
  - rewrite lookup_insert_eq. split; eauto.
  - rewrite lookup_insert_ne by done. apply Hwf.
Qed.

Lemma unplaced st p :
  _state st !! p = Some FREE →
  with_state (placed st p) (<[p:=FREE]> (_state (placed st p))) = st.
Proof.
  intros H. destruct st as [g m t sc]. unfold placed, with_state. simpl in *.
  f_equal. rewrite insert_insert_eq. by apply insert_id.
Qed.

Lemma wf_lookup_free st p :
  wf_cells st → check_coordinates (goban st) p = true → get_state st p = FREE →
  _state st !! p = Some FREE.
Proof.
  intros Hwf' Hp Hf. pose proof (proj1 (wf_cells_iff _) Hwf') as Hwf. apply Hwf in Hp as [v Hv]. unfold get_state in Hf.
  rewrite Hv in Hf |- *. simpl in Hf. by subst.
Qed.

Lemma make_move_out_of_bounds st p :
  check_coordinates (goban st) p = false →
  make_move p st = (Raise (ValueError "Wrong coordinates of point"), st).
Proof. intros H. unfold make_move, bind, get_self. by rewrite H. Qed.

Lemma make_move_occupied st p :
  check_coordinates (goban st) p = true → get_state st p ≠ FREE →
  make_move p st = (Raise (ValueError "Player should move to a free point"), st).
Proof.
  intros H Hf. unfold make_move, bind, get_self. rewrite H. simpl.
  by rewrite bool_decide_eq_false_2.
Qed.

Lemma make_move_free st p :
  check_coordinates (goban st) p = true → get_state st p = FREE →
  make_move p st
  = match count_liberties (placed st p) p with
    | None => (OutOfFuel, placed st p)
    | Some n =>
        if n =? 0 then
          (Raise (ValueError "This move leads to suicide"),
           with_state (placed st p) (<[p:=FREE]> (_state (placed st p))))
        else
          match take_stones p (placed st p) with
          | (Return taken_stones, s2) =>
              match next_turn s2 with
              | (Return _, s3) => (Return taken_stones, s3)
              | (Raise e, s3) => (Raise e, s3)
              | (OutOfFuel, s3) => (OutOfFuel, s3)
              end
          | (Raise e, s2) => (Raise e, s2)
          | (OutOfFuel, s2) => (OutOfFuel, s2)
          end
    end.
Proof.
  intros H Hf. unfold make_move, bind at 1, get_self. rewrite H. simpl.
  rewrite bool_decide_eq_true_2 by done.
  unfold bind at 1, set_state. fold (placed st p).
  unfold bind at 1, check_for_suicide, bind at 1, query.
  destruct (count_liberties (placed st p) p) as [n|]; [|done].
  destruct (n =? 0); [done|]. unfold ret at 1.
  unfold bind at 1. destruct (take_stones p (placed st p)) as [[k| |] s2]; done.
Qed.

Lemma take_stones_placed st p old :
  wf_cells st → check_coordinates (goban st) p = true →
  _score st !! _turn st = Some old →
  ∃ n s2,
    take_stones p (placed st p) = (Return n, s2) ∧
    sweep (_turn st) (placed st p) (neighbour_points (goban st) p) s2 n ∧
    _turn s2 = _turn st ∧
    _score s2 = <[_turn st:=old + n]> (_score st) ∧
    goban s2 = goban st ∧
    wf_cells s2.
Proof.
  intros Hwf Hp Hold. unfold take_stones, bind, get_self.
  destruct (take_stones_loop_spec (neighbour_points (goban st) p) (placed st p) 0 old)
    as (n & s2 & Hrun & ?); try done.
  - by apply placed_wf_cells.
  - intros r Hr. by apply adjacent_in_bounds in Hr.
  - exists n, s2. change (goban (placed st p)) with (goban st). rewrite Hrun.
    split; [by rewrite Z.add_0_l|done].
Qed.

Lemma make_move_capture_first_free st p :
  check_coordinates (goban st) p = true → get_state st p = FREE →
  make_move_capture_first p st
  = match take_stones p (placed st p) with
    | (Return taken_stones, s2) =>
        match count_liberties s2 p with
        | None => (OutOfFuel, s2)
        | Some n =>
            if n =? 0 then
              (Raise (ValueError "This move leads to suicide"),
               with_state s2 (<[p:=FREE]> (_state s2)))
            else
              match next_turn s2 with
              | (Return _, s3) => (Return taken_stones, s3)
              | (Raise e, s3) => (Raise e, s3)
              | (OutOfFuel, s3) => (OutOfFuel, s3)
              end
        end
    | (Raise e, s2) => (Raise e, s2)
    | (OutOfFuel, s2) => (OutOfFuel, s2)
    end.
Proof.
  intros H Hf. unfold make_move_capture_first, bind at 1, get_self. rewrite H. simpl.
  rewrite bool_decide_eq_true_2 by done.
  unfold bind at 1, set_state. fold (placed st p).
  unfold bind at 1. destruct (take_stones p (placed st p)) as [[k| |] s2]; try done.
  unfold bind at 1, check_for_suicide, bind at 1, query.
  destruct (count_liberties s2 p) as [n|]; [|done].
  destruct (n =? 0); done.
Qed.

Lemma make_move_suicide st p :
  wf_state st → check_coordinates (goban st) p = true → get_state st p = FREE →
  (∀ b, ¬ is_liberty (placed st p) p b) →
  make_move p st = (Raise (ValueError "This move leads to suicide"), st).
Proof.
  intros (Hwf & Ht & Hs) Hp Hf Hno. rewrite make_move_free by done.
  destruct (count_liberties_spec (placed st p) p) as (n & -> & [[-> _]|[_ [b Hb]]]).
  - rewrite placed_get, decide_True by done. by apply turn_not_free.
  - simpl. by rewrite unplaced by by apply wf_lookup_free.
  - by apply Hno in Hb.
Qed.

Lemma make_move_success st p :
  wf_state st → check_coordinates (goban st) p = true → get_state st p = FREE →
  (∃ b, is_liberty (placed st p) p b) →
  ∃ n s2 next old,
    dict_turns !! _turn st = Some next ∧
    _score st !! _turn st = Some old ∧
    take_stones p (placed st p) = (Return n, s2) ∧
    make_move p st = (Return n, with_turn s2 next) ∧
    sweep (_turn st) (placed st p) (neighbour_points (goban st) p) s2 n ∧
    _turn s2 = _turn st ∧
    _score s2 = <[_turn st:=old + n]> (_score st) ∧
    goban s2 = goban st ∧
    wf_cells s2.
Proof.
  intros (Hwf & Ht & Hs) Hp Hf [b Hb]. rewrite make_move_free by done.
  destruct (dict_turns_lookup _ Ht) as (next & Hnext & _).
  destruct (proj1 (Forall_forall _ _) Hs _ Ht) as [old Hold].
  destruct (take_stones_placed st p old Hwf Hp Hold) as (n & s2 & Hts & Hsw & Ht2 & Hs2 & Hg2 & Hwf2).
  exists n, s2, next, old.
  destruct (count_liberties_spec (placed st p) p) as (k & -> & [[-> Hno]|[Hpos _]]).
  - rewrite placed_get, decide_True by done. by apply turn_not_free.
  - by apply Hno in Hb.
  - replace (k =? 0) with false by lia. rewrite Hts.
    unfold next_turn. rewrite Ht2, Hnext. done.
Qed.

Lemma make_move_cases st p :
  wf_state st →
  (∃ n st', make_move p st = (Return n, st')) ∨
  (∃ msg, make_move p st = (Raise (ValueError msg), st)).
Proof.
  intros Hwf.
  destruct (check_coordinates (goban st) p) eqn:Hp.
  2:{ right. eexists. by apply make_move_out_of_bounds. }
  destruct (decide (get_state st p = FREE)) as [Hf|Hf].
  2:{ right. eexists. by apply make_move_occupied. }
  destruct (liberty_dec (placed st p) p) as [Hno|Hlib].
  - rewrite placed_get, decide_True by done. apply turn_not_free, Hwf.
  - right. eexists. by apply make_move_suicide.
  - left. destruct (make_move_success st p Hwf Hp Hf Hlib)
      as (n & s2 & next & old & _ & _ & _ & H & _). eauto.
Qed.

(** ** Scores *)

Lemma score_le_refl c st : score_le c st st.
Proof. intros v Hv. exists v. split; [done|lia]. Qed.

Lemma score_le_trans c st1 st2 st3 :
  score_le c st1 st2 → score_le c st2 st3 → score_le c st1 st3.
Proof.
  intros H12 H23 v Hv. destruct (H12 v Hv) as (v2 & Hv2 & ?).
  destruct (H23 v2 Hv2) as (v3 & Hv3 & ?). exists v3. split; [done|lia].
Qed.

Lemma score_le_same c st st' : _score st' = _score st → score_le c st st'.
Proof. intros H v Hv. exists v. rewrite H. split; [done|lia]. Qed.

Lemma grows_ret {A} (a : A) : grows (ret a).
Proof. intros st c. apply score_le_refl. Qed.

Lemma grows_raise {A} e : grows (raise e : M A).
Proof. intros st c. apply score_le_refl. Qed.

Lemma grows_query {A} (q : GameState → option A) : grows (query q).
Proof. intros st c. unfold query. destruct (q st); apply score_le_refl. Qed.

Lemma grows_bind {A B} (m : M A) (k : A → M B) (Q : A → Prop) :
  grows m →
  (∀ st a, (m st).1 = Return a → Q a) →
  (∀ a, Q a → grows (k a)) →
  grows (bind m k).
Proof.
  intros Hm HQ Hk st c. unfold bind. pose proof (Hm st c) as H1. pose proof (HQ st) as H2.
  destruct (m st) as [[a| |] st1]; simpl in *; try done.
  eapply score_le_trans; [exact H1|]. apply Hk. by apply H2.
Qed.

Lemma grows_bind' {A B} (m : M A) (k : A → M B) :
  grows m → (∀ a, grows (k a)) → grows (bind m k).
Proof. intros Hm Hk. apply (grows_bind m k (λ _, True)); auto. Qed.

Lemma grows_set_state p v : grows (set_state p v).
Proof. intros st c. by apply score_le_same. Qed.

Lemma grows_next_turn : grows next_turn.
Proof.
  intros st c. unfold next_turn. destruct (dict_turns !! _turn st); by apply score_le_same.
Qed.

Lemma grows_increase_score score : 0 ≤ score → grows (increase_score score).
Proof.
  intros Hs st c. unfold increase_score.
  destruct (_score st !! _turn st) as [old|] eqn:Hold; [|apply score_le_refl].
  intros v Hv. simpl. destruct (decide (c = _turn st)) as [->|Hne].
  - rewrite lookup_insert_eq. exists (old + score). split; [done|].
    rewrite Hold in Hv. injection Hv as ->. lia.
  - rewrite lookup_insert_ne by done. exists v. split; [done|lia].
Qed.

Lemma grows_catch_group p : grows (catch_group p).
Proof.
  unfold catch_group. apply grows_bind'; [apply grows_query|]. intros gb.
  apply grows_bind'; [|intros; apply grows_ret].
  intros st c. by apply score_le_same.
Qed.

Lemma catch_group_nonneg p st a : (catch_group p st).1 = Return a → 0 ≤ a.
Proof.
  unfold catch_group, bind, query, ret. destruct (get_group st p); simpl; [|done].
  intros [= <-]. lia.
Qed.

Lemma grows_take_stones_loop ps taken : grows (take_stones_loop ps taken).
Proof.
  revert taken. induction ps as [|p ps IH]; intros taken; cbn [take_stones_loop].
  { apply grows_ret. }
  apply grows_bind'; [intros st c; apply score_le_refl|]. intros st.
  destruct (bool_decide _); [|apply IH].
  apply grows_bind'; [apply grows_query|]. intros n.
  destruct (n =? 0); [|apply IH].
  apply (grows_bind _ _ (λ a, 0 ≤ a)); [apply grows_catch_group|apply catch_group_nonneg|].
  intros score Hscore. apply grows_bind'; [by apply grows_increase_score|].
  intros _. apply IH.
Qed.

Lemma grows_make_move p : grows (make_move p).
Proof.
  unfold make_move. apply grows_bind'; [intros st c; apply score_le_refl|]. intros st.
  destruct (negb _); [apply grows_raise|].
  destruct (bool_decide _); [|apply grows_raise].
  apply grows_bind'; [apply grows_set_state|]. intros _.
  apply grows_bind'.
  { unfold check_for_suicide. apply grows_bind'; [apply grows_query|]. intros n.
    destruct (n =? 0); [|apply grows_ret].
    apply grows_bind'; [apply grows_set_state|]. intros _. apply grows_raise. }
  intros _. apply grows_bind'.
  { unfold take_stones. apply grows_bind'; [intros s c; apply score_le_refl|].
    intros s. apply grows_take_stones_loop. }
  intros n. apply grows_bind'; [apply grows_next_turn|]. intros _. apply grows_ret.
Qed.

Lemma take_territory_loop_nonneg st colour pts :
  ∀ visited score total,
    take_territory_loop st colour pts visited score = Some total → score ≤ total.
Proof.
  induction pts as [|p pts IH]; intros visited score total; simpl.
  { intros [= ->]. lia. }
  destruct (bool_decide _); [|apply IH].
  destruct (get_group st p) as [[group boarder]|]; [|done].
  intros H%IH. destruct (forallb _ _); lia.
Qed.

Lemma grows_take_territory_in order colour : grows (take_territory_in order colour).
Proof.
  unfold take_territory_in.
  apply (grows_bind _ _ (λ a, 0 ≤ a)); [apply grows_query| |].
  - intros st a. unfold query.
    destruct (take_territory_loop st colour order [] 0) as [t|] eqn:E; simpl; [|done].
    intros [= <-]. by apply take_territory_loop_nonneg in E.
  - intros score Hscore st c.
    destruct (_score st !! colour) as [old|] eqn:Hold; [|apply score_le_refl].
    intros v Hv. simpl. destruct (decide (c = colour)) as [->|Hne].
    + rewrite lookup_insert_eq. exists (old + score). split; [done|].
      rewrite Hold in Hv. injection Hv as ->. lia.
    + rewrite lookup_insert_ne by done. exists v. split; [done|lia].
Qed.

Lemma step_score_le c st st' : step st st' → score_le c st st'.
Proof.
  intros [s p|s|s colour order _|s p].
  - apply grows_make_move.
  - apply grows_next_turn.
  - apply grows_take_territory_in.
  - apply grows_catch_group.
Qed.

(** ** Text serialisation *)

Lemma append_nil_l (t : string) : "" +:+ t = t.
Proof. reflexivity. Qed.

Lemma append_cons (a : ascii) (s t : string) : String a s +:+ t = String a (s +:+ t).
Proof. reflexivity. Qed.

Lemma append_empty_r (s : string) : s +:+ "" = s.
Proof.
  induction s as [|a s IH]; [done|]. by rewrite append_cons, IH.
Qed.

Lemma append_snoc (s t : string) (a : ascii) :
  (s +:+ String a "") +:+ t = s +:+ String a t.
Proof.
  induction s as [|b s IH]; [done|]. by rewrite !append_cons, IH.
Qed.

Lemma append_assoc (r s t : string) : (r +:+ s) +:+ t = r +:+ (s +:+ t).
Proof.
  induction r as [|b r IH]; [done|]. by rewrite !append_cons, IH.
Qed.

Lemma row_chars_append st y xs tail :
  row_chars st y xs "" +:+ tail = row_chars st y xs tail.
Proof.
  induction xs as [|x xs IH]; [done|]. cbn [row_chars foldr].
  rewrite append_cons. f_equal. exact IH.
Qed.

Lemma row_fold st y xs result :
  foldl (λ (result : string) (x : Z),
           result +:+ String (point_states_char (get_state st (x, y))) "") result xs
  = result +:+ row_chars st y xs "".
Proof.
  revert result. induction xs as [|x xs IH]; intros result; cbn [foldl row_chars foldr].
  - by rewrite append_empty_r.
  - rewrite IH. apply append_snoc.
Qed.

Lemma convert_state_to_string_rows st :
  convert_state_to_string st
  = foldr (λ y s, row_chars st y (seqZ 0 (_size (goban st)).1) (String ";" s)) ""
          (seqZ 0 (_size (goban st)).2).
Proof.
  unfold convert_state_to_string.
  generalize (seqZ 0 (_size (goban st)).1) (seqZ 0 (_size (goban st)).2). intros xs ys.
  assert (H : ∀ result,
    foldl (λ (result : string) (y : Z),
             foldl (λ (result : string) (x : Z),
                      result +:+ String (point_states_char (get_state st (x, y))) "")
                   result xs +:+ ";") result ys
    = result +:+ foldr (λ y s, row_chars st y xs (String ";" s)) "" ys).
  { induction ys as [|y ys IH]; intros result; simpl.
    - by rewrite append_empty_r.
    - rewrite IH, row_fold. rewrite <- (row_chars_append st y xs (String ";" _)).
      rewrite !append_assoc. done. }
  apply (H ""%string).
Qed.

Lemma prefix_empty (s : string) : String.prefix "" s = true.
Proof. by destruct s. Qed.

Lemma split_row st y xs cur rest :
  split_from ";" 0 cur (row_chars st y xs (String ";" rest))
  = (cur +:+ row_chars st y xs "") :: split_from ";" 0 "" rest.
Proof.
  revert cur. induction xs as [|x xs IH]; intros cur.
  - simpl. by rewrite prefix_empty, append_empty_r.
  - cbn [row_chars foldr]. fold (row_chars st y xs (String ";" rest)).
    fold (row_chars st y xs "").
    rewrite <- append_snoc. rewrite <- IH.
    destruct (get_state st (x, y)); reflexivity.
Qed.

Lemma split_rows st xs ys :
  split_from ";" 0 "" (foldr (λ y s, row_chars st y xs (String ";" s)) "" ys)
  = map (λ y, row_chars st y xs "") ys ++ [""%string].
Proof.
  induction ys as [|y ys IH]; simpl; [done|].
  by rewrite split_row, IH.
Qed.

Lemma row_chars_length st y xs : String.length (row_chars st y xs "") = length xs.
Proof. induction xs as [|x xs IH]; simpl; [done|f_equal; exact IH]. Qed.

Lemma row_chars_get st y xs n :
  String.get n (row_chars st y xs "")
  = (λ x, point_states_char (get_state st (x, y))) <$> xs !! n.
Proof.
  revert n. induction xs as [|x xs IH]; intros [|n]; simpl; try done; apply IH.
Qed.

Lemma point_states_colour_char c : point_states_colour (point_states_char c) = Some c.
Proof. by destruct c. Qed.

Lemma filter_rows st xs ys :
  xs ≠ [] →
  List.filter (λ r, negb (String.eqb r "")) (map (λ y, row_chars st y xs "") ys ++ [""%string])
  = map (λ y, row_chars st y xs "") ys.
Proof.
  intros Hxs. induction ys as [|y ys IH]; simpl; [done|].
  rewrite IH. destruct xs as [|x xs]; [done|]. done.
Qed.

Lemma load_cells st rows (l : list coord) :
  (∀ xy, xy ∈ l →
         ∃ row, rows !! Z.to_nat xy.2 = Some row ∧
                String.get (Z.to_nat xy.1) row
                = Some (point_states_char (get_state st xy))) →
  ∀ s0, ∃ s, foldl (load_cell rows) (Return s0) l = Return s ∧
             goban s = goban s0 ∧
             ∀ q, get_state s q = if decide (q ∈ l) then get_state st q else get_state s0 q.
Proof.
  induction l as [|xy l IH] using rev_ind; intros Hl s0.
  { exists s0. split; [done|]. split; [done|]. intros q.
    rewrite decide_False; [done|]. by intros ?%elem_of_nil. }
  destruct (IH (λ q Hq, Hl q (proj2 (elem_of_app _ _ _) (or_introl Hq))) s0)
    as (s & Hs & Hg & Hc).
  destruct (Hl xy) as (row & Hrow & Hget); [apply elem_of_app; right; by left|].
  rewrite foldl_snoc, Hs. unfold load_cell.
  rewrite Hrow, Hget, point_states_colour_char.
  eexists. split; [done|]. split; [done|]. intros q.
  unfold get_state at 1. simpl. destruct (decide (q = xy)) as [->|Hne].
  - rewrite lookup_insert_eq. rewrite decide_True; [done|].
    apply elem_of_app. right. by left.
  - rewrite lookup_insert_ne by done. fold (get_state s q). rewrite Hc.
    destruct (decide (q ∈ l)) as [Hin|Hnin].
    + rewrite decide_True; [done|]. apply elem_of_app. by left.
    + rewrite decide_False; [done|].
      intros [?|Hq%list_elem_of_singleton]%elem_of_app; done.
Qed.

(** ** The filter of the fallback tier *)

Lemma tuple_of_ints_not_in_itself (zs : list Z) :
  py_in (PyTuple (map PyInt zs)) (PyTuple (map PyInt zs)) = Return false.
Proof.
  unfold py_in. f_equal. generalize (map PyInt zs) at 1. intros items.
  induction zs as [|z zs IH]; simpl; [done|exact IH].
Qed.

Lemma py_eq_point p q : py_eq (py_point q) (py_point p) = bool_decide (q = p).
Proof.
  destruct p as [x y], q as [x' y']. simpl. rewrite andb_true_r.
  destruct (decide ((x', y') = (x, y))) as [[= -> ->]|Hne].
  - rewrite bool_decide_eq_true_2 by done. by rewrite !Z.eqb_refl.
  - rewrite bool_decide_eq_false_2 by done.
    destruct (x' =? x) eqn:E1; [|done]. destruct (y' =? y) eqn:E2; [|done].
    apply Z.eqb_eq in E1, E2. by subst.
Qed.

Lemma py_in_points p (l : list coord) :
  py_in (py_point p) (PyList (map py_point l)) = Return (bool_decide (p ∈ l)).
Proof.
  unfold py_in. f_equal. induction l as [|q l IH]; cbn [map existsb].
  - rewrite bool_decide_eq_false_2; [done|]. by intros ?%elem_of_nil.
  - rewrite IH, py_eq_point.
    destruct (decide (q = p)) as [->|Hne].
    + rewrite (bool_decide_eq_true_2 (p = p)) by done.
      simpl. symmetry. apply bool_decide_eq_true_2. by left.
    + rewrite (bool_decide_eq_false_2 (q = p)) by done. simpl.
      apply bool_decide_ext. rewrite elem_of_cons. naive_solver.
Qed.

Lemma fallback_filter_not_forbidden point forbidden_points :
  fallback_filter point forbidden_points
  = Return (bool_decide (point ∉ forbidden_points)).
Proof.
  unfold fallback_filter, py_not_in_not_in, py_not_in at 1.
  change (py_point point) with (PyTuple (map PyInt [point.1; point.2])) at 1 2.
  rewrite tuple_of_ints_not_in_itself. simpl negb. cbv iota.
  unfold py_not_in. change (PyTuple (map PyInt [point.1; point.2])) with (py_point point).
  rewrite py_in_points. f_equal.
  destruct (decide (point ∈ forbidden_points)).
  - rewrite bool_decide_eq_true_2, bool_decide_eq_false_2; tauto.
  - rewrite bool_decide_eq_false_2, bool_decide_eq_true_2; tauto.
Qed.

(** * Main results *)

(** C1, as stated, fails: with three colours, removing the first dead
    neighbouring group can give a liberty to the next one.  Black plays
    (1,0); the grey group and the white stone both have no liberty after the
    placement; the grey group is examined first and removed, which frees
    (2,1) next to the white stone, and the white stone stays. *)
Lemma make_move_leaves_a_dead_group :
  let st := board_two_dead_groups in
  let p := (1, 0) in
  wf_state st ∧
  check_coordinates (goban st) p = true ∧ get_state st p = FREE ∧
  (∃ b, is_liberty (placed st p) p b) ∧
  (1, 1) ∈ neighbour_points (goban st) p ∧
  get_state (placed st p) (1, 1) = WHITE ∧
  count_liberties (placed st p) (1, 1) = Some 0 ∧
  (∀ b, ¬ is_liberty (placed st p) (1, 1) b) ∧
  ∃ st', make_move p st = (Return 2, st') ∧ get_state st' (1, 1) = WHITE.
Proof.
  cbv zeta. split; [by_computation|]. split; [done|]. split; [done|].
  split. { apply (liberty_from_count _ _ 1); [by vm_compute|lia|by vm_compute]. }
  split; [by_computation|]. split; [done|]. split; [by vm_compute|].
  split. { apply no_liberty_from_count; by vm_compute. }
  eexists. split; by vm_compute.
Qed.

(** C1 (amended): a legal move places the stone, then examines the
    neighbours in the order +x, +y, -x, -y and removes each neighbouring group
    of another colour that has no liberty at the moment it is examined (after
    the placement and after the removals already made); the number of removed
    stones is returned and added to the mover's score, and the turn advances. *)
Theorem make_move_captures_in_order st p :
  wf_state st →
  check_coordinates (goban st) p = true →
  get_state st p = FREE →
  (∃ b, is_liberty (placed st p) p b) →
  ∃ n st' next old (C : gset coord),
    make_move p st = (Return n, st') ∧
    sweep (_turn st) (placed st p) (neighbour_points (goban st) p) st' n ∧
    get_state st' p = _turn st ∧
    n = Z.of_nat (size C) ∧
    (∀ q, q ∈ C → q ≠ p ∧ get_state st q ≠ FREE ∧ get_state st q ≠ _turn st) ∧
    (∀ q, get_state st' q
          = if decide (q ∈ C) then FREE else get_state (placed st p) q) ∧
    _score st !! _turn st = Some old ∧
    _score st' = <[_turn st:=old + n]> (_score st) ∧
    dict_turns !! _turn st = Some next ∧
    _turn st' = next ∧
    goban st' = goban st.
Proof.
  intros Hwf Hp Hf Hlib.
  destruct (make_move_success st p Hwf Hp Hf Hlib)
    as (n & s2 & next & old & Hnext & Hold & _ & Hmove & Hsw & Ht2 & Hs2 & Hg2 & _).
  destruct (sweep_captured _ _ _ _ _ Hsw) as (C & Hn & HC & _ & Hc).
  assert (HpC : p ∉ C).
  { intros Hin. apply HC in Hin as [_ Hin]. apply Hin.
    rewrite placed_get, decide_True; done. }
  exists n, (with_turn s2 next), next, old, C.
  split; [done|]. split.
  { clear -Hsw. revert Hsw. generalize (placed st p). intros s Hsw.
    induction Hsw as [s s' Heq|s r rs s' n Hwhy Hsw IH|s r rs s3 s' n G ?????? IH].
    - by constructor.
    - by apply sweep_skip.
    - by eapply sweep_take. }
  split. { change (get_state s2 p = _turn st). rewrite Hc, decide_False by done.
           rewrite placed_get, decide_True; done. }
  split; [done|]. split.
  { intros q Hq. assert (q ≠ p) as Hne by (by intros ->). split; [done|].
    apply HC in Hq. rewrite placed_get, decide_False in Hq; done. }
  split; [exact Hc|]. done.
Qed.

(** Black takes the two grey stones at (1,0) on the board of the
    counterexample. *)
Lemma make_move_captures_in_order_witness :
  wf_state board_two_dead_groups ∧
  ∃ st', make_move (1, 0) board_two_dead_groups = (Return 2, st') ∧ _turn st' = GREY.
Proof.
  split; [by_computation|].
  destruct (make_move_captures_in_order board_two_dead_groups (1, 0))
    as (n & st' & next & old & C & Hmove & _ & _ & _ & _ & _ & _ & _ & Hnext & Ht & _).
  - by_computation.
  - reflexivity.
  - reflexivity.
  - apply (liberty_from_count _ _ 1); [by vm_compute|lia|by vm_compute].
  - pose proof (f_equal fst Hmove) as Hn. vm_compute in Hn. injection Hn as <-.
    exists st'. split; [exact Hmove|].
    rewrite Ht. vm_compute in Hnext. by injection Hnext.
Defined.

(** C2: on a well-formed state [make_move] raises in exactly three cases,
    a point off the board, an occupied point, a placement whose group has no
    liberty, and then leaves the whole state as it was; in the one remaining
    case it returns. *)
Theorem make_move_fails_in_three_cases st p :
  wf_state st →
  (check_coordinates (goban st) p = false ∧
   make_move p st = (Raise (ValueError "Wrong coordinates of point"), st)) ∨
  (check_coordinates (goban st) p = true ∧ get_state st p ≠ FREE ∧
   make_move p st = (Raise (ValueError "Player should move to a free point"), st)) ∨
  (check_coordinates (goban st) p = true ∧ get_state st p = FREE ∧
   (∀ b, ¬ is_liberty (placed st p) p b) ∧
   make_move p st = (Raise (ValueError "This move leads to suicide"), st)) ∨
  (check_coordinates (goban st) p = true ∧ get_state st p = FREE ∧
   (∃ b, is_liberty (placed st p) p b) ∧
   ∃ n st', make_move p st = (Return n, st')).
Proof.
  intros Hwf.
  destruct (check_coordinates (goban st) p) eqn:Hp.
  2:{ left. split; [done|]. by apply make_move_out_of_bounds. }
  right. destruct (decide (get_state st p = FREE)) as [Hf|Hf].
  2:{ left. split; [done|]. split; [done|]. by apply make_move_occupied. }
  right. destruct (liberty_dec (placed st p) p) as [Hno|Hlib].
  - rewrite placed_get, decide_True by done. apply turn_not_free, Hwf.
  - left. split; [done|]. split; [done|]. split; [done|]. by apply make_move_suicide.
  - right. split; [done|]. split; [done|]. split; [done|].
    destruct (make_move_success st p Hwf Hp Hf Hlib) as (n & s2 & next & ? & _ & _ & _ & -> & _).
    eauto.
Qed.

(** Black at (1,0) next to a white stone in the corner of a 2x1 board. *)
Lemma make_move_fails_in_three_cases_witness :
  wf_state board_corner_capture ∧
  make_move (1, 0) board_corner_capture
  = (Raise (ValueError "This move leads to suicide"), board_corner_capture).
Proof.
  split; [by_computation|].
  destruct (make_move_fails_in_three_cases board_corner_capture (1, 0))
    as [[H _]|[(_ & H & _)|[(_ & _ & _ & H)|(_ & _ & _ & n & st' & H)]]].
  - by_computation.
  - vm_compute in H. discriminate H.
  - exfalso. apply H. reflexivity.
  - exact H.
  - vm_compute in H. discriminate H.
Defined.

(** C3, as stated, fails: a stone placed where it has no liberty of its own
    but takes the last liberty of a neighbouring group is refused as a
    suicide by the implemented order, and captures when the check comes after
    the removal. *)
Lemma suicide_check_order_matters :
  let st := board_corner_capture in
  let p := (1, 0) in
  wf_state st ∧
  check_coordinates (goban st) p = true ∧ get_state st p = FREE ∧
  make_move p st = (Raise (ValueError "This move leads to suicide"), st) ∧
  ∃ st', make_move_capture_first p st = (Return 1, st') ∧
         get_state st' (0, 0) = FREE ∧ get_state st' p = BLACK.
Proof.
  cbv zeta. split; [by_computation|]. split; [done|]. split; [done|].
  split; [by vm_compute|]. eexists. split; [by vm_compute|]. by vm_compute.
Qed.

(** C3 (amended): the two orders agree in one direction only.  Whenever the
    implemented order (suicide check before the capture sweep) returns, the
    order with the check after the removal returns the same count and the same
    state; and whatever the latter raises, the implemented order raises too. *)
Theorem capture_first_agrees_where_make_move_returns st p :
  wf_state st →
  (∀ n st', make_move p st = (Return n, st') →
            make_move_capture_first p st = (Return n, st')) ∧
  (∀ e st', make_move_capture_first p st = (Raise e, st') →
            make_move p st = (Raise e, st)).
Proof.
  intros Hwf.
  destruct (check_coordinates (goban st) p) eqn:Hp.
  2:{ rewrite make_move_out_of_bounds by done. split.
      - intros n st' H. discriminate H.
      - intros e st' Hcf. unfold make_move_capture_first, bind, get_self in Hcf.
        rewrite Hp in Hcf. simpl in Hcf. by injection Hcf as <- <-. }
  destruct (decide (get_state st p = FREE)) as [Hf|Hf].
  2:{ rewrite make_move_occupied by done. split.
      - intros n st' H. discriminate H.
      - intros e st' Hcf. unfold make_move_capture_first, bind, get_self in Hcf.
        rewrite Hp in Hcf. simpl in Hcf.
        rewrite bool_decide_eq_false_2 in Hcf by done. by injection Hcf as <- <-. }
  assert (Hpt : get_state (placed st p) p = _turn st)
    by (rewrite placed_get, decide_True; done).
  rewrite make_move_capture_first_free by done.
  destruct (liberty_dec (placed st p) p) as [Hno|Hlib].
  { rewrite Hpt. apply turn_not_free, Hwf. }
  - (* the placed stone has no liberty before the sweep *)
    rewrite make_move_suicide by done. split.
    + intros n st' H. discriminate H.
    + intros e st' Hcf.
      destruct Hwf as (Hwfc & Ht & Hs).
      destruct (proj1 (Forall_forall _ _) Hs _ Ht) as [old Hold].
      destruct (take_stones_placed st p old Hwfc Hp Hold) as (k & s2 & Hts & Hsw & Ht2 & _).
      rewrite Hts in Hcf.
      destruct (count_liberties s2 p) as [j|]; [|discriminate Hcf].
      destruct (j =? 0); [by injection Hcf as <- _|].
      unfold next_turn in Hcf. destruct (dict_turns_lookup _ Ht) as (next & Hnext & _).
      rewrite Ht2, Hnext in Hcf. discriminate Hcf.
  - (* it has one: the sweep only frees cells, so it still has one after *)
    destruct (make_move_success st p Hwf Hp Hf Hlib)
      as (k & s2 & next & old & Hnext & Hold & Hts & -> & Hsw & Ht2 & Hs2 & Hg2 & _).
    rewrite Hts. destruct Hlib as [b Hb].
    pose proof (sweep_keeps_liberty _ _ _ _ _ _ _ Hsw Hpt Hb) as Hb2.
    destruct (sweep_keeps_group _ _ _ _ _ p p Hsw Hpt) as [_ Hp2]; [apply rtc_refl|].
    destruct (count_liberties_spec s2 p) as (j & -> & [[-> Hno]|[Hpos _]]).
    { rewrite Hp2. apply turn_not_free, Hwf. }
    { by apply Hno in Hb2. }
    replace (j =? 0) with false by lia. unfold next_turn. rewrite Ht2, Hnext.
    split.
    + intros n st' H. exact H.
    + intros e st' Hcf. discriminate Hcf.
Qed.

Lemma capture_first_agrees_where_make_move_returns_witness :
  wf_state board_two_dead_groups ∧
  ∃ st', make_move_capture_first (1, 0) board_two_dead_groups = (Return 2, st').
Proof.
  split; [by_computation|].
  destruct (capture_first_agrees_where_make_move_returns board_two_dead_groups (1, 0))
    as [H _].
  - by_computation.
  - eexists. apply H. vm_compute. reflexivity.
Defined.

(** C4: [take_territory colour] adds to the score of [colour] the sizes of
    the maximal empty regions all of whose border cells hold [colour], each
    region once, whatever the order in which the set of free points is
    traversed, and changes nothing else. *)
Theorem take_territory_adds_owned_regions st colour old :
  wf_cells st →
  _score st !! colour = Some old →
  ∃ Rs : list (gset coord),
    NoDup Rs ∧
    (∀ R, R ∈ Rs ↔ empty_region st R ∧ owned_by st colour R) ∧
    let st' := with_score st (<[colour:=old + sum_sizes Rs]> (_score st)) in
    take_territory colour st = (Return tt, st') ∧
    (∀ order, order ≡ₚ elements (get_free_points st) →
              take_territory_in order colour st = (Return tt, st')) ∧
    _state st' = _state st ∧ _turn st' = _turn st ∧ goban st' = goban st ∧
    _score st' !! colour = Some (old + sum_sizes Rs) ∧
    ∀ c, c ≠ colour → _score st' !! c = _score st !! c.
Proof.
  intros Hwf Hold.
  destruct (take_territory_in_spec st colour (elements (get_free_points st)) old)
    as (Rs & Hnd & HRs & Hrun); [done|by apply order_covers|done|].
  exists Rs. split; [done|]. split; [done|]. cbv zeta.
  split; [by rewrite take_territory_order|]. split.
  { intros order Horder.
    destruct (take_territory_in_spec st colour order old)
      as (Rs' & Hnd' & HRs' & ->); [done|by apply order_covers|done|].
    do 3 f_equal. clear Hrun.
    assert (Hperm : Rs' ≡ₚ Rs).
    { apply NoDup_Permutation; [done|done|]. intros R. by rewrite HRs, HRs'. }
    clear -Hperm. induction Hperm; simpl in *; lia. }
  split; [done|]. split; [done|]. split; [done|]. simpl.
  split; [apply lookup_insert_eq|]. intros c Hc. by apply lookup_insert_ne.
Qed.

Lemma take_territory_adds_owned_regions_witness :
  wf_cells board_territory ∧
  ∃ Rs : list (gset coord),
    NoDup Rs ∧
    take_territory BLACK board_territory
    = (Return tt, with_score board_territory
                    (<[BLACK:=0 + sum_sizes Rs]> (_score board_territory))).
Proof.
  split; [by_computation|].
  destruct (take_territory_adds_owned_regions board_territory BLACK 0)
    as (Rs & Hnd & _ & Hrun & _).
  - by_computation.
  - reflexivity.
  - exists Rs. split; [exact Hnd|exact Hrun].
Defined.

(** C5: reading back the text written for a state gives a state of the same
    board size whose cells equal the original ones at every coordinate of the
    board. *)
Theorem convert_string_to_state_inverts_convert_state_to_string st :
  0 < (_size (goban st)).1 → 0 < (_size (goban st)).2 →
  ∃ st', convert_string_to_state (convert_state_to_string st) ";" = Return st' ∧
         _size (goban st') = _size (goban st) ∧
         ∀ p, check_coordinates (goban st) p = true → get_state st' p = get_state st p.
Proof.
  destruct st as [[[W H]] m t sc]. simpl. intros HW HH.
  set (st := {| goban := {| _size := (W, H) |}; _state := m; _turn := t; _score := sc |}).
  rewrite convert_state_to_string_rows. unfold convert_string_to_state, split. simpl.
  rewrite split_rows. rewrite filter_rows by (rewrite seqZ_cons by lia; done).
  set (rows := map (λ y, row_chars st y (seqZ 0 W) "") (seqZ 0 H)).
  assert (Hrows : rows = row_chars st 0 (seqZ 0 W) "" :: map (λ y, row_chars st y (seqZ 0 W) "") (seqZ 1 (H - 1))).
  { unfold rows. rewrite (seqZ_cons 0 H) by lia. done. }
  destruct (load_cells st rows (board_points {| _size := (W, H) |}))
    with (s0 := GameState_init {| _size := (W, H) |}) as (s & Hs & Hg & Hc).
  { intros [x y] Hxy. apply elem_of_board_points in Hxy.
    unfold check_coordinates in Hxy. simpl in *.
    repeat (apply andb_prop in Hxy as [Hxy ?]).
    exists (row_chars st y (seqZ 0 W) ""). split.
    - unfold rows. rewrite list_lookup_fmap, lookup_seqZ_lt by lia. simpl.
      do 3 f_equal. lia.
    - rewrite row_chars_get, lookup_seqZ_lt by lia. simpl. do 4 f_equal. lia. }
  exists s. split; [|split; [by rewrite Hg|]].
  - assert (Hlen : length rows = Z.to_nat H)
      by (unfold rows; by rewrite length_map, length_seqZ).
    rewrite Hrows at 1. cbv beta iota.
    rewrite row_chars_length, length_seqZ, Hlen, !Z2Nat.id by lia.
    assert (Goban_init [W; H] = Return {| _size := (W, H) |}) as ->.
    { unfold Goban_init, check_size. simpl.
      replace (W <=? 0) with false by lia. replace (H <=? 0) with false by lia. done. }
    exact Hs.
  - intros p Hp. rewrite Hc, decide_True; [done|]. by apply elem_of_board_points.
Qed.

Lemma convert_string_to_state_inverts_convert_state_to_string_witness :
  ∃ st', convert_string_to_state (convert_state_to_string board_territory) ";" = Return st' ∧
         get_state st' (3, 3) = WHITE.
Proof.
  destruct (convert_string_to_state_inverts_convert_state_to_string board_territory)
    as (st' & Hrun & _ & Hcells).
  - reflexivity.
  - reflexivity.
  - exists st'. split; [exact Hrun|]. rewrite Hcells; reflexivity.
Defined.

(** C6, as stated, fails: from an empty point [get_group] floods the whole
    empty region, here both cells of an empty 2x1 board. *)
Lemma empty_point_group_is_not_singleton :
  check_coordinates (goban board_2x1) (0, 0) = true ∧
  get_state board_2x1 (0, 0) = FREE ∧
  get_group board_2x1 (0, 0) = Some ({[(0, 0); (1, 0)]}, ∅) ∧
  get_group board_2x1 (0, 0) ≠ Some ({[(0, 0)]}, ∅).
Proof.
  split; [done|]. split; [done|]. split; [by vm_compute|].
  intros H. vm_compute in H. discriminate H.
Qed.

(** C6 (amended): from an in-bounds empty point [get_group] returns the
    maximal 4-connected set of empty cells that contains the point, together
    with the border made of every non-empty cell of the board adjacent to a
    cell of that set. *)
Theorem get_group_of_empty_point st p :
  check_coordinates (goban st) p = true →
  get_state st p = FREE →
  ∃ group boarder : gset coord,
    get_group st p = Some (group, boarder) ∧
    p ∈ group ∧
    (∀ q, q ∈ group ↔ rtc (link st FREE) p q) ∧
    (∀ q, q ∈ group → check_coordinates (goban st) q = true ∧ get_state st q = FREE) ∧
    (∀ b, b ∈ boarder ↔
          ∃ q, q ∈ group ∧ adjacent (goban st) q b ∧ get_state st b ≠ FREE).
Proof.
  intros Hp Hf. destruct (get_group_spec st p) as (group & boarder & Hrun & Hg & Hb).
  unfold on_border, in_group in *. rewrite Hf in *.
  exists group, boarder. split; [done|]. split; [by apply Hg|]. split; [done|]. split.
  - intros q Hq%Hg. split; [by eapply link_in_bounds|by eapply link_colour].
  - intros b. rewrite Hb. by setoid_rewrite Hg.
Qed.

Lemma get_group_of_empty_point_witness :
  ∃ group boarder : gset coord,
    get_group board_2x1 (0, 0) = Some (group, boarder) ∧ (0, 0) ∈ group.
Proof.
  destruct (get_group_of_empty_point board_2x1 (0, 0)) as (g & b & H1 & H2 & _).
  - reflexivity.
  - reflexivity.
  - exists g, b. split; [exact H1|exact H2].
Defined.

(** C7: no score ever decreases along a sequence of moves, passes, territory
    counts and group removals: it does not decrease across any single
    operation, hence not across any sequence of them. *)
Theorem score_never_decreases c st st' :
  rtc step st st' →
  score_le c st st' ∧
  ∀ s1 s2, rtc step st s1 → step s1 s2 → rtc step s2 st' → score_le c s1 s2.
Proof.
  intros Hseq. split.
  - induction Hseq as [|s1 s2 s3 H12 _ IH]; [apply score_le_refl|].
    eapply score_le_trans; [by apply step_score_le|exact IH].
  - intros s1 s2 _ H _. by apply step_score_le.
Qed.

Lemma score_never_decreases_witness :
  ∃ v', _score (make_move (1, 0) board_two_dead_groups).2 !! BLACK = Some v' ∧ 0 ≤ v'.
Proof.
  destruct (score_never_decreases BLACK board_two_dead_groups
              (make_move (1, 0) board_two_dead_groups).2) as [H _].
  - apply rtc_once. apply step_make_move.
  - apply (H 0). reflexivity.
Defined.

(** C8: for a point that is a tuple of integers and any list, the filter
    [point not in point not in forbidden_points] has the value of
    [point not in forbidden_points]; hence the fallback tier plays the points
    of the permutation that are not forbidden, in their order: it returns the
    result of [make_move] at the first of them that [make_move] accepts,
    every one before it having been refused with the state unchanged, and
    passes with the state unchanged when all are refused. *)
Theorem fallback_filter_is_not_forbidden :
  (∀ (zs : list Z) (forbidden_points : list pyval),
     py_not_in_not_in (PyTuple (map PyInt zs)) (PyTuple (map PyInt zs))
                      (PyList forbidden_points)
     = py_not_in (PyTuple (map PyInt zs)) (PyList forbidden_points)) ∧
  (∀ st (free_points forbidden_points : list coord) _current_point,
     wf_state st →
     let candidates :=
       List.filter (λ point, bool_decide (point ∉ forbidden_points)) free_points in
     (∃ l1 p l2 n st',
         candidates = l1 ++ p :: l2 ∧
         (∀ q, q ∈ l1 → ∃ msg, make_move q st = (Raise (ValueError msg), st)) ∧
         make_move p st = (Return n, st') ∧
         fallback_tier free_points forbidden_points _current_point st
         = (Return ((true, Some p, n), Some p), st')) ∨
     ((∀ q, q ∈ candidates → ∃ msg, make_move q st = (Raise (ValueError msg), st)) ∧
      ∃ last, fallback_tier free_points forbidden_points _current_point st
              = (Return ((false, None, 0), last), st))).
Proof.
  split.
  - intros zs forbidden_points. unfold py_not_in_not_in, py_not_in at 1.
    by rewrite tuple_of_ints_not_in_itself.
  - intros st free_points forbidden_points _current_point Hwf candidates.
    subst candidates.
    (* [tried] is the list of forbidden points as the loop has extended it *)
    cut (∀ (tried : list coord) cur,
           (∀ q, q ∈ forbidden_points → q ∈ tried) →
           (∀ q, q ∈ tried → q ∈ forbidden_points ∨
                             ∃ msg, make_move q st = (Raise (ValueError msg), st)) →
           (∃ l1 p l2 n st',
               List.filter (λ point, bool_decide (point ∉ forbidden_points)) free_points
               = l1 ++ p :: l2 ∧
               (∀ q, q ∈ l1 → ∃ msg, make_move q st = (Raise (ValueError msg), st)) ∧
               make_move p st = (Return n, st') ∧
               fallback_tier free_points tried cur st
               = (Return ((true, Some p, n), Some p), st')) ∨
           ((∀ q, q ∈ List.filter (λ point, bool_decide (point ∉ forbidden_points))
                                  free_points →
                  ∃ msg, make_move q st = (Raise (ValueError msg), st)) ∧
            ∃ last, fallback_tier free_points tried cur st
                    = (Return ((false, None, 0), last), st))).
    { intros H. apply (H forbidden_points _current_point); [done|].
      intros q Hq. by left. }
    unfold fallback_tier.
    induction free_points as [|x free_points IH]; intros tried cur Hsub Htried.
    { right. split; [by intros q ?%elem_of_nil|]. by exists cur. }
    cbn [fallback_loop List.filter]. rewrite fallback_filter_not_forbidden.
    destruct (decide (x ∈ tried)) as [Hin|Hnin].
    + (* skipped by the loop *)
      rewrite (bool_decide_eq_false_2 (x ∉ tried)) by (intros H; by apply H).
      destruct (IH tried cur Hsub Htried)
        as [(l1 & p & l2 & n & st' & Hl & Hl1 & Hm & Hrun)|[Hall Hrun]].
      * left. destruct (decide (x ∈ forbidden_points)) as [Hf|Hf].
        -- rewrite (bool_decide_eq_false_2 (x ∉ forbidden_points))
             by (intros H; by apply H).
           by exists l1, p, l2, n, st'.
        -- rewrite (bool_decide_eq_true_2 (x ∉ forbidden_points)) by done.
           exists (x :: l1), p, l2, n, st'. split; [by rewrite Hl|].
           split; [|done]. intros q [->|Hq]%elem_of_cons; [|by apply Hl1].
           by destruct (Htried x Hin).
      * right. split; [|done]. destruct (decide (x ∈ forbidden_points)) as [Hf|Hf].
        -- by rewrite (bool_decide_eq_false_2 (x ∉ forbidden_points))
             by (intros H; by apply H).
        -- rewrite (bool_decide_eq_true_2 (x ∉ forbidden_points)) by done.
           intros q [->|Hq]%elem_of_cons; [|by apply Hall].
           by destruct (Htried x Hin).
    + (* played by the loop *)
      rewrite (bool_decide_eq_true_2 (x ∉ tried)) by done.
      assert (Hxf : x ∉ forbidden_points) by (intros Hf; by apply Hnin, Hsub).
      rewrite (bool_decide_eq_true_2 (x ∉ forbidden_points)) by done.
      destruct (make_move_cases st x Hwf) as [(n & st' & Hm)|[msg Hm]]; rewrite Hm.
      * left. exists [], x, (List.filter (λ point, bool_decide (point ∉ forbidden_points))
                                          free_points), n, st'.
        split; [done|]. split; [by intros q ?%elem_of_nil|done].
      * destruct (IH (tried ++ [x]) (Some x))
          as [(l1 & p & l2 & n & st' & Hl & Hl1 & Hm' & Hrun)|[Hall Hrun]].
        -- intros q Hq. apply elem_of_app. left. by apply Hsub.
        -- intros q [Hq|Hq%list_elem_of_singleton]%elem_of_app; [by apply Htried|].
           subst q. right. by exists msg.
        -- left. exists (x :: l1), p, l2, n, st'. split; [by rewrite Hl|].
           split; [|done]. intros q [->|Hq]%elem_of_cons; [by exists msg|by apply Hl1].
        -- right. split; [|done].
           intros q [->|Hq]%elem_of_cons; [by exists msg|by apply Hall].
Qed.

Lemma fallback_filter_is_not_forbidden_witness :
  ∃ p n st',
    fallback_tier [(0, 0); (1, 0)] [(0, 0)] None board_two_dead_groups
    = (Return ((true, Some p, n), Some p), st').
Proof.
  destruct (proj2 fallback_filter_is_not_forbidden board_two_dead_groups
              [(0, 0); (1, 0)] [(0, 0)] None)
    as [(l1 & p & l2 & n & st' & _ & _ & _ & Hrun)|[_ [last Hrun]]].
  - by_computation.
  - by exists p, n, st'.
  - vm_compute in Hrun. discriminate Hrun.
Defined.

(** C10: on a board all of whose cells are empty, [take_territory colour]
    adds the whole area, width times height, to the score of [colour]: the
    single empty region has no border cell at all. *)
Theorem take_territory_on_empty_board st colour old :
  wf_cells st →
  0 < (_size (goban st)).1 → 0 < (_size (goban st)).2 →
  (∀ q, check_coordinates (goban st) q = true → get_state st q = FREE) →
  _score st !! colour = Some old →
  let st' := with_score st
               (<[colour:=old + (_size (goban st)).1 * (_size (goban st)).2]>
                  (_score st)) in
  take_territory colour st = (Return tt, st') ∧
  ∀ order, order ≡ₚ elements (get_free_points st) →
           take_territory_in order colour st = (Return tt, st').
Proof.
  intros Hwf HW HH Hfree Hold. cbv zeta. split.
  - rewrite take_territory_order.
    apply empty_board_territory; try done. by apply order_covers.
  - intros order Horder.
    apply empty_board_territory; try done. by apply order_covers.
Qed.

Lemma take_territory_on_empty_board_witness :
  take_territory GREY board_2x2
  = (Return tt, with_score board_2x2 (<[GREY:=0 + 2 * 2]> (_score board_2x2))).
Proof.
  destruct (take_territory_on_empty_board board_2x2 GREY 0) as [H _].
  - by_computation.
  - reflexivity.
  - reflexivity.
  - intros q _. apply init_all_free.
  - reflexivity.
  - exact H.
Defined.

(** * Further properties *)

(** ** Board geometry *)

Lemma dom_clear (l : list coord) (m : gmap coord colour) :
  dom (foldl (λ (m : gmap coord colour) p, <[p:=FREE]> m) m l)
  = (list_to_set l ∪ dom m : gset coord).
Proof.
  apply set_eq. intros q. rewrite elem_of_dom, lookup_clear.
  rewrite elem_of_union, elem_of_list_to_set, elem_of_dom.
  destruct (decide (q ∈ l)); [|tauto]. split; eauto.
Qed.

Lemma init_wf_cells g : wf_cells (GameState_init g).
Proof. unfold wf_cells, GameState_init. simpl. rewrite dom_clear. set_solver. Qed.

(** X1: the points returned by [neighbour_points] are exactly the cells of
    the board at distance one from the point, each once; so the point itself
    is never among them and adjacency is symmetric. *)
Theorem neighbour_points_are_the_cells_at_distance_one g p :
  (∀ q, q ∈ neighbour_points g p ↔
        check_coordinates g q = true ∧ Z.abs (q.1 - p.1) + Z.abs (q.2 - p.2) = 1) ∧
  NoDup (neighbour_points g p) ∧
  (p ∉ neighbour_points g p) ∧
  (∀ q, check_coordinates g p = true → q ∈ neighbour_points g p →
        p ∈ neighbour_points g q).
Proof.
  assert (Hchar : ∀ a b, b ∈ neighbour_points g a ↔
            check_coordinates g b = true ∧ Z.abs (b.1 - a.1) + Z.abs (b.2 - a.2) = 1).
  { intros [x y] [x' y']. rewrite elem_of_neighbour_points. simpl. split.
    - intros [Hb [H|[H|[H|H]]]]; injection H as -> ->; split; try done; lia.
    - intros [Hb Hd]. split; [done|].
      destruct (decide (x' = x + 1)) as [->|]; [left; f_equal; lia|].
      destruct (decide (y' = y + 1)) as [->|]; [right; left; f_equal; lia|].
      destruct (decide (x' = x - 1)) as [->|]; [right; right; left; f_equal; lia|].
      right; right; right. f_equal; lia. }
  split; [apply Hchar|]. split; [|split].
  - unfold neighbour_points. apply NoDup_ListNoDup, List.NoDup_filter, NoDup_ListNoDup.
    destruct p as [x y]. simpl.
    repeat (apply NoDup_cons; split;
            [rewrite ?elem_of_cons, ?elem_of_nil; intros H;
             repeat (destruct H as [H|H]; try (injection H; lia)); done|]).
    constructor.
  - intros [_ H]%Hchar. lia.
  - intros q Hp [Hq Hd]%Hchar. apply Hchar. split; [done|lia].
Qed.

Lemma neighbour_points_are_the_cells_at_distance_one_witness :
  (0, 0) ∈ neighbour_points {| _size := (2, 2) |} (1, 0).
Proof.
  destruct (neighbour_points_are_the_cells_at_distance_one {| _size := (2, 2) |} (0, 0))
    as (_ & _ & _ & H).
  apply H; [reflexivity|]. by_computation.
Defined.

Lemma elem_of_get_next_points g p q :
  q ∈ get_next_points g p ↔
  check_coordinates g q = true ∧ q ≠ p ∧
  Z.abs (q.1 - p.1) ≤ 1 ∧ Z.abs (q.2 - p.2) ≤ 1.
Proof.
  unfold get_next_points. rewrite list_elem_of_In, in_flat_map.
  destruct p as [x y], q as [x' y']. split.
  - intros ([a b] & Hab & Hq). simpl in Hq.
    destruct ((negb (a =? 0) || negb (b =? 0)) && _) eqn:E; [|done].
    destruct Hq as [[= <- <-]|[]]. apply andb_prop in E as [Hany Hin].
    simpl in Hab.
    assert (Hne : a ≠ 0 ∨ b ≠ 0).
    { apply orb_prop in Hany as [H|H]; apply negb_true_iff, Z.eqb_neq in H; auto. }
    split; [done|]. simpl.
    repeat (destruct Hab as [Hab|Hab]; [injection Hab as <- <-; split; [intros [=]; lia|lia]|]).
    done.
  - intros (Hin & Hne & Hx & Hy). simpl in *.
    exists (x' - x, y' - y). simpl.
    replace (x + (x' - x)) with x' by lia. replace (y + (y' - y)) with y' by lia.
    rewrite Hin. split.
    + assert (x' - x = -1 ∨ x' - x = 0 ∨ x' - x = 1) as [Ha|[Ha|Ha]] by lia;
        assert (y' - y = -1 ∨ y' - y = 0 ∨ y' - y = 1) as [Hb|[Hb|Hb]] by lia;
        rewrite Ha, Hb; simpl; tauto.
    + assert (x' - x ≠ 0 ∨ y' - y ≠ 0) as [H|H].
      { destruct (decide (x' = x)) as [->|]; [|left; lia].
        right. intros ?. apply Hne. f_equal. lia. }
      * apply Z.eqb_neq in H. rewrite H. simpl. by left.
      * apply Z.eqb_neq in H. rewrite H, orb_true_r. simpl. by left.
Qed.

(** X2: [get_next_points] returns exactly the cells of the board in the 3x3
    block around the point, the point itself excepted; every 4-neighbour is
    among them. *)
Theorem get_next_points_are_the_block_around g p :
  (∀ q, q ∈ get_next_points g p ↔
        check_coordinates g q = true ∧ q ≠ p ∧
        Z.abs (q.1 - p.1) ≤ 1 ∧ Z.abs (q.2 - p.2) ≤ 1) ∧
  (∀ q, q ∈ neighbour_points g p → q ∈ get_next_points g p) ∧
  (∀ q, check_coordinates g p = true → q ∈ get_next_points g p →
        p ∈ get_next_points g q).
Proof.
  split; [apply elem_of_get_next_points|]. split.
  - intros q Hq. apply elem_of_get_next_points.
    apply elem_of_neighbour_points in Hq as [Hin H]. split; [done|].
    destruct p as [x y]. simpl in *.
    destruct H as [->|[->|[->| ->]]]; simpl; (split; [intros [=]; lia|lia]).
  - intros q Hp (Hq & Hne & Hx & Hy)%elem_of_get_next_points.
    apply elem_of_get_next_points. split; [done|]. split; [congruence|lia].
Qed.

Lemma get_next_points_are_the_block_around_witness :
  (0, 0) ∈ get_next_points {| _size := (2, 2) |} (1, 1).
Proof.
  destruct (get_next_points_are_the_block_around {| _size := (2, 2) |} (0, 0))
    as (_ & _ & H).
  apply H; [reflexivity|]. by_computation.
Defined.

(** ** Construction, turns and the pixel grid *)

(** X3: the constructor of [Goban] accepts exactly the sizes with two
    positive components; a size of another length is refused for its number
    of parameters even when a component is not positive, and a size of two
    components one of which is not positive for that. *)
Theorem Goban_init_accepts_two_positive_integers size :
  (∀ g, Goban_init size = Return g ↔
        ∃ w h, size = [w; h] ∧ 0 < w ∧ 0 < h ∧ g = {| _size := (w, h) |}) ∧
  (length size ≠ 2%nat →
   Goban_init size = Raise (ValueError "Wrong number of parameters")) ∧
  (∀ w h, size = [w; h] → w ≤ 0 ∨ h ≤ 0 →
          Goban_init size = Raise (ValueError "Parameter should be positive")).
Proof.
  assert (Hlen : length size ≠ 2%nat →
                 Goban_init size = Raise (ValueError "Wrong number of parameters")).
  { intros H. unfold Goban_init, check_size.
    replace (length size =? 2)%nat with false by (symmetry; by apply Nat.eqb_neq).
    done. }
  assert (Hpos : ∀ w h, size = [w; h] → w ≤ 0 ∨ h ≤ 0 →
                 Goban_init size = Raise (ValueError "Parameter should be positive")).
  { intros w h -> H. unfold Goban_init, check_size. simpl.
    destruct H; [replace (w <=? 0) with true by lia; done|].
    replace (h <=? 0) with true by lia. by rewrite orb_true_r. }
  split; [|split; [exact Hlen|exact Hpos]].
  intros g. split.
  - intros H. destruct (decide (length size = 2%nat)) as [Hl|Hl].
    2:{ rewrite Hlen in H by done. discriminate H. }
    destruct size as [|w [|h [|]]]; try discriminate Hl.
    destruct (decide (w ≤ 0 ∨ h ≤ 0)) as [Hneg|Hok].
    { rewrite (Hpos w h) in H by done. discriminate H. }
    exists w, h. split; [done|]. split; [lia|]. split; [lia|].
    unfold Goban_init, check_size in H. simpl in H.
    replace (w <=? 0) with false in H by lia. replace (h <=? 0) with false in H by lia.
    simpl in H. by injection H as <-.
  - intros (w & h & -> & Hw & Hh & ->). unfold Goban_init, check_size. simpl.
    replace (w <=? 0) with false by lia. replace (h <=? 0) with false by lia. done.
Qed.

Lemma Goban_init_accepts_two_positive_integers_witness :
  Goban_init [3; -1] = Raise (ValueError "Parameter should be positive").
Proof.
  destruct (Goban_init_accepts_two_positive_integers [3; -1]) as (_ & _ & H).
  apply (H 3 (-1)); [reflexivity|right; lia].
Defined.

Lemma init_wf_state g : wf_state (GameState_init g).
Proof.
  split; [apply init_wf_cells|]. split; [set_solver|].
  repeat constructor; by eexists.
Qed.

Lemma init_scores g c : c ∈ TURNS → _score (GameState_init g) !! c = Some 0.
Proof.
  intros Hc. unfold TURNS in Hc.
  repeat (apply elem_of_cons in Hc as [->|Hc]); try done.
  by apply elem_of_nil in Hc.
Qed.

(** X4: a new game state is well formed: its cell dictionary has exactly the
    coordinates of the board as keys, every cell is free, so that the free
    points are the whole board, Black is to move and every player has the
    score zero. *)
Theorem GameState_init_is_well_formed g :
  wf_state (GameState_init g) ∧
  (∀ q, get_state (GameState_init g) q = FREE) ∧
  get_free_points (GameState_init g) = list_to_set (board_points g) ∧
  _turn (GameState_init g) = BLACK ∧
  (∀ c, c ∈ TURNS → _score (GameState_init g) !! c = Some 0).
Proof.
  split; [apply init_wf_state|]. split; [apply init_all_free|].
  split; [|split; [done|apply init_scores]].
  apply set_eq. intros q. rewrite free_points_wf by apply init_wf_cells.
  rewrite elem_of_list_to_set, elem_of_board_points. simpl.
  pose proof (init_all_free g q). tauto.
Qed.

(** X5: [next_turn] goes round the three players: from a player it leads to
    another player, and three calls bring the state back; from a turn that is
    no player (the value [FREE] left by [set_turn]) it raises [KeyError] and
    changes nothing. *)
Theorem next_turn_has_period_three st :
  (_turn st ∈ TURNS →
   ∃ s1 s2, next_turn st = (Return tt, s1) ∧
            next_turn s1 = (Return tt, s2) ∧
            next_turn s2 = (Return tt, st) ∧
            _turn s1 ∈ TURNS ∧ _turn s2 ∈ TURNS ∧
            _turn s1 ≠ _turn st ∧ _turn s2 ≠ _turn st ∧ _turn s1 ≠ _turn s2) ∧
  (_turn st ∉ TURNS → next_turn st = (Raise KeyError, st)).
Proof.
  destruct st as [g m t sc]. simpl. split.
  - unfold TURNS. intros H.
    repeat (apply elem_of_cons in H as [->|H]); [| | |by apply elem_of_nil in H];
      eexists _, _; (split; [reflexivity|]); (split; [reflexivity|]);
      (split; [reflexivity|]); simpl; repeat split; try done; set_solver.
  - intros H. destruct t; try (exfalso; apply H; set_solver). done.
Qed.

Lemma next_turn_has_period_three_witness :
  ∃ s1, next_turn board_2x2 = (Return tt, s1) ∧ _turn s1 ∈ TURNS.
Proof.
  destruct (next_turn_has_period_three board_2x2) as [H _].
  destruct H as (s1 & s2 & H1 & _ & _ & Ht & _).
  - by_computation.
  - exists s1. split; [exact H1|exact Ht].
Defined.

(** X6: [get_graph_point] moves each pixel coordinate to the nearest multiple
    of 30, the upper one when two are equally near; it leaves the multiples of
    30 where they are. *)
Theorem get_graph_point_snaps_to_the_grid coords :
  let r := get_graph_point coords in
  r.1 `mod` 30 = 0 ∧ r.2 `mod` 30 = 0 ∧
  -15 < r.1 - coords.1 ≤ 15 ∧ -15 < r.2 - coords.2 ≤ 15 ∧
  get_graph_point r = r.
Proof.
  assert (Hsnap : ∀ c, let d := c `mod` 30 in
            let d' := if 15 <=? d then d - 30 else d in
            (c - d') `mod` 30 = 0 ∧ -15 < (c - d') - c ≤ 15).
  { intros c d d'. subst d d'. pose proof (Z.mod_pos_bound c 30 ltac:(lia)).
    destruct (15 <=? c `mod` 30) eqn:E.
    - split; [|lia]. replace (c - (c `mod` 30 - 30)) with (c - c `mod` 30 + 1 * 30) by lia.
      rewrite Z.mod_add by lia. rewrite Zminus_mod_idemp_r. replace (c - c) with 0 by lia. done.
    - split; [|lia]. rewrite Zminus_mod_idemp_r. replace (c - c) with 0 by lia. done. }
  destruct coords as [x y]. cbv zeta. unfold get_graph_point at 1 2 3 4 5 6. simpl.
  destruct (Hsnap x) as [Hx1 Hx2]. destruct (Hsnap y) as [Hy1 Hy2].
  split; [exact Hx1|]. split; [exact Hy1|]. split; [exact Hx2|]. split; [exact Hy2|].
  unfold get_graph_point. simpl. rewrite Hx1, Hy1. simpl. f_equal; lia.
Qed.

(** ** Groups, liberties and captures *)

Lemma wf_cells_stone st x :
  wf_cells st → get_state st x ≠ FREE → check_coordinates (goban st) x = true.
Proof.
  intros Hwf Hx. apply (proj1 (wf_cells_iff st) Hwf). unfold get_state in Hx.
  destruct (_state st !! x); [eauto|done].
Qed.

(** X7: from any seed, stone or empty point, [get_group] returns the maximal
    set of cells of the colour of the seed connected to it, and as border
    every cell of the board of another colour next to that set; group and
    border never overlap. *)
Theorem get_group_is_the_connected_component st p :
  ∃ group boarder : gset coord,
    get_group st p = Some (group, boarder) ∧
    p ∈ group ∧
    (∀ q, q ∈ group ↔ in_group st p q) ∧
    (∀ q, q ∈ group → get_state st q = get_state st p) ∧
    (∀ b, b ∈ boarder ↔
          ∃ q, q ∈ group ∧ adjacent (goban st) q b ∧ get_state st b ≠ get_state st p) ∧
    group ## boarder.
Proof.
  destruct (get_group_spec st p) as (group & boarder & Hrun & Hg & Hb).
  exists group, boarder. split; [done|].
  assert (Hcol : ∀ q, q ∈ group → get_state st q = get_state st p).
  { intros q Hq%Hg. by apply (link_colour st _ p). }
  split; [apply Hg, rtc_refl|]. split; [done|]. split; [done|]. split.
  - intros b. rewrite Hb. unfold on_border. by setoid_rewrite Hg.
  - intros q Hq (q' & _ & _ & Hne)%Hb. by apply Hne, Hcol.
Qed.

(** X8: for a stone, [get_liberties] returns exactly the empty cells of the
    border that [get_group] computes for it, and [count_liberties] their
    number; for an empty point they return the point itself and 1. *)
Theorem get_liberties_are_the_empty_border_cells st p :
  (get_state st p ≠ FREE →
   ∃ group boarder liberties : gset coord,
     get_group st p = Some (group, boarder) ∧
     get_liberties st p = Some liberties ∧
     (∀ b, b ∈ liberties ↔ b ∈ boarder ∧ get_state st b = FREE) ∧
     (∀ b, b ∈ liberties ↔ is_liberty st p b) ∧
     count_liberties st p = Some (Z.of_nat (size liberties))) ∧
  (get_state st p = FREE →
   get_liberties st p = Some {[p]} ∧ count_liberties st p = Some 1).
Proof.
  split.
  - intros Hp. destruct (get_group_spec st p) as (group & boarder & Hrun & Hg & Hb).
    destruct (get_liberties_spec st p Hp) as (L & HL & Hspec).
    exists group, boarder, L. split; [done|]. split; [done|]. split; [|split; [done|]].
    + intros b. rewrite Hspec, Hb. unfold is_liberty, on_border. split.
      * intros (q & Hq & Ha & Hf). split; [|done]. exists q. by rewrite Hf.
      * intros [(q & Hq & Ha & _) Hf]. by exists q.
    + unfold count_liberties. by rewrite HL.
  - intros Hp. split; [by apply get_liberties_free|by apply count_liberties_free].
Qed.

Lemma get_liberties_are_the_empty_border_cells_witness :
  get_liberties board_2x2 (0, 0) = Some {[(0, 0)]}.
Proof.
  destruct (get_liberties_are_the_empty_border_cells board_2x2 (0, 0)) as [_ H].
  apply H. reflexivity.
Defined.

(** X9: [catch_group] sets to empty exactly the cells of the group of the
    point and returns their number; every other cell, the turn and the scores
    stay as they are, and on a well-formed state the freed cells join the
    free points. *)
Theorem catch_group_removes_the_group st p :
  ∃ (G : gset coord) st',
    catch_group p st = (Return (Z.of_nat (size G)), st') ∧
    (∀ q, q ∈ G ↔ in_group st p q) ∧
    (∀ q, get_state st' q = if decide (q ∈ G) then FREE else get_state st q) ∧
    _turn st' = _turn st ∧ _score st' = _score st ∧ goban st' = goban st ∧
    (wf_cells st → check_coordinates (goban st) p = true →
     wf_cells st' ∧ get_free_points st' = get_free_points st ∪ G).
Proof.
  destruct (catch_group_spec st p) as (G & st' & Hrun & HG & [Hg Hc] & Ht & Hs & Hdom).
  exists G, st'. split; [done|]. split; [done|]. split; [done|].
  split; [done|]. split; [done|]. split; [done|].
  intros Hwf Hp.
  assert (Hwf' : wf_cells st').
  { pose proof (proj1 (wf_cells_iff st) Hwf) as Hwf0. apply wf_cells_iff.
    intros q. rewrite Hdom, Hg. split; [|intros ?; left; by apply Hwf0].
    intros [?|Hq]; [by apply Hwf0|]. apply HG in Hq. by eapply link_in_bounds. }
  split; [done|]. apply set_eq. intros q.
  rewrite elem_of_union, !free_points_wf by done. rewrite Hg, Hc.
  destruct (decide (q ∈ G)) as [Hq|Hq]; [|tauto].
  split; [by right|]. intros _. split; [|done]. apply HG in Hq. by eapply link_in_bounds.
Qed.

Lemma catch_group_removes_the_group_witness :
  ∃ k st', catch_group (0, 0) board_corner_capture = (Return k, st') ∧
           get_state st' (0, 0) = FREE.
Proof.
  destruct (catch_group_removes_the_group board_corner_capture (0, 0))
    as (G & st' & Hrun & HG & Hc & _).
  exists (Z.of_nat (size G)), st'. split; [exact Hrun|].
  rewrite Hc, decide_True; [reflexivity|]. apply HG, rtc_refl.
Defined.

(** ** Moves and well-formed states *)

Lemma make_move_returns st p n st' :
  wf_state st → make_move p st = (Return n, st') →
  check_coordinates (goban st) p = true ∧ get_state st p = FREE ∧
  ∃ b, is_liberty (placed st p) p b.
Proof.
  intros Hwf Hmove.
  destruct (check_coordinates (goban st) p) eqn:Hp.
  2:{ rewrite make_move_out_of_bounds in Hmove by done. discriminate Hmove. }
  destruct (decide (get_state st p = FREE)) as [Hf|Hf].
  2:{ rewrite make_move_occupied in Hmove by done. discriminate Hmove. }
  split; [done|]. split; [done|].
  destruct (liberty_dec (placed st p) p) as [Hno|Hlib]; [| |done].
  - rewrite placed_get, decide_True by done. apply turn_not_free, Hwf.
  - rewrite make_move_suicide in Hmove by done. discriminate Hmove.
Qed.

Lemma make_move_raises st p e st' :
  wf_state st → make_move p st = (Raise e, st') → st' = st.
Proof.
  intros Hwf Hmove.
  destruct (check_coordinates (goban st) p) eqn:Hp.
  2:{ rewrite make_move_out_of_bounds in Hmove by done. by injection Hmove as _ <-. }
  destruct (decide (get_state st p = FREE)) as [Hf|Hf].
  2:{ rewrite make_move_occupied in Hmove by done. by injection Hmove as _ <-. }
  destruct (liberty_dec (placed st p) p) as [Hno|Hlib].
  - rewrite placed_get, decide_True by done. apply turn_not_free, Hwf.
  - rewrite make_move_suicide in Hmove by done. by injection Hmove as _ <-.
  - destruct (make_move_success st p Hwf Hp Hf Hlib) as (n & s2 & next & old & _ & _ & _ & H & _).
    rewrite H in Hmove. discriminate Hmove.
Qed.

Lemma make_move_total st p st' : wf_state st → make_move p st ≠ (OutOfFuel, st').
Proof.
  intros Hwf Hmove.
  destruct (check_coordinates (goban st) p) eqn:Hp.
  2:{ rewrite make_move_out_of_bounds in Hmove by done. discriminate Hmove. }
  destruct (decide (get_state st p = FREE)) as [Hf|Hf].
  2:{ rewrite make_move_occupied in Hmove by done. discriminate Hmove. }
  destruct (liberty_dec (placed st p) p) as [Hno|Hlib].
  - rewrite placed_get, decide_True by done. apply turn_not_free, Hwf.
  - rewrite make_move_suicide in Hmove by done. discriminate Hmove.
  - destruct (make_move_success st p Hwf Hp Hf Hlib) as (n & s2 & next & old & _ & _ & _ & H & _).
    rewrite H in Hmove. discriminate Hmove.
Qed.

Lemma make_move_wf st p : wf_state st → wf_state (make_move p st).2.
Proof.
  intros Hwf. destruct (make_move p st) as [[n|e|] st'] eqn:Hmove; simpl.
  - destruct (make_move_returns st p n st' Hwf Hmove) as (Hp & Hf & Hlib).
    destruct (make_move_success st p Hwf Hp Hf Hlib)
      as (k & s2 & next & old & Hnext & Hold & _ & H & _ & Ht2 & Hs2 & _ & Hwf2).
    rewrite H in Hmove. injection Hmove as <- <-.
    destruct Hwf as (_ & Ht & Hs).
    split; [exact Hwf2|]. split.
    + simpl. destruct (dict_turns_lookup _ Ht) as (next' & Hnext' & Hin). congruence.
    + simpl. rewrite Hs2. eapply Forall_impl; [exact Hs|]. intros c [v Hv]. simpl.
      destruct (decide (c = _turn st)) as [->|Hne].
      * rewrite lookup_insert_eq. eauto.
      * rewrite lookup_insert_ne by done. eauto.
  - by rewrite (make_move_raises st p e st' Hwf Hmove).
  - by apply make_move_total in Hmove.
Qed.

Lemma take_territory_in_wf order colour st :
  wf_state st → wf_state (take_territory_in order colour st).2.
Proof.
  intros Hwf. unfold take_territory_in, bind, query.
  destruct (take_territory_loop st colour order [] 0) as [score|]; [|done].
  destruct (_score st !! colour) as [old|] eqn:Hold; [|done]. simpl.
  destruct Hwf as (Hc & Ht & Hs). split; [done|]. split; [done|]. simpl.
  eapply Forall_impl; [exact Hs|]. intros c [v Hv]. simpl.
  destruct (decide (c = colour)) as [->|Hne].
  - rewrite lookup_insert_eq. eauto.
  - rewrite lookup_insert_ne by done. eauto.
Qed.

(** X10: the operations of play keep the state well formed: after
    [make_move] (whether it returns or raises), [next_turn], [take_territory]
    and [catch_group] at a point of the board, the keys of the cells are still
    exactly the board, the turn is a player and every player has a score. *)
Theorem play_keeps_the_state_well_formed st :
  wf_state st →
  (∀ p, wf_state (make_move p st).2) ∧
  wf_state (next_turn st).2 ∧
  (∀ order colour, wf_state (take_territory_in order colour st).2) ∧
  (∀ colour, wf_state (take_territory colour st).2) ∧
  (∀ p, check_coordinates (goban st) p = true → wf_state (catch_group p st).2).
Proof.
  intros Hwf. split; [intros p; by apply make_move_wf|]. split; [|split; [|split]].
  - destruct Hwf as (Hc & Ht & Hs). unfold next_turn.
    destruct (dict_turns_lookup _ Ht) as (next & -> & Hin). done.
  - intros order colour. by apply take_territory_in_wf.
  - intros colour. rewrite take_territory_order. by apply take_territory_in_wf.
  - intros p Hp.
    destruct (catch_group_spec st p) as (G & st' & -> & HG & [Hg Hc] & Ht & Hs & Hdom).
    simpl. destruct Hwf as (Hwfc & Hturn & Hscore).
    split; [|by rewrite Ht, Hs].
    pose proof (proj1 (wf_cells_iff st) Hwfc) as Hwf0. apply wf_cells_iff.
    intros q. rewrite Hdom, Hg. split; [|intros ?; left; by apply Hwf0].
    intros [?|Hq]; [by apply Hwf0|]. apply HG in Hq. by eapply link_in_bounds.
Qed.

Lemma play_keeps_the_state_well_formed_witness :
  wf_state (make_move (1, 1) board_2x2).2.
Proof.
  destruct (play_keeps_the_state_well_formed board_2x2) as [H _].
  - by_computation.
  - apply H.
Defined.

Lemma is_liberty_in_group st x q b :
  in_group st x q → is_liberty st q b → is_liberty st x b.
Proof.
  intros Hxq (q' & Hq' & Ha & Hf). exists q'. split; [|done].
  unfold in_group in *. rewrite (link_colour st _ x q eq_refl Hxq) in Hq'. by etrans.
Qed.

Lemma in_group_sym st x q :
  check_coordinates (goban st) x = true → in_group st x q → in_group st q x.
Proof.
  intros Hx Hxq. unfold in_group in *.
  rewrite (link_colour st _ x q eq_refl Hxq). by apply link_sym.
Qed.

(** X11: a move that returns never leaves the stone it placed without a
    liberty: the stone is on the board with the colour of the mover and its
    group has at least one liberty, as [count_liberties] then reports. *)
Theorem returned_move_has_a_liberty st p n st' :
  wf_state st →
  make_move p st = (Return n, st') →
  get_state st' p = _turn st ∧
  (∃ b, is_liberty st' p b) ∧
  ∃ k, count_liberties st' p = Some k ∧ 0 < k.
Proof.
  intros Hwf Hmove.
  destruct (make_move_returns st p n st' Hwf Hmove) as (Hp & Hf & [b Hb]).
  destruct (make_move_success st p Hwf Hp Hf (ex_intro _ b Hb))
    as (k & s2 & next & old & _ & _ & _ & H & Hsw & _).
  rewrite H in Hmove. injection Hmove as <- <-.
  assert (Hpt : get_state (placed st p) p = _turn st)
    by (rewrite placed_get, decide_True; done).
  pose proof (sweep_keeps_liberty _ _ _ _ _ _ _ Hsw Hpt Hb) as Hb2.
  destruct (sweep_keeps_group _ _ _ _ _ p p Hsw Hpt) as [_ Hp2]; [apply rtc_refl|].
  split; [exact Hp2|]. split; [by exists b|].
  destruct (count_liberties_spec (with_turn s2 next) p) as (j & Hj & [[_ Hno]|[Hpos _]]).
  - change (get_state s2 p ≠ FREE). rewrite Hp2. apply turn_not_free, Hwf.
  - exfalso. by apply (Hno b).
  - by exists j.
Qed.

Lemma returned_move_has_a_liberty_witness :
  ∃ b, is_liberty (make_move (1, 1) board_2x2).2 (1, 1) b.
Proof.
  destruct (make_move (1, 1) board_2x2) as [o st'] eqn:Hmove.
  assert (Ho : o = Return 0) by (apply (f_equal fst) in Hmove; vm_compute in Hmove; congruence).
  subst o.
  destruct (returned_move_has_a_liberty board_2x2 (1, 1) 0 st') as (_ & H & _).
  - by_computation.
  - exact Hmove.
  - exact H.
Defined.

(** ** No stone is left without a liberty *)

Lemma in_group_trans st a b c :
  in_group st a b → in_group st b c → in_group st a c.
Proof.
  intros Hab Hbc. unfold in_group in *.
  rewrite (link_colour st _ a b eq_refl Hab) in Hbc. by etrans.
Qed.

Lemma link_transfer s s' c x y :
  goban s' = goban s →
  (∀ z, rtc (link s c) x z → get_state s z = c → get_state s' z = c) →
  rtc (link s c) x y → rtc (link s' c) x y.
Proof.
  intros Hg Hsame. revert y. apply (rtc_ind_r (λ y, rtc (link s' c) x y)); [done|].
  intros y z Hxy [Ha Hz] IH. eapply rtc_r; [exact IH|]. split.
  - unfold adjacent in *. by rewrite Hg.
  - apply Hsame; [|done]. eapply rtc_r; [exact Hxy|]. by split.
Qed.

Lemma removed_survivor G s s2 r x :
  removed G s s2 →
  (∀ q, q ∈ G ↔ in_group s r q) →
  check_coordinates (goban s) x = true →
  get_state s2 x ≠ FREE →
  get_state s2 x = get_state s x ∧
  (∀ y, in_group s x y → in_group s2 x y) ∧
  (∀ b, is_liberty s x b → is_liberty s2 x b).
Proof.
  intros [Hg Hc] HG Hx Hx2.
  assert (HxG : x ∉ G).
  { intros Hin. apply Hx2. rewrite Hc. by rewrite decide_True. }
  assert (Hxc : get_state s2 x = get_state s x) by (rewrite Hc; by rewrite decide_False).
  assert (Hout : ∀ y, in_group s x y → y ∉ G).
  { intros y Hy Hin. apply HxG, HG. apply (in_group_trans s r y x); [by apply HG|].
    by apply in_group_sym. }
  assert (Hgroup : ∀ y, in_group s x y → in_group s2 x y).
  { intros y Hy. unfold in_group in *. rewrite Hxc.
    apply (link_transfer s s2); [done| |done].
    intros z Hz Hzc. rewrite Hc, decide_False; [done|]. by apply Hout. }
  split; [done|]. split; [done|].
  intros b (q & Hq & Ha & Hf). exists q. split; [by apply Hgroup|]. split.
  - unfold adjacent in *. by rewrite Hg.
  - rewrite Hc. by destruct (decide (b ∈ G)).
Qed.

Lemma sweep_survivor turn s ps s' n x :
  sweep turn s ps s' n →
  check_coordinates (goban s) x = true →
  get_state s' x ≠ FREE →
  get_state s' x = get_state s x ∧
  (∀ y, in_group s x y → in_group s' x y) ∧
  (∀ b, is_liberty s x b → is_liberty s' x b).
Proof.
  induction 1 as [s s' [Hg Hc]|s r rs s' n Hwhy Hsw IH
                 |s r rs s2 s' n G Ht Hf Hno HG Hrem Hsw IH]; intros Hx Hx'.
  - assert (Hgroup : ∀ y, in_group s x y → in_group s' x y).
    { intros y Hy. unfold in_group in *. rewrite Hc.
      apply (link_transfer s s'); [done| |done]. intros z _ Hz. by rewrite Hc. }
    split; [apply Hc|]. split; [done|].
    intros b (q & Hq & Ha & Hf). exists q. split; [by apply Hgroup|].
    split; [unfold adjacent in *; by rewrite Hg|by rewrite Hc].
  - by apply IH.
  - assert (Hg2 : goban s2 = goban s) by apply Hrem.
    destruct IH as (Hc' & Hgroup' & Hlib'); [by rewrite Hg2|done|].
    destruct (removed_survivor G s s2 r x Hrem HG Hx) as (Hc2 & Hgroup2 & Hlib2).
    { by rewrite <- Hc'. }
    split; [congruence|]. split; auto.
Qed.

Lemma sweep_examined turn s ps s' n :
  sweep turn s ps s' n →
  (∀ r, r ∈ ps → check_coordinates (goban s) r = true) →
  ∀ r, r ∈ ps → get_state s' r ≠ FREE → get_state s' r ≠ turn →
       ∃ b, is_liberty s' r b.
Proof.
  induction 1 as [s s' Heq|s r0 rs s' n Hwhy Hsw IH
                 |s r0 rs s2 s' n G Ht Hf Hno HG Hrem Hsw IH]; intros Hin r Hr Hfree Hturn.
  - by apply elem_of_nil in Hr.
  - apply elem_of_cons in Hr as [->|Hr].
    2:{ apply IH; try done. intros r' Hr'. apply Hin. by right. }
    assert (Hr0 : check_coordinates (goban s) r0 = true) by (apply Hin; left).
    destruct (sweep_survivor turn s rs s' n r0 Hsw Hr0 Hfree) as (Hc & _ & Hlib).
    destruct Hwhy as [Hw|[Hw|[b Hb]]]; [congruence|congruence|].
    exists b. by apply Hlib.
  - assert (Hg2 : goban s2 = goban s) by apply Hrem.
    apply elem_of_cons in Hr as [->|Hr].
    2:{ apply IH; try done. intros r' Hr'. rewrite Hg2. apply Hin. by right. }
    exfalso.
    assert (Hr0 : check_coordinates (goban s2) r0 = true) by (rewrite Hg2; apply Hin; left).
    destruct (sweep_survivor turn s2 rs s' n r0 Hsw Hr0 Hfree) as (Hc & _).
    apply Hfree. rewrite Hc. destruct Hrem as [_ Hc2]. rewrite Hc2.
    rewrite decide_True; [done|]. apply HG, rtc_refl.
Qed.

Lemma placed_group_away st p x :
  get_state st p = FREE → get_state st x ≠ FREE →
  ¬ in_group (placed st p) x p →
  get_state (placed st p) x = get_state st x ∧
  (∀ y, in_group st x y → in_group (placed st p) x y ∧ y ≠ p) ∧
  (∀ y, in_group (placed st p) x y → in_group st x y).
Proof.
  intros Hf Hx Hnot.
  assert (Hne : x ≠ p) by (intros ->; done).
  assert (Hxc : get_state (placed st p) x = get_state st x)
    by (rewrite placed_get, decide_False; done).
  split; [done|]. split.
  - intros y Hy.
    assert (Hyp : y ≠ p).
    { intros ->. apply Hx. rewrite <- Hf. symmetry. by apply (link_colour st _ x p). }
    split; [|done]. unfold in_group in *. rewrite Hxc.
    apply (link_transfer st (placed st p)); [done| |done].
    intros z Hz Hzc. rewrite placed_get, decide_False; [done|].
    intros ->. apply Hx. by rewrite <- Hzc.
  - intros y Hy. unfold in_group in *. rewrite Hxc in Hy.
    apply (link_transfer (placed st p) st); [done| |done].
    intros z Hz Hzc. rewrite placed_get in Hzc.
    destruct (decide (z = p)) as [->|]; [|done].
    exfalso. apply Hnot. unfold in_group. by rewrite Hxc.
Qed.

(** X12: a move that returns keeps the board free of dead stones: if every
    stone belongs to a group with a liberty before the move, so does every
    stone after it (whichever neighbouring groups the sweep removed or
    spared). *)
Theorem returned_move_keeps_every_stone_alive st p n st' :
  wf_state st →
  no_dead_stone st →
  make_move p st = (Return n, st') →
  no_dead_stone st'.
Proof.
  intros Hwf Halive Hmove.
  destruct (make_move_returns st p n st' Hwf Hmove) as (Hp & Hf & [b0 Hb0]).
  destruct (make_move_success st p Hwf Hp Hf (ex_intro _ b0 Hb0))
    as (k & s2 & next & old & _ & _ & _ & H & Hsw & _ & _ & Hg2 & Hwf2).
  rewrite H in Hmove. injection Hmove as <- <-.
  assert (Hpt : get_state (placed st p) p = _turn st)
    by (rewrite placed_get, decide_True; done).
  intros x Hx. change (get_state s2 x ≠ FREE) in Hx.
  assert (Hxb : check_coordinates (goban st) x = true)
    by (rewrite <- Hg2; by apply wf_cells_stone).
  destruct (sweep_survivor _ _ _ _ _ x Hsw Hxb Hx) as (Hc & Hgroup & Hlib).
  assert (Hfinish : ∀ b, is_liberty s2 x b → ∃ b, is_liberty (with_turn s2 next) x b)
    by (intros b Hb; by exists b).
  destruct (get_group_spec (placed st p) x) as (G1 & B1 & _ & HG1 & _).
  destruct (decide (p ∈ G1)) as [Hin|Hnin].
  { (* x belongs to the group of the placed stone *)
    apply (Hfinish b0), Hlib. apply (is_liberty_in_group _ x p); [by apply HG1|done]. }
  assert (Hnot : ¬ in_group (placed st p) x p) by (by rewrite <- HG1).
  assert (Hxp : x ≠ p) by (intros ->; apply Hnot, rtc_refl).
  assert (Hxst : get_state st x ≠ FREE).
  { rewrite Hc, placed_get, decide_False in Hx; done. }
  destruct (placed_group_away st p x Hf Hxst Hnot) as (Hxc & Hto & Hfrom).
  destruct (Halive x Hxst) as (b & q & Hq & Ha & Hb).
  destruct (Hto q Hq) as [Hq1 Hqp].
  destruct (decide (b = p)) as [->|Hbp].
  2:{ (* a liberty other than the played point is still one *)
      apply (Hfinish b), Hlib. exists q. split; [done|]. split; [done|].
      rewrite placed_get, decide_False; done. }
  (* the played point was a liberty of the group: the group touches it *)
  assert (Hqb : check_coordinates (goban st) q = true)
    by (by apply (link_in_bounds st (get_state st x) x q)).
  assert (Hqc : get_state (placed st p) q = get_state (placed st p) x)
    by (by apply (link_colour (placed st p) (get_state (placed st p) x) x q)).
  assert (Hturn : get_state (placed st p) x ≠ _turn st).
  { intros Heq. apply Hnot. unfold in_group in *. eapply rtc_r; [exact Hq1|].
    split; [exact Ha|]. by rewrite Heq. }
  assert (Hq2 : in_group s2 x q) by (by apply Hgroup).
  assert (Hqc2 : get_state s2 q = get_state s2 x)
    by (by apply (link_colour s2 (get_state s2 x) x q)).
  destruct (sweep_examined _ _ _ _ _ Hsw) with (r := q) as [b' Hb'].
  - intros r Hr. by apply adjacent_in_bounds in Hr.
  - by apply adjacent_sym.
  - by rewrite Hqc2.
  - rewrite Hqc2, Hc. exact Hturn.
  - apply (Hfinish b'). by apply (is_liberty_in_group _ x q).
Qed.

Lemma empty_board_no_dead_stone g : no_dead_stone (GameState_init g).
Proof. intros x Hx. exfalso. apply Hx, init_all_free. Qed.

Lemma returned_move_keeps_every_stone_alive_witness :
  no_dead_stone (make_move (1, 1) board_2x2).2.
Proof.
  destruct (make_move (1, 1) board_2x2) as [o st'] eqn:Hmove.
  assert (Ho : o = Return 0) by (apply (f_equal fst) in Hmove; vm_compute in Hmove; congruence).
  subst o.
  apply (returned_move_keeps_every_stone_alive board_2x2 (1, 1) 0 st').
  - by_computation.
  - apply empty_board_no_dead_stone.
  - exact Hmove.
Defined.

(** ** Territory and winners *)

Lemma sum_sizes_same (Rs Rs' : list (gset coord)) :
  NoDup Rs → NoDup Rs' → (∀ R, R ∈ Rs ↔ R ∈ Rs') → sum_sizes Rs = sum_sizes Rs'.
Proof.
  intros Hnd Hnd' Hsame.
  assert (Hperm : Rs ≡ₚ Rs') by (by apply NoDup_Permutation).
  clear -Hperm. induction Hperm; simpl in *; lia.
Qed.

(** X13: counting the territory of two different colours gives the same
    state in either order: what [take_territory] adds for a colour depends on
    the cells only, not on the scores already credited. *)
Theorem take_territory_of_two_colours_commutes st c1 c2 v1 v2 :
  wf_cells st →
  c1 ≠ c2 →
  _score st !! c1 = Some v1 →
  _score st !! c2 = Some v2 →
  ∃ t1 t2,
    take_territory c1 st
    = (Return tt, with_score st (<[c1:=v1 + t1]> (_score st))) ∧
    take_territory c2 st
    = (Return tt, with_score st (<[c2:=v2 + t2]> (_score st))) ∧
    0 ≤ t1 ∧ 0 ≤ t2 ∧
    (take_territory c1 ;;; take_territory c2) st
    = (Return tt, with_score st (<[c2:=v2 + t2]> (<[c1:=v1 + t1]> (_score st)))) ∧
    (take_territory c2 ;;; take_territory c1) st
    = (take_territory c1 ;;; take_territory c2) st.
Proof.
  intros Hwf Hne H1 H2.
  assert (Hrun : ∀ c v sc, _score st !! c = Some v → sc !! c = Some v →
            ∃ Rs, NoDup Rs ∧ (∀ R, R ∈ Rs ↔ empty_region st R ∧ owned_by st c R) ∧
                  take_territory c (with_score st sc)
                  = (Return tt, with_score st (<[c:=v + sum_sizes Rs]> sc))).
  { intros c v sc Hv Hsc.
    destruct (take_territory_in_spec (with_score st sc) c
                (elements (get_free_points (with_score st sc))) v)
      as (Rs & Hnd & HRs & Hrun); [exact Hwf|by apply order_covers|exact Hsc|].
    exists Rs. split; [done|]. split; [exact HRs|]. by rewrite take_territory_order. }
  assert (Hst : ∀ sc, sc = _score st → with_score st sc = st)
    by (intros sc ->; by destruct st).
  destruct (Hrun c1 v1 (_score st) H1 H1) as (R1 & Hnd1 & HR1 & Hrun1).
  destruct (Hrun c2 v2 (_score st) H2 H2) as (R2 & Hnd2 & HR2 & Hrun2).
  rewrite Hst in Hrun1, Hrun2 by done.
  destruct (Hrun c2 v2 (<[c1:=v1 + sum_sizes R1]> (_score st)) H2) as (R2' & Hnd2' & HR2' & Hrun2').
  { by rewrite lookup_insert_ne. }
  destruct (Hrun c1 v1 (<[c2:=v2 + sum_sizes R2]> (_score st)) H1) as (R1' & Hnd1' & HR1' & Hrun1').
  { by rewrite lookup_insert_ne. }
  assert (sum_sizes R2' = sum_sizes R2) as E2
    by (apply sum_sizes_same; try done; intros R; by rewrite HR2, HR2').
  assert (sum_sizes R1' = sum_sizes R1) as E1
    by (apply sum_sizes_same; try done; intros R; by rewrite HR1, HR1').
  assert (Hpos : ∀ Rs : list (gset coord), 0 ≤ sum_sizes Rs).
  { intros Rs. induction Rs as [|R Rs IH]; simpl; lia. }
  exists (sum_sizes R1), (sum_sizes R2).
  split; [done|]. split; [done|]. split; [apply Hpos|]. split; [apply Hpos|].
  assert (H12 : (take_territory c1;;; take_territory c2) st
                = (Return tt, with_score st (<[c2:=v2 + sum_sizes R2]>
                                              (<[c1:=v1 + sum_sizes R1]> (_score st))))).
  { unfold bind at 1. rewrite Hrun1, Hrun2', E2. done. }
  split; [exact H12|]. rewrite H12.
  unfold bind at 1. rewrite Hrun2, Hrun1', E1. simpl.
  f_equal. unfold with_score. simpl. f_equal. apply insert_insert_ne. congruence.
Qed.

Lemma take_territory_of_two_colours_commutes_witness :
  (take_territory WHITE ;;; take_territory BLACK) board_territory
  = (take_territory BLACK ;;; take_territory WHITE) board_territory.
Proof.
  destruct (take_territory_of_two_colours_commutes board_territory BLACK WHITE 0 0)
    as (t1 & t2 & _ & _ & _ & _ & _ & H).
  - by_computation.
  - discriminate.
  - reflexivity.
  - reflexivity.
  - exact H.
Defined.

Lemma foldl_max_spec (l : list Z) (v : Z) :
  foldl Z.max v l ∈ v :: l ∧ ∀ x, x ∈ v :: l → x ≤ foldl Z.max v l.
Proof.
  revert v. induction l as [|a l IH]; intros v; simpl.
  - split; [by left|]. intros x [->|Hx%elem_of_nil]%elem_of_cons; [lia|done].
  - destruct (IH (Z.max v a)) as [Hin Hle]. split.
    + apply elem_of_cons in Hin as [Heq|Hin]; [|right; by right].
      rewrite Heq. destruct (Z.max_spec v a) as [[_ ->]|[_ ->]]; [right; by left|by left].
    + intros x [->|[->|Hx]%elem_of_cons]%elem_of_cons.
      * etrans; [apply (Z.le_max_l _ a)|]. apply Hle. by left.
      * etrans; [apply (Z.le_max_r v)|]. apply Hle. by left.
      * apply Hle. by right.
Qed.

Lemma elem_of_values (sc : gmap colour Z) v :
  v ∈ (map_to_list sc).*2 ↔ ∃ k, sc !! k = Some v.
Proof.
  rewrite list_elem_of_fmap. split.
  - intros ([k v'] & -> & H%elem_of_map_to_list). by exists k.
  - intros [k Hk]. exists (k, v). split; [done|]. by apply elem_of_map_to_list.
Qed.

Lemma elem_of_keys (sc : gmap colour Z) k :
  k ∈ (map_to_list sc).*1 ↔ is_Some (sc !! k).
Proof.
  rewrite list_elem_of_fmap. split.
  - intros ([k' v] & -> & H%elem_of_map_to_list). by exists v.
  - intros [v Hv]. exists (k, v). split; [done|]. by apply elem_of_map_to_list.
Qed.

Lemma get_winner_in_filter keys st m :
  py_max (map_to_list (_score st)).*2 = Return m →
  (∀ k, k ∈ keys → is_Some (_score st !! k)) →
  get_winner_in keys st
  = Return (List.filter (λ k, bool_decide (_score st !! k = Some m)) keys).
Proof.
  intros Hm Hkeys. induction keys as [|k keys IH]; [done|].
  cbn [get_winner_in foldr List.filter]. fold (get_winner_in keys st).
  rewrite IH by (intros k' Hk'; apply Hkeys; by right).
  destruct (Hkeys k) as [v Hv]; [by left|]. rewrite Hv, Hm. f_equal.
  destruct (decide (v = m)) as [->|Hne].
  - by rewrite Z.eqb_refl, bool_decide_eq_true_2.
  - replace (v =? m) with false by lia.
    rewrite bool_decide_eq_false_2; [done|]. by intros [=].
Qed.

(** X14: [get_winner] returns, each once, exactly the colours whose score is
    the greatest of all scores, whatever the order of the keys; there is at
    least one as soon as the score dictionary is not empty. *)
Theorem get_winner_are_the_colours_of_greatest_score st keys :
  keys ≡ₚ (map_to_list (_score st)).*1 →
  ∃ winners,
    get_winner_in keys st = Return winners ∧
    (∀ c, c ∈ winners ↔
          ∃ v, _score st !! c = Some v ∧
               ∀ c' v', _score st !! c' = Some v' → v' ≤ v) ∧
    NoDup winners ∧
    (_score st ≠ ∅ → winners ≠ []).
Proof.
  intros Hperm.
  assert (Hkeys : ∀ k, k ∈ keys ↔ is_Some (_score st !! k)).
  { intros k. by rewrite Hperm, elem_of_keys. }
  assert (Hnd : NoDup keys).
  { rewrite Hperm. apply NoDup_fst_map_to_list. }
  destruct ((map_to_list (_score st)).*2) as [|v0 vals] eqn:Evals.
  - (* no score at all *)
    assert (Hempty : ∀ k, _score st !! k = None).
    { intros k. destruct (_score st !! k) as [v|] eqn:Hk; [|done].
      assert (v ∈ (map_to_list (_score st)).*2) as Hv by (apply elem_of_values; eauto).
      rewrite Evals in Hv. by apply elem_of_nil in Hv. }
    assert (keys = []) as ->.
    { destruct keys as [|k ?]; [done|]. destruct (proj1 (Hkeys k)) as [v Hv]; [by left|].
      by rewrite Hempty in Hv. }
    exists []. split; [done|]. split; [|split; [constructor|]].
    + intros c. split; [by intros ?%elem_of_nil|]. intros (v & Hv & _). by rewrite Hempty in Hv.
    + intros Hne. exfalso. apply Hne. apply map_eq. intros k. by rewrite Hempty, lookup_empty.
  - destruct (foldl_max_spec vals v0) as [Hin Hle].
    set (m := foldl Z.max v0 vals) in *.
    assert (Hm : py_max (map_to_list (_score st)).*2 = Return m) by (by rewrite Evals).
    rewrite <- Evals in Hin, Hle.
    eexists. split; [apply (get_winner_in_filter keys st m Hm); intros k Hk; by apply Hkeys|].
    split; [|split].
    + intros c. rewrite list_elem_of_In, filter_In, <- list_elem_of_In, bool_decide_eq_true, Hkeys.
      split.
      * intros [_ Hc]. exists m. split; [done|]. intros c' v' Hv'.
        apply Hle, elem_of_values. eauto.
      * intros (v & Hv & Hmax). split; [eauto|]. rewrite Hv. f_equal.
        apply elem_of_values in Hin as [k Hk]. pose proof (Hmax k m Hk).
        assert (v ≤ m) by (apply Hle, elem_of_values; eauto). lia.
    + apply NoDup_ListNoDup, List.NoDup_filter, NoDup_ListNoDup, Hnd.
    + intros _ Hnil. apply elem_of_values in Hin as [k Hk].
      assert (k ∈ List.filter (λ k, bool_decide (_score st !! k = Some m)) keys) as Hkin.
      { apply list_elem_of_In, filter_In. split.
        - apply list_elem_of_In, Hkeys. eauto.
        - by apply bool_decide_eq_true. }
      rewrite Hnil in Hkin. by apply elem_of_nil in Hkin.
Qed.

Lemma get_winner_are_the_colours_of_greatest_score_witness :
  ∃ winners, get_winner_in [BLACK; GREY; WHITE] board_2x2 = Return winners ∧
             winners ≠ [].
Proof.
  destruct (get_winner_are_the_colours_of_greatest_score board_2x2 [BLACK; GREY; WHITE])
    as (winners & Hrun & _ & _ & Hne).
  - by_computation.
  - exists winners. split; [exact Hrun|]. apply Hne. by_computation.
Defined.

(** ** Reading back a written state *)

Lemma load_cells_state st rows (l : list coord) :
  (∀ xy, xy ∈ l →
         ∃ row, rows !! Z.to_nat xy.2 = Some row ∧
                String.get (Z.to_nat xy.1) row
                = Some (point_states_char (get_state st xy))) →
  ∀ s0, ∃ s, foldl (load_cell rows) (Return s0) l = Return s ∧
             goban s = goban s0 ∧ _turn s = _turn s0 ∧ _score s = _score s0 ∧
             (∀ q, is_Some (_state s !! q) ↔ is_Some (_state s0 !! q) ∨ q ∈ l) ∧
             ∀ q, get_state s q = if decide (q ∈ l) then get_state st q else get_state s0 q.
Proof.
  induction l as [|xy l IH] using rev_ind; intros Hl s0.
  { exists s0. repeat (split; [done|]). split.
    - intros q. split; [by left|]. by intros [?|?%elem_of_nil].
    - intros q. rewrite decide_False; [done|]. by intros ?%elem_of_nil. }
  destruct (IH (λ q Hq, Hl q (proj2 (elem_of_app _ _ _) (or_introl Hq))) s0)
    as (s & Hs & Hg & Ht & Hsc & Hd & Hc).
  destruct (Hl xy) as (row & Hrow & Hget); [apply elem_of_app; right; by left|].
  rewrite foldl_snoc, Hs. unfold load_cell.
  rewrite Hrow, Hget, point_states_colour_char.
  eexists. split; [done|]. simpl. repeat (split; [done|]). split.
  - intros q. destruct (decide (q = xy)) as [->|Hne].
    + rewrite lookup_insert_eq. split; [|eauto]. intros _. right.
      apply elem_of_app. right. by left.
    + rewrite lookup_insert_ne by done. rewrite Hd, elem_of_app, list_elem_of_singleton.
      tauto.
  - intros q. unfold get_state at 1. simpl. destruct (decide (q = xy)) as [->|Hne].
    + rewrite lookup_insert_eq. rewrite decide_True; [done|].
      apply elem_of_app. right. by left.
    + rewrite lookup_insert_ne by done. fold (get_state s q). rewrite Hc.
      destruct (decide (q ∈ l)) as [Hin|Hnin].
      * rewrite decide_True; [done|]. apply elem_of_app. by left.
      * rewrite decide_False; [done|].
        intros [?|Hq%list_elem_of_singleton]%elem_of_app; done.
Qed.

Lemma row_chars_ext st st' y xs tail :
  (∀ x, x ∈ xs → get_state st' (x, y) = get_state st (x, y)) →
  row_chars st' y xs tail = row_chars st y xs tail.
Proof.
  intros H. induction xs as [|x xs IH]; [done|]. cbn [row_chars foldr].
  rewrite H by (by left). f_equal. apply IH. intros x' Hx'. apply H. by right.
Qed.

Lemma convert_state_to_string_ext st st' :
  _size (goban st') = _size (goban st) →
  (∀ p, check_coordinates (goban st) p = true → get_state st' p = get_state st p) →
  convert_state_to_string st' = convert_state_to_string st.
Proof.
  intros Hsize Hcells. rewrite !convert_state_to_string_rows, Hsize.
  assert (H : ∀ ys, (∀ y, y ∈ ys → 0 ≤ y < (_size (goban st)).2) →
    foldr (λ y s, row_chars st' y (seqZ 0 (_size (goban st)).1) (String ";" s)) ""%string ys
    = foldr (λ y s, row_chars st y (seqZ 0 (_size (goban st)).1) (String ";" s)) ""%string ys).
  { induction ys as [|y ys IH]; intros Hys; [done|]. cbn [foldr].
    rewrite IH by (intros y' Hy'; apply Hys; by right).
    apply row_chars_ext. intros x Hx%elem_of_seqZ. apply Hcells.
    assert (0 ≤ y < (_size (goban st)).2) by (apply Hys; left).
    unfold check_coordinates. simpl. repeat (apply andb_true_intro; split); lia. }
  apply H. intros y Hy%elem_of_seqZ. lia.
Qed.

(** X15: reading back the text written for a state keeps the cells and
    nothing else: the state read is well formed and has the cells of the
    original, but Black is to move and every score is zero whatever they
    were; writing it again gives the same text. *)
Theorem reading_a_written_state_keeps_the_cells_only st :
  0 < (_size (goban st)).1 → 0 < (_size (goban st)).2 →
  ∃ st', convert_string_to_state (convert_state_to_string st) ";" = Return st' ∧
         wf_state st' ∧
         _turn st' = BLACK ∧
         (∀ c, c ∈ TURNS → _score st' !! c = Some 0) ∧
         convert_state_to_string st' = convert_state_to_string st.
Proof.
  destruct st as [[[W H]] m t sc]. simpl. intros HW HH.
  set (st := {| goban := {| _size := (W, H) |}; _state := m; _turn := t; _score := sc |}).
  rewrite convert_state_to_string_rows. unfold convert_string_to_state, split. simpl.
  rewrite split_rows. rewrite filter_rows by (rewrite seqZ_cons by lia; done).
  set (rows := map (λ y, row_chars st y (seqZ 0 W) "") (seqZ 0 H)).
  assert (Hrows : rows = row_chars st 0 (seqZ 0 W) "" :: map (λ y, row_chars st y (seqZ 0 W) "") (seqZ 1 (H - 1))).
  { unfold rows. rewrite (seqZ_cons 0 H) by lia. done. }
  destruct (load_cells_state st rows (board_points {| _size := (W, H) |}))
    with (s0 := GameState_init {| _size := (W, H) |}) as (s & Hs & Hg & Ht & Hsc & Hd & Hc).
  { intros [x y] Hxy. apply elem_of_board_points in Hxy.
    unfold check_coordinates in Hxy. simpl in *.
    repeat (apply andb_prop in Hxy as [Hxy ?]).
    exists (row_chars st y (seqZ 0 W) ""). split.
    - unfold rows. rewrite list_lookup_fmap, lookup_seqZ_lt by lia. simpl.
      do 3 f_equal. lia.
    - rewrite row_chars_get, lookup_seqZ_lt by lia. simpl. do 4 f_equal. lia. }
  pose proof (init_wf_state {| _size := (W, H) |}) as Hwf0.
  pose proof (init_scores {| _size := (W, H) |}) as Hs0.
  exists s. split; [|split; [|split; [|split]]].
  - assert (Hlen : length rows = Z.to_nat H)
      by (unfold rows; by rewrite length_map, length_seqZ).
    rewrite Hrows at 1. cbv beta iota.
    rewrite row_chars_length, length_seqZ, Hlen, !Z2Nat.id by lia.
    assert (Goban_init [W; H] = Return {| _size := (W, H) |}) as ->.
    { unfold Goban_init, check_size. simpl.
      replace (W <=? 0) with false by lia. replace (H <=? 0) with false by lia. done. }
    exact Hs.
  - destruct Hwf0 as (Hcells0 & Hturn0 & Hscore0). split; [|split].
    + pose proof (proj1 (wf_cells_iff _) Hcells0) as Hk. apply wf_cells_iff.
      intros q. rewrite Hd, Hg, elem_of_board_points. specialize (Hk q). tauto.
    + by rewrite Ht.
    + by rewrite Hsc.
  - by rewrite Ht.
  - intros c Hc'. rewrite Hsc. by apply Hs0.
  - rewrite <- convert_state_to_string_rows.
    apply convert_state_to_string_ext; [by rewrite Hg|].
    intros p Hp. rewrite Hc, decide_True; [done|]. by apply elem_of_board_points.
Qed.

Lemma reading_a_written_state_keeps_the_cells_only_witness :
  ∃ st', convert_string_to_state (convert_state_to_string board_two_dead_groups) ";"
         = Return st' ∧ _turn st' = BLACK.
Proof.
  destruct (reading_a_written_state_keeps_the_cells_only board_two_dead_groups)
    as (st' & Hrun & _ & Ht & _).
  - reflexivity.
  - reflexivity.
  - exists st'. split; [exact Hrun|exact Ht].
Defined.

(** ** The simple virtual player and check_liberties *)

Lemma set_state_undo st p c :
  _state st !! p = Some FREE →
  with_state (with_state st (<[p:=c]> (_state st)))
             (<[p:=FREE]> (_state (with_state st (<[p:=c]> (_state st))))) = st.
Proof.
  intros H. destruct st as [g m t sc]. unfold with_state. simpl in *.
  f_equal. rewrite insert_insert_eq. by apply insert_id.
Qed.

Lemma count_liberties_total st p : ∃ n, count_liberties st p = Some n ∧ 0 ≤ n.
Proof.
  destruct (decide (get_state st p = FREE)) as [Hf|Hf].
  - exists 1. by rewrite count_liberties_free.
  - destruct (count_liberties_spec st p Hf) as (n & Hn & Hcase).
    exists n. split; [done|]. lia.
Qed.

Lemma check_liberties_run st c point enemy_point :
  _state st !! point = Some FREE →
  ∃ n, count_liberties (with_state st (<[point:=c]> (_state st))) enemy_point = Some n ∧
       check_liberties c point enemy_point st = (Return n, st).
Proof.
  intros Hfree.
  destruct (count_liberties_total (with_state st (<[point:=c]> (_state st))) enemy_point)
    as (n & Hn & _).
  exists n. split; [done|].
  unfold check_liberties, bind, set_state, query, ret. rewrite Hn.
  by rewrite set_state_undo.
Qed.

Lemma free_move st p :
  wf_state st → check_coordinates (goban st) p = true → get_state st p = FREE →
  (suicide st p ∧
   make_move p st = (Raise (ValueError "This move leads to suicide"), st)) ∨
  (∃ n st', make_move p st = (Return n, st')).
Proof.
  intros Hwf Hp Hf.
  destruct (liberty_dec (placed st p) p) as [Hno|Hlib].
  - rewrite placed_get, decide_True by done. apply turn_not_free, Hwf.
  - left. split; [done|]. by apply make_move_suicide.
  - right. destruct (make_move_success st p Hwf Hp Hf Hlib)
      as (n & s2 & next & old & _ & _ & _ & H & _). eauto.
Qed.

Lemma returned_move_not_suicide st p n st' :
  wf_state st → make_move p st = (Return n, st') → ¬ suicide st p.
Proof.
  intros Hwf Hmove Hs.
  destruct (make_move_returns st p n st' Hwf Hmove) as (_ & _ & b & Hb).
  by apply (Hs b).
Qed.

Lemma play_return {S : Type} st p (o : S) n st' :
  make_move p st = (Return n, st') →
  play p o st = (Return (inl (true, Some p, n)), st').
Proof. intros H. unfold play. by rewrite H. Qed.

Lemma play_refused {S : Type} st p (o : S) msg st' :
  make_move p st = (Raise (ValueError msg), st') →
  play p o st = (Return (inr o), st').
Proof. intros H. unfold play. by rewrite H. Qed.

Lemma for_each_return {A S R : Type} (body : A → S → M (R + S)) item items s st r st' :
  body item s st = (Return (inl r), st') →
  for_each body (item :: items) s st = (Return (inl r), st').
Proof. intros H. cbn [for_each]. unfold bind. by rewrite H. Qed.

Lemma for_each_next {A S R : Type} (body : A → S → M (R + S)) item items s st s' st' :
  body item s st = (Return (inr s'), st') →
  for_each body (item :: items) s st = for_each body items s' st'.
Proof. intros H. cbn [for_each]. unfold bind. by rewrite H. Qed.

Lemma simple_loop st (l : list coord) :
  wf_state st →
  (∀ p, p ∈ l → check_coordinates (goban st) p = true ∧ get_state st p = FREE) →
  (∃ l1 p l2 n st',
      l = l1 ++ p :: l2 ∧ (∀ q, q ∈ l1 → suicide st q) ∧
      make_move p st = (Return n, st') ∧
      for_each (λ point (_ : unit), play point tt) l tt st
      = (Return (inl (true, Some p, n)), st')) ∨
  ((∀ q, q ∈ l → suicide st q) ∧
   for_each (λ point (_ : unit), play point tt) l tt st = (Return (inr tt), st)).
Proof.
  intros Hwf. induction l as [|p l IH]; intros Hl.
  { right. split; [|done]. by intros q ?%elem_of_nil. }
  destruct (Hl p) as [Hp Hf]; [by left|].
  destruct (free_move st p Hwf Hp Hf) as [[Hs Hm]|(n & st' & Hm)].
  - rewrite (for_each_next _ _ _ _ _ tt st) by (by eapply play_refused).
    destruct IH as [(l1 & p' & l2 & n & st' & -> & Hl1 & Hmove & Hrun)|[Hall Hrun]].
    + intros q Hq. apply Hl. by right.
    + left. exists (p :: l1), p', l2, n, st'. split; [done|]. split; [|done].
      intros q [->|Hq]%elem_of_cons; [done|by apply Hl1].
    + right. split; [|exact Hrun]. intros q [->|Hq]%elem_of_cons; [done|by apply Hall].
  - left. exists [], p, l, n, st'. split; [done|]. split; [by intros q ?%elem_of_nil|].
    split; [done|]. by apply for_each_return, play_return.
Qed.

(** X16: the simple virtual player, asked to move without a time limit,
    answers for a player who is not to move with [(False, None, 0)] and
    leaves the state alone; for the player to move it plays the first point
    of its shuffled list of free points that is not a suicide, and passes,
    leaving the state alone, only when every free point is one. *)
Theorem simple_player_plays_the_first_legal_point st c (free_points : list coord) :
  wf_state st → free_points ≡ₚ elements (get_free_points st) →
  if decide (c = _turn st) then
    (∃ l1 p l2 n st',
        free_points = l1 ++ p :: l2 ∧ (∀ q, q ∈ l1 → suicide st q) ∧
        make_move p st = (Return n, st') ∧
        SimpleVirtualPlayer.try_make_move c free_points st
        = (Return (true, Some p, n), st')) ∨
    ((∀ q, check_coordinates (goban st) q = true → get_state st q = FREE →
           suicide st q) ∧
     SimpleVirtualPlayer.try_make_move c free_points st = (Return (false, None, 0), st))
  else
    SimpleVirtualPlayer.try_make_move c free_points st = (Return (false, None, 0), st).
Proof.
  intros Hwf Hperm.
  assert (Htry : SimpleVirtualPlayer.try_make_move c free_points st
                 = if bool_decide (c = _turn st)
                   then SimpleVirtualPlayer.find_point_to_move free_points st
                   else (Return (false, None, 0), st)).
  { unfold SimpleVirtualPlayer.try_make_move, bind, get_self. by destruct (bool_decide _). }
  rewrite Htry. clear Htry.
  destruct (decide (c = _turn st)) as [->|Hne].
  2:{ by rewrite bool_decide_eq_false_2. }
  rewrite bool_decide_eq_true_2 by done.
  unfold SimpleVirtualPlayer.find_point_to_move, bind.
  assert (Hfree : ∀ p, p ∈ free_points ↔
                       check_coordinates (goban st) p = true ∧ get_state st p = FREE).
  { intros p. rewrite Hperm, elem_of_elements. apply free_points_wf, Hwf. }
  destruct (simple_loop st free_points Hwf (λ p Hp, proj1 (Hfree p) Hp))
    as [(l1 & p & l2 & n & st' & Hl & Hl1 & Hmove & Hrun)|[Hall Hrun]]; rewrite Hrun.
  - left. by exists l1, p, l2, n, st'.
  - right. split; [|done]. intros q Hq Hf. apply Hall, Hfree. done.
Qed.

Lemma simple_player_plays_the_first_legal_point_witness :
  ∃ p n st',
    SimpleVirtualPlayer.try_make_move BLACK [(1, 0); (0, 0)] board_two_dead_groups
    = (Return (true, Some p, n), st').
Proof.
  pose proof (simple_player_plays_the_first_legal_point board_two_dead_groups BLACK
                [(1, 0); (0, 0)]) as H.
  destruct H as [(l1 & p & l2 & n & st' & _ & _ & _ & Hrun)|[_ Hrun]].
  - by_computation.
  - by_computation.
  - by exists p, n, st'.
  - vm_compute in Hrun. discriminate Hrun.
Defined.

(** X17: [check_liberties] at an empty cell of the board, asked about a
    point of the board, counts on the tentative board, with a stone of the
    player's colour at the cell, and puts the state back exactly as it was:
    the count is the number of liberties of the group of the point asked
    about, and 1 when that point is itself empty. *)
Theorem check_liberties_counts_on_the_tentative_board st c point enemy_point :
  wf_cells st → check_coordinates (goban st) point = true → get_state st point = FREE →
  check_coordinates (goban st) enemy_point = true →
  let tentative := with_state st (<[point:=c]> (_state st)) in
  ∃ n, check_liberties c point enemy_point st = (Return n, st) ∧
       (get_state tentative enemy_point = FREE → n = 1) ∧
       (get_state tentative enemy_point ≠ FREE →
        ∃ liberties : gset coord,
          n = Z.of_nat (size liberties) ∧
          ∀ b, b ∈ liberties ↔ is_liberty tentative enemy_point b).
Proof.
  intros Hwf Hp Hf _ tentative.
  destruct (check_liberties_run st c point enemy_point) as (n & Hn & Hrun).
  { by apply wf_lookup_free. }
  exists n. split; [done|]. fold tentative in Hn. split.
  - intros Hfree. rewrite count_liberties_free in Hn by done. by injection Hn as <-.
  - intros Hstone. destruct (get_liberties_spec tentative enemy_point Hstone)
      as (liberties & Hlib & Hspec).
    exists liberties. split; [|done].
    unfold count_liberties in Hn. rewrite Hlib in Hn. simpl in Hn. by injection Hn as <-.
Qed.

Lemma check_liberties_counts_on_the_tentative_board_witness :
  ∃ n, check_liberties BLACK (1, 0) (0, 0) board_corner_capture
       = (Return n, board_corner_capture).
Proof.
  destruct (check_liberties_counts_on_the_tentative_board
              board_corner_capture BLACK (1, 0) (0, 0)) as (n & Hrun & _).
  - by_computation.
  - reflexivity.
  - reflexivity.
  - reflexivity.
  - by exists n.
Defined.

(** ** The clever virtual player *)

Lemma py_any_run {A : Type} (test : A → M bool) (f : A → bool) (l : list A) st :
  (∀ p, p ∈ l → test p st = (Return (f p), st)) →
  py_any test l st = (Return (existsb f l), st).
Proof.
  induction l as [|p l IH]; intros H; [done|].
  cbn [py_any existsb]. unfold bind. rewrite H by (by left).
  destruct (f p); [done|]. simpl. apply IH. intros q Hq. apply H. by right.
Qed.

Lemma py_all_run {A : Type} (test : A → M bool) (f : A → bool) (l : list A) st :
  (∀ p, p ∈ l → test p st = (Return (f p), st)) →
  py_all test l st = (Return (forallb f l), st).
Proof.
  induction l as [|p l IH]; intros H; [done|].
  cbn [py_all forallb]. unfold bind. rewrite H by (by left).
  destruct (f p); [|done]. simpl. apply IH. intros q Hq. apply H. by right.
Qed.

Lemma count_liberties_count st p : count_liberties st p = Some (liberties_count st p).
Proof.
  unfold liberties_count. destruct (count_liberties_total st p) as (n & -> & _). done.
Qed.

Lemma query_count st p :
  query (λ st, count_liberties st p) st = (Return (liberties_count st p), st).
Proof. unfold query. by rewrite count_liberties_count. Qed.

Lemma with_state_same st : with_state st (_state st) = st.
Proof. by destruct st. Qed.

Lemma lookup_fill (c : colour) (l : list coord) (m : gmap coord colour) q :
  foldl (λ (m : gmap coord colour) p, <[p:=c]> m) m l !! q
  = if decide (q ∈ l) then Some c else m !! q.
Proof.
  revert m. induction l as [|x l IH]; intros m; cbn [foldl].
  - rewrite decide_False; [done|]. by intros ?%elem_of_nil.
  - rewrite IH. destruct (decide (q ∈ l)) as [Hl|Hl].
    + rewrite decide_True; [done|by right].
    + destruct (decide (q = x)) as [->|Hne].
      * rewrite lookup_insert_eq. rewrite decide_True; [done|by left].
      * rewrite lookup_insert_ne by done. rewrite decide_False; [done|].
        by intros [?|?]%elem_of_cons.
Qed.

Lemma free_visited_run (visited : list coord) s :
  free_visited visited s
  = (Return tt, with_state s (foldl (λ (m : gmap coord colour) p, <[p:=FREE]> m)
                                    (_state s) visited)).
Proof.
  revert s. induction visited as [|v visited IH]; intros s.
  - simpl. unfold ret. by rewrite with_state_same.
  - cbn [free_visited foldl]. unfold bind, set_state. rewrite IH. done.
Qed.

Lemma free_visited_tried st c (visited : list coord) :
  (∀ v, v ∈ visited → _state st !! v = Some FREE) →
  free_visited visited (tried st c visited) = (Return tt, st).
Proof.
  intros H. rewrite free_visited_run. f_equal.
  destruct st as [g m t sc]. unfold tried, with_state. simpl in *. f_equal.
  apply map_eq. intros q. rewrite lookup_clear, lookup_fill.
  destruct (decide (q ∈ visited)) as [Hq|Hq]; [|done]. symmetry. by apply H.
Qed.

Lemma tried_snoc st c visited x :
  with_state (tried st c visited) (<[x:=c]> (_state (tried st c visited)))
  = tried st c (visited ++ [x]).
Proof. unfold tried, with_state. simpl. by rewrite foldl_snoc. Qed.

Lemma tried_lookup st c visited q :
  _state (tried st c visited) !! q
  = if decide (q ∈ visited) then Some c else _state st !! q.
Proof. unfold tried. simpl. apply lookup_fill. Qed.

Lemma get_next_points_length g p : (length (get_next_points g p) ≤ 8)%nat.
Proof.
  unfold get_next_points, product3. cbn [flat_map map app].
  cbn [fst snd Z.eqb negb orb andb].
  repeat match goal with
         | |- context [check_coordinates g ?q] => destruct (check_coordinates g q)
         end; cbn [andb app length]; lia.
Qed.

Lemma get_next_points_in_bounds g p q :
  q ∈ get_next_points g p → check_coordinates g q = true.
Proof. intros H. by apply elem_of_get_next_points in H as [? _]. Qed.

Lemma foldl_push {A : Type} (cond : A → bool) (l stack : list A) :
  foldl (λ acc x, if cond x then x :: acc else acc) stack l
  = rev (List.filter cond l) ++ stack.
Proof.
  revert stack. induction l as [|x l IH]; intros stack; [done|].
  cbn [foldl List.filter]. rewrite IH. destruct (cond x); [|done].
  cbn [rev]. by rewrite <- app_assoc.
Qed.

Lemma moves_bonus_le s stack : (moves_bonus s stack ≤ 8)%nat.
Proof. destruct stack as [|x ?]; simpl; [lia|]. destruct (decide _); lia. Qed.

Lemma free_points_set s x c :
  c ≠ FREE →
  get_free_points (with_state s (<[x:=c]> (_state s))) = get_free_points s ∖ {[x]}.
Proof.
  intros Hc. apply set_eq. intros q.
  rewrite elem_of_difference, !free_points_spec, not_elem_of_singleton. simpl.
  destruct (decide (q = x)) as [->|Hne].
  - rewrite lookup_insert_eq. split; [intros [=]; done|intros [_ ?]; done].
  - rewrite lookup_insert_ne by done. tauto.
Qed.

Lemma free_points_bound st :
  wf_cells st →
  (size (get_free_points st)
   ≤ Z.to_nat (_size (goban st)).1 * Z.to_nat (_size (goban st)).2)%nat.
Proof.
  intros Hwf. rewrite <- board_points_length.
  etrans; [|apply size_list_to_set_le]. apply subseteq_size.
  unfold wf_cells in Hwf. rewrite <- Hwf. unfold get_free_points.
  apply subseteq_dom, map_filter_subseteq.
Qed.

Lemma check_moves_loop_restores st c :
  wf_cells st → c ≠ FREE →
  ∀ fuel (stack visited : list coord),
    (∀ v, v ∈ visited → _state st !! v = Some FREE) →
    (∀ x, x ∈ stack → _state st !! x = Some FREE) →
    (moves_measure (tried st c visited) stack < fuel)%nat →
    ∃ n, check_moves_loop fuel c stack visited (tried st c visited) = (Return n, st).
Proof.
  intros Hwf Hc. induction fuel as [|fuel IH]; intros stack visited Hvis Hstack Hfuel; [lia|].
  destruct stack as [|x rest].
  { exists 0. cbn [check_moves_loop]. unfold bind. by rewrite free_visited_tried. }
  cbn [check_moves_loop]. unfold bind at 1, set_state at 1. rewrite tried_snoc.
  assert (Hvis' : ∀ v, v ∈ visited ++ [x] → _state st !! v = Some FREE).
  { intros v [Hv|Hv%list_elem_of_singleton]%elem_of_app; [by apply Hvis|].
    subst v. apply Hstack. by left. }
  set (s1 := tried st c (visited ++ [x])) in *.
  unfold bind at 1, get_self at 1.
  unfold bind at 1.
  rewrite (py_any_run _ (λ p, liberties_count s1 p =? 0)).
  2:{ intros p _. unfold bind. by rewrite query_count. }
  destruct (existsb _ _).
  { eexists. unfold bind, s1. by rewrite free_visited_tried. }
  rewrite foldl_push.
  set (cond := λ np, bool_decide (get_state s1 np = FREE) && next_to_a_rival c s1 np).
  assert (Hpushed : ∀ np, np ∈ List.filter cond (get_next_points (goban s1) x) →
                          _state st !! np = Some FREE ∧ _state s1 !! np = Some FREE).
  { intros np Hin. apply list_elem_of_In, filter_In in Hin as [Hnp Hcond].
    apply list_elem_of_In, get_next_points_in_bounds in Hnp.
    unfold cond in Hcond. apply andb_prop in Hcond as [Hfree%bool_decide_eq_true _].
    change (goban s1) with (goban st) in Hnp.
    assert (Hdom : is_Some (_state st !! np)).
    { apply elem_of_dom. unfold wf_cells in Hwf. rewrite Hwf.
      by apply elem_of_list_to_set, elem_of_board_points. }
    destruct Hdom as [v Hv]. unfold get_state in Hfree. unfold s1 in *.
    rewrite tried_lookup in *. destruct (decide (np ∈ visited ++ [x])).
    - simpl in Hfree. done.
    - rewrite Hv in Hfree. simpl in Hfree. subst v. done. }
  apply IH; [done| |].
  - intros y [Hy|Hy]%elem_of_app.
    + apply (proj1 (elem_of_rev _ _)) in Hy. by destruct (Hpushed y Hy).
    + apply Hstack. by right.
  - fold s1.
    pose proof (get_next_points_length (goban s1) x) as Hlen.
    pose proof (filter_length_le cond (get_next_points (goban s1) x)) as Hlen'.
    assert (Hs1 : get_free_points s1 = get_free_points (tried st c visited) ∖ {[x]}).
    { unfold s1. rewrite <- tried_snoc. by apply free_points_set. }
    unfold moves_measure in Hfuel |- *. rewrite Hs1. rewrite length_app, length_rev.
    cbn [length moves_bonus] in Hfuel.
    assert (Hle : (size (get_free_points (tried st c visited) ∖ {[x]})
                   ≤ size (get_free_points (tried st c visited)))%nat)
      by (apply subseteq_size; set_solver).
    destruct (decide (_state (tried st c visited) !! x = Some FREE)) as [Hx|Hx].
    + assert (Hsz : size (get_free_points (tried st c visited))
                    = S (size (get_free_points (tried st c visited) ∖ {[x]}))).
      { assert (Hsub : ({[x]} : gset coord) ⊆ get_free_points (tried st c visited))
          by (apply singleton_subseteq_l, free_points_spec, Hx).
        rewrite (size_difference _ _ Hsub).
        apply subseteq_size in Hsub. rewrite size_singleton in *. lia. }
      pose proof (moves_bonus_le s1
        (rev (List.filter cond (get_next_points (goban s1) x)) ++ rest)).
      lia.
    + assert (Hb : (length (List.filter cond (get_next_points (goban s1) x)) = 0
                     ∧ moves_bonus s1
                         (rev (List.filter cond (get_next_points (goban s1) x)) ++ rest) ≤ 8
                     ∨ moves_bonus s1
                         (rev (List.filter cond (get_next_points (goban s1) x)) ++ rest) = 0)%nat).
      { destruct (rev (List.filter cond (get_next_points (goban s1) x))) as [|h t] eqn:Hrev.
        - left. split; [|apply moves_bonus_le].
          by rewrite <- length_rev, Hrev.
        - right. assert (Hh : h ∈ List.filter cond (get_next_points (goban s1) x)).
          { apply (proj1 (elem_of_rev _ _)). rewrite Hrev. by left. }
          apply Hpushed in Hh as [_ Hh]. cbn [app moves_bonus].
          by rewrite decide_True. }
      lia.
Qed.

Lemma check_moves_restores st c point :
  wf_cells st → c ≠ FREE → _state st !! point = Some FREE →
  ∃ n, check_moves_to_take_stones c point st = (Return n, st).
Proof.
  intros Hwf Hc Hpoint. unfold check_moves_to_take_stones, bind, get_self.
  assert (Heq : tried st c [] = st) by apply with_state_same.
  destruct (check_moves_loop_restores st c Hwf Hc (2 * loop_fuel (goban st)) [point] [])
    as (n & Hn).
  - by intros v ?%elem_of_nil.
  - by intros x ->%list_elem_of_singleton.
  - unfold moves_measure. rewrite Heq.
    pose proof (free_points_bound st Hwf). cbn [length moves_bonus].
    rewrite decide_True by done. unfold loop_fuel. lia.
  - rewrite Heq in Hn. by exists n.
Qed.

Lemma py_any_keeps {A : Type} (test : A → M bool) (l : list A) st :
  (∀ p, p ∈ l → ∃ b, test p st = (Return b, st)) →
  ∃ b, py_any test l st = (Return b, st).
Proof.
  induction l as [|p l IH]; intros H; [by exists false|].
  cbn [py_any]. unfold bind. destruct (H p) as [b Hb]; [by left|]. rewrite Hb.
  destruct b; [by exists true|]. apply IH. intros q Hq. apply H. by right.
Qed.

Lemma set_state_free st p :
  _state st !! p = Some FREE → set_state p FREE st = (Return tt, st).
Proof.
  intros H. unfold set_state. f_equal. destruct st as [g m t sc].
  unfold with_state. simpl in *. f_equal. by apply insert_id.
Qed.

Lemma set_state_back st p c :
  _state st !! p = Some FREE →
  set_state p FREE (with_state st (<[p:=c]> (_state st))) = (Return tt, st).
Proof. intros H. unfold set_state. f_equal. by apply set_state_undo. Qed.

Lemma elem_of_insert_reverse {A : Type} (key : A → Z) (x y : A) (l : list A) :
  y ∈ insert_reverse key x l ↔ y = x ∨ y ∈ l.
Proof.
  induction l as [|z l IH]; cbn [insert_reverse].
  - rewrite list_elem_of_singleton. split; [by left|]. by intros [?|?%elem_of_nil].
  - destruct (key x <? key z).
    + rewrite !elem_of_cons, IH. tauto.
    + rewrite !elem_of_cons. tauto.
Qed.

Lemma elem_of_sorted_reverse {A : Type} (key : A → Z) (y : A) (l : list A) :
  y ∈ sorted_reverse key l ↔ y ∈ l.
Proof.
  induction l as [|x l IH]; [done|].
  unfold sorted_reverse. cbn [foldr]. fold (sorted_reverse key l).
  by rewrite elem_of_insert_reverse, IH, elem_of_cons.
Qed.

Lemma count_one_unique s p :
  get_state s p ≠ FREE →
  liberties_count s p = 1 ↔ ∃ b, ∀ b', is_liberty s p b' ↔ b' = b.
Proof.
  intros Hp. destruct (get_liberties_spec s p Hp) as (L & HL & Hspec).
  unfold liberties_count, count_liberties. rewrite HL. simpl. split.
  - intros Hn. assert (Hsize : size L = 1%nat) by lia.
    apply size_1_elem_of in Hsize as [b Hb]. exists b. intros b'.
    rewrite <- Hspec. rewrite Hb. apply elem_of_singleton.
  - intros [b Hb]. assert (L = {[b]}) as ->.
    { apply set_eq. intros b'. by rewrite Hspec, Hb, elem_of_singleton. }
    by rewrite size_singleton.
Qed.

Lemma count_zero_dead s q :
  liberties_count s q = 0 ↔ get_state s q ≠ FREE ∧ ∀ b, ¬ is_liberty s q b.
Proof.
  destruct (decide (get_state s q = FREE)) as [Hf|Hf].
  - unfold liberties_count. rewrite count_liberties_free by done. simpl.
    split; [done|]. by intros [? _].
  - destruct (count_liberties_spec s q Hf) as (n & Hn & Hcase).
    unfold liberties_count. rewrite Hn. simpl. split.
    + intros ->. split; [done|]. destruct Hcase as [[_ H]|[H _]]; [done|lia].
    + intros [_ Hnone]. destruct Hcase as [[H _]|[_ [b Hb]]]; [done|].
      by destruct (Hnone b).
Qed.

Section clever_player.

Context (st : GameState) (fp : list coord).
Hypothesis Hwf : wf_state st.
Hypothesis Hfp : ∀ p, p ∈ fp → check_coordinates (goban st) p = true ∧ get_state st p = FREE.

Lemma free_point_lookup p : p ∈ fp → _state st !! p = Some FREE.
Proof. intros Hp. destruct (Hfp p Hp). apply wf_lookup_free; [apply Hwf|done|done]. Qed.

Lemma placed_stone p : get_state (placed st p) p ≠ FREE.
Proof. rewrite placed_get, decide_True by done. apply turn_not_free, Hwf. Qed.

(** The test of the second loop that forbids a point. *)
Lemma self_atari_counts p :
  self_atari st p ↔
  liberties_count (placed st p) p = 1 ∧
  forallb (λ q, negb (liberties_count (placed st p) q =? 0))
          (neighbour_points (goban st) p) = true.
Proof.
  unfold self_atari. rewrite <- (count_one_unique _ _ (placed_stone p)).
  rewrite forallb_forall. apply and_iff_compat_l. split.
  - intros H q Hq%list_elem_of_In. apply negb_true_iff, Z.eqb_neq.
    intros [Hstone Hnone]%count_zero_dead.
    destruct (H q Hq Hstone) as [b Hb]. by apply (Hnone b).
  - intros H q Hq Hstone. apply list_elem_of_In, H, negb_true_iff, Z.eqb_neq in Hq.
    destruct (liberty_dec (placed st p) q Hstone) as [Hnone|Hlib]; [|done].
    destruct Hq. by apply count_zero_dead.
Qed.

Section covered.

Context (covered : list coord).

Lemma ok_locals_aim p l :
  ok_locals st fp covered l → ok_locals st fp covered (CleverVirtualPlayer.aim p l).
Proof. done. Qed.

Lemma ok_locals_forbid p l :
  rejected st p → ok_locals st fp covered l →
  ok_locals st fp covered (CleverVirtualPlayer.forbid p l).
Proof.
  intros Hp (Hf & Hm & Hc). split; [|split; [done|]]; simpl.
  - intros q [Hq|Hq%list_elem_of_singleton]%elem_of_app; [by apply Hf|by subst q].
  - intros q Hq Ha. apply elem_of_app. left. by apply Hc.
Qed.

Lemma ok_locals_add_move n p l :
  p ∈ fp → ¬ self_atari st p → ok_locals st fp covered l →
  ok_locals st fp covered (CleverVirtualPlayer.add_move (n, p) l).
Proof.
  intros Hp Hna (Hf & Hm & Hc). split; [done|split; [|done]]. simpl.
  intros q [Hq|Hq%list_elem_of_singleton]%elem_of_app; [by apply Hm|by subst q].
Qed.

Lemma ok_locals_cover p l :
  (self_atari st p → p ∈ CleverVirtualPlayer.forbidden_points l) →
  ok_locals st fp covered l → ok_locals st fp (p :: covered) l.
Proof.
  intros Hp (Hf & Hm & Hc). split; [done|split; [done|]].
  intros q [->|Hq]%elem_of_cons; [done|by apply Hc].
Qed.

Lemma ret_sound l :
  ok_locals st fp covered l → sound_from st fp covered st (ret (inr l)).
Proof. intros Hl. right. by exists l. Qed.

Lemma sound_bind {A : Type} (m : M A) k a s s' :
  m s = (Return a, s') → sound_from st fp covered s' (k a) →
  sound_from st fp covered s (bind m k).
Proof. intros Hm. unfold sound_from, bind. by rewrite Hm. Qed.

Lemma play_sound p l :
  p ∈ fp → ¬ self_atari st p → ok_locals st fp covered l →
  sound_from st fp covered st (play p (CleverVirtualPlayer.forbid p l)).
Proof.
  intros Hp Hna Hl. destruct (Hfp p Hp) as [Hb Hf].
  destruct (free_move st p Hwf Hb Hf) as [[Hs Hm]|(n & st' & Hm)].
  - right. exists (CleverVirtualPlayer.forbid p l). split.
    + apply ok_locals_forbid; [by left|done].
    + by eapply play_refused.
  - left. exists p, n, st'. split; [done|]. split; [done|]. split; [done|].
    by apply play_return.
Qed.

Lemma for_each_sound {A : Type} (body : A → CleverVirtualPlayer.locals →
                                       M (move_result + CleverVirtualPlayer.locals))
    (items : list A) l :
  (∀ x l, x ∈ items → ok_locals st fp covered l → sound_from st fp covered st (body x l)) →
  ok_locals st fp covered l → sound_from st fp covered st (for_each body items l).
Proof.
  revert l. induction items as [|x items IH]; intros l Hbody Hl.
  { right. by exists l. }
  destruct (Hbody x l) as [(p & n & st' & Hp & Hna & Hm & Hrun)|(l' & Hl' & Hrun)];
    [by left|done| |].
  - left. exists p, n, st'. split; [done|]. split; [done|]. split; [done|].
    by apply for_each_return.
  - unfold sound_from. rewrite (for_each_next _ _ _ _ _ l' st) by done.
    apply IH; [|done]. intros y l0 Hy. apply Hbody. by right.
Qed.

Lemma capture_tier_sound p l :
  p ∈ fp → ok_locals st fp covered l →
  sound_from st fp covered st (CleverVirtualPlayer.capture_tier (_turn st) p l).
Proof.
  intros Hp Hl. unfold CleverVirtualPlayer.capture_tier.
  destruct (bool_decide _); [|by apply ret_sound, ok_locals_aim].
  eapply sound_bind; [reflexivity|].
  eapply sound_bind.
  { apply (py_any_run _ (λ q, bool_decide (get_state st q ≠ _turn st)
                              && (liberties_count (placed st p) q =? 0))).
    intros q _. unfold bind, get_self. destruct (bool_decide _); [|done].
    destruct (check_liberties_run st (_turn st) p q (free_point_lookup p Hp))
      as (n & Hn & ->).
    fold (placed st p) in Hn. rewrite count_liberties_count in Hn.
    injection Hn as <-. done. }
  destruct (existsb _ _) eqn:Hfound; [|by apply ret_sound, ok_locals_aim].
  apply play_sound; [done| |by apply ok_locals_aim].
  apply existsb_exists in Hfound as (q & Hq%list_elem_of_In & Hdead).
  apply andb_prop in Hdead as [_ Hdead%Z.eqb_eq].
  apply count_zero_dead in Hdead as [Hstone Hnone].
  intros [_ Ha]. destruct (Ha q Hq Hstone) as [b Hb]. by apply (Hnone b).
Qed.

Lemma rival_keeps q :
  ∃ b, (s <- get_self ;;
        if bool_decide (get_state s q = _turn st) then
          k <- query (λ st, count_liberties st q) ;; ret (k =? 1)
        else ret false) st = (Return b, st).
Proof.
  unfold bind, get_self. destruct (bool_decide _); [|by eexists].
  rewrite query_count. by eexists.
Qed.

Lemma pop_tier_sound mv l :
  mv.2 ∈ fp → ¬ self_atari st mv.2 → ok_locals st fp covered l →
  sound_from st fp covered st (CleverVirtualPlayer.pop_tier mv l).
Proof.
  intros Hp Hna Hl. unfold CleverVirtualPlayer.pop_tier.
  destruct (play_sound mv.2 (CleverVirtualPlayer.aim mv.2 l) Hp Hna)
    as [(p & n & st' & Hin & Hna' & Hm & Hrun)|(l' & Hl' & Hrun)];
    [by apply ok_locals_aim| |].
  - left. exists p, n, st'. split; [done|]. split; [done|]. split; [done|].
    unfold bind. by rewrite Hrun.
  - eapply sound_bind; [exact Hrun|].
    eapply sound_bind; [by apply set_state_free, free_point_lookup|].
    by apply ret_sound.
Qed.

Lemma attack_tier_sound p l :
  p ∈ fp → ok_locals st fp covered l →
  sound_from st fp covered st (CleverVirtualPlayer.attack_tier (_turn st) p l).
Proof.
  intros Hp Hl. unfold CleverVirtualPlayer.attack_tier.
  destruct (bool_decide _); [|by apply ret_sound].
  eapply sound_bind; [reflexivity|].
  destruct (next_to_a_rival _ _ _); [|by apply ret_sound].
  destruct (check_liberties_run st (_turn st) p p (free_point_lookup p Hp))
    as (n & Hn & Hrun).
  fold (placed st p) in Hn. rewrite count_liberties_count in Hn. injection Hn as <-.
  eapply sound_bind; [exact Hrun|].
  destruct (1 <? _) eqn:Hmany; [|by apply ret_sound].
  apply play_sound; [done| |by apply ok_locals_aim].
  intros [Hone _]%self_atari_counts. lia.
Qed.

End covered.

Lemma rescue_tier_sound covered p l :
  p ∈ fp → ok_locals st fp covered l →
  sound_from st fp (p :: covered) st (CleverVirtualPlayer.rescue_tier (_turn st) p l).
Proof.
  intros Hp Hl. pose proof (free_point_lookup p Hp) as Hlookup.
  unfold CleverVirtualPlayer.rescue_tier.
  destruct (bool_decide _) eqn:Hforbidden.
  2:{ apply ret_sound, ok_locals_cover; [|done]. intros _.
      apply bool_decide_eq_false in Hforbidden.
      by destruct (decide (p ∈ CleverVirtualPlayer.forbidden_points l)). }
  eapply sound_bind; [reflexivity|]. fold (placed st p).
  eapply sound_bind; [apply query_count|].
  eapply sound_bind; [reflexivity|]. change (goban (placed st p)) with (goban st).
  assert (Hrest : ¬ self_atari st p →
    sound_from st fp (p :: covered) (placed st p)
    (set_state p FREE;;;
     st0 <- get_self;;
     found <- py_any (λ p0, st1 <- get_self;;
                            if bool_decide (get_state st1 p0 = _turn st)
                            then k <- query (λ st2, count_liberties st2 p0);; ret (k =? 1)
                            else ret false)
                     (neighbour_points (goban st0) p);;
     if found : bool
     then play p (CleverVirtualPlayer.forbid p (CleverVirtualPlayer.aim p l))
     else st1 <- get_self;;
          if next_to_a_rival (_turn st) st1 p
          then move <- check_moves_to_take_stones (_turn st) p;;
               if move =? 0 then ret (inr l)
               else ret (inr (CleverVirtualPlayer.add_move (move, p) l))
          else ret (inr l))).
  { intros Hna.
    assert (Hl' : ok_locals st fp (p :: covered) l) by (by apply ok_locals_cover).
    eapply sound_bind; [by apply set_state_back|].
    eapply sound_bind; [reflexivity|].
    match goal with |- context [py_any ?t ?ps] =>
      destruct (py_any_keeps t ps st) as [found Hfound] end.
    { intros q _. destruct (rival_keeps q) as (b & Hb). by exists b. }
    eapply sound_bind; [exact Hfound|]. destruct found.
    { apply play_sound; [done|done|]. by apply ok_locals_aim. }
    eapply sound_bind; [reflexivity|].
    destruct (next_to_a_rival _ _ _); [|by apply ret_sound].
    destruct (check_moves_restores st (_turn st) p) as [move Hmove];
      [apply Hwf|apply turn_not_free, Hwf|done|].
    eapply sound_bind; [exact Hmove|].
    destruct (move =? 0); apply ret_sound; [done|by apply ok_locals_add_move]. }
  destruct (liberties_count (placed st p) p =? 1) eqn:Hn.
  2:{ eapply sound_bind; [reflexivity|]. apply Hrest.
      intros [Hone _]%self_atari_counts. lia. }
  eapply sound_bind.
  { apply (py_all_run _ (λ q, negb (liberties_count (placed st p) q =? 0))).
    intros q _. unfold bind. by rewrite query_count. }
  destruct (forallb _ _) eqn:Hall.
  2:{ apply Hrest. intros [_ Hall']%self_atari_counts. congruence. }
  eapply sound_bind; [by apply set_state_back|].
  apply ret_sound, ok_locals_cover; [intros _; simpl; apply elem_of_app; right; by left|].
  apply ok_locals_forbid; [|done]. right. apply self_atari_counts. split; [lia|done].
Qed.

Lemma rescue_loop_sound (items covered : list coord) l :
  (∀ x, x ∈ items → x ∈ fp) → ok_locals st fp covered l →
  sound_from st fp (rev items ++ covered) st
             (for_each (CleverVirtualPlayer.rescue_tier (_turn st)) items l).
Proof.
  revert covered l. induction items as [|x items IH]; intros covered l Hitems Hl.
  { right. by exists l. }
  destruct (rescue_tier_sound covered x l)
    as [(p & n & st' & Hp & Hna & Hm & Hrun)|(l' & Hl' & Hrun)];
    [apply Hitems; by left|done| |].
  - left. exists p, n, st'. split; [done|]. split; [done|]. split; [done|].
    by apply for_each_return.
  - unfold sound_from. rewrite (for_each_next _ _ _ _ _ l' st) by done.
    cbn [rev]. rewrite <- app_assoc. apply IH; [|done].
    intros y Hy. apply Hitems. by right.
Qed.

Lemma fallback_tier_sound (points forbidden : list coord) cur :
  (∀ p, p ∈ points → p ∈ fp) →
  (∀ p, p ∈ points → self_atari st p → p ∈ forbidden) →
  (∃ p n st' cur',
      p ∈ fp ∧ ¬ self_atari st p ∧ make_move p st = (Return n, st') ∧
      fallback_tier points forbidden cur st = (Return ((true, Some p, n), cur'), st')) ∨
  (∃ cur',
      fallback_tier points forbidden cur st = (Return ((false, None, 0), cur'), st) ∧
      ∀ p, p ∈ points → p ∈ forbidden ∨ suicide st p).
Proof.
  revert forbidden cur.
  induction points as [|x points IH]; intros forbidden cur Hpoints Hcover.
  { right. exists cur. split; [done|]. by intros p ?%elem_of_nil. }
  assert (Hx : x ∈ fp) by (apply Hpoints; by left).
  assert (Hrest : ∀ p, p ∈ points → p ∈ fp) by (intros p Hp; apply Hpoints; by right).
  unfold fallback_tier in *. cbn [fallback_loop].
  rewrite fallback_filter_not_forbidden.
  destruct (decide (x ∈ forbidden)) as [Hin|Hnin].
  - rewrite bool_decide_eq_false_2 by (intros H; by apply H).
    destruct (IH forbidden cur Hrest)
      as [(p & n & st' & cur' & Hp & Hna & Hm & Hrun)|(cur' & Hrun & Hall)].
    + intros p Hp. apply Hcover. by right.
    + left. by exists p, n, st', cur'.
    + right. exists cur'. split; [done|].
      intros p [->|Hp]%elem_of_cons; [by left|by apply Hall].
  - rewrite bool_decide_eq_true_2 by done.
    destruct (Hfp x Hx) as [Hb Hf].
    destruct (free_move st x Hwf Hb Hf) as [[Hs Hm]|(n & st' & Hm)]; rewrite Hm.
    + destruct (IH (forbidden ++ [x]) (Some x) Hrest)
        as [(p & n & st' & cur' & Hp & Hna & Hm' & Hrun)|(cur' & Hrun & Hall)].
      * intros p Hp Ha. apply elem_of_app. left. apply Hcover; [by right|done].
      * left. by exists p, n, st', cur'.
      * right. exists cur'. split; [done|].
        intros p [->|Hp]%elem_of_cons; [by right|].
        destruct (Hall p Hp) as [[Hq|Hq%list_elem_of_singleton]%elem_of_app|Hq].
        -- by left.
        -- subst p. by right.
        -- by right.
    + left. exists x, n, st', (Some x). split; [done|]. split; [|done].
      intros Ha. apply Hnin, Hcover; [by left|done].
Qed.

Lemma find_point_to_move_run res :
  CleverVirtualPlayer.find_point_to_move (_turn st) fp st = res →
  (∃ p n st',
      p ∈ fp ∧ ¬ self_atari st p ∧ make_move p st = (Return n, st') ∧
      res = (Return (true, Some p, n), st')) ∨
  (res = (Return (false, None, 0), st) ∧ ∀ p, p ∈ fp → rejected st p).
Proof.
  intros Hres. unfold CleverVirtualPlayer.find_point_to_move in Hres.
  set (l0 := {| CleverVirtualPlayer.moves := [];
                CleverVirtualPlayer.forbidden_points := [];
                CleverVirtualPlayer._current_point := None |}) in Hres.
  assert (Hl0 : ok_locals st fp [] l0).
  { split; [|split]; simpl; intros ? H; by apply elem_of_nil in H. }
  destruct (for_each_sound [] (CleverVirtualPlayer.capture_tier (_turn st)) fp l0)
    as [(p & n & st' & Hp & Hna & Hm & Hrun)|(l1 & Hl1 & Hrun)]; [|done| |].
  { intros x l Hx Hl. by apply capture_tier_sound. }
  { left. exists p, n, st'. split; [done|]. split; [done|]. split; [done|].
    unfold bind in Hres. rewrite Hrun in Hres. by subst res. }
  unfold bind at 1 in Hres. rewrite Hrun in Hres. clear Hrun.
  destruct (rescue_loop_sound fp [] l1)
    as [(p & n & st' & Hp & Hna & Hm & Hrun)|(l2 & Hl2 & Hrun)]; [done|done| |].
  { left. exists p, n, st'. split; [done|]. split; [done|]. split; [done|].
    unfold bind in Hres. rewrite Hrun in Hres. by subst res. }
  unfold bind at 1 in Hres. rewrite Hrun in Hres. clear Hrun.
  destruct (for_each_sound (rev fp ++ []) CleverVirtualPlayer.pop_tier
              (rev (sorted_reverse fst (CleverVirtualPlayer.moves l2))) l2)
    as [(p & n & st' & Hp & Hna & Hm & Hrun)|(l3 & Hl3 & Hrun)]; [|done| |].
  { intros mv l Hmv Hl.
    apply (proj1 (elem_of_rev _ _)) in Hmv. apply (proj1 (elem_of_sorted_reverse _ _ _)) in Hmv.
    destruct Hl2 as (_ & Hmoves & _). destruct (Hmoves mv Hmv).
    by apply pop_tier_sound. }
  { left. exists p, n, st'. split; [done|]. split; [done|]. split; [done|].
    unfold bind in Hres. rewrite Hrun in Hres. by subst res. }
  unfold bind at 1 in Hres. rewrite Hrun in Hres. clear Hrun.
  destruct (for_each_sound (rev fp ++ []) (CleverVirtualPlayer.attack_tier (_turn st)) fp l3)
    as [(p & n & st' & Hp & Hna & Hm & Hrun)|(l4 & Hl4 & Hrun)]; [|done| |].
  { intros x l Hx Hl. by apply attack_tier_sound. }
  { left. exists p, n, st'. split; [done|]. split; [done|]. split; [done|].
    unfold bind in Hres. rewrite Hrun in Hres. by subst res. }
  unfold bind at 1 in Hres. rewrite Hrun in Hres. clear Hrun.
  destruct Hl4 as (Hforbidden & _ & Hcover).
  destruct (fallback_tier_sound fp (CleverVirtualPlayer.forbidden_points l4)
              (CleverVirtualPlayer._current_point l4))
    as [(p & n & st' & cur' & Hp & Hna & Hm & Hrun)|(cur' & Hrun & Hall)]; [done| | |].
  - intros p Hp. apply Hcover. apply elem_of_app. left. by apply elem_of_rev.
  - left. exists p, n, st'. split; [done|]. split; [done|]. split; [done|].
    unfold bind in Hres. rewrite Hrun in Hres. by subst res.
  - right. split; [unfold bind in Hres; rewrite Hrun in Hres; by subst res|].
    intros p Hp. destruct (Hall p Hp) as [Hin|Hs]; [by apply Hforbidden|by left].
Qed.

End clever_player.

Lemma clever_try_make_move c fp st :
  CleverVirtualPlayer.try_make_move c fp st
  = if bool_decide (c = _turn st)
    then CleverVirtualPlayer.find_point_to_move c fp st
    else (Return (false, None, 0), st).
Proof.
  unfold CleverVirtualPlayer.try_make_move, bind, get_self. by destruct (bool_decide _).
Qed.

Lemma free_points_list st (free_points : list coord) :
  wf_state st → free_points ≡ₚ elements (get_free_points st) →
  ∀ p, p ∈ free_points ↔ check_coordinates (goban st) p = true ∧ get_state st p = FREE.
Proof.
  intros Hwf Hperm p. rewrite Hperm, elem_of_elements. apply free_points_wf, Hwf.
Qed.

(** X18: the clever virtual player, asked to move without a time limit,
    always answers, and its answer is sound: either it passes with
    [(False, None, 0)] and the state is exactly as it was, for all the stones
    it put down and took back while searching, or it is the player to move
    and it returns a free point together with the result and the state of
    [make_move] at that point. *)
Theorem clever_player_answer_is_sound st c (free_points : list coord) :
  wf_state st → free_points ≡ₚ elements (get_free_points st) →
  CleverVirtualPlayer.try_make_move c free_points st = (Return (false, None, 0), st) ∨
  ∃ p n st',
    c = _turn st ∧ p ∈ get_free_points st ∧
    make_move p st = (Return n, st') ∧
    CleverVirtualPlayer.try_make_move c free_points st = (Return (true, Some p, n), st').
Proof.
  intros Hwf Hperm. rewrite clever_try_make_move.
  destruct (decide (c = _turn st)) as [->|Hne].
  2:{ left. by rewrite bool_decide_eq_false_2. }
  rewrite bool_decide_eq_true_2 by done.
  pose proof (free_points_list st free_points Hwf Hperm) as Hfree.
  destruct (find_point_to_move_run st free_points Hwf (λ p Hp, proj1 (Hfree p) Hp) _ eq_refl)
    as [(p & n & st' & Hp & _ & Hm & ->)|[-> _]].
  - right. exists p, n, st'. split; [done|]. split; [|done].
    apply elem_of_elements. by rewrite <- Hperm.
  - by left.
Qed.

Lemma clever_player_answer_is_sound_witness :
  ∃ p n st',
    CleverVirtualPlayer.try_make_move BLACK [(1, 0); (0, 0)] board_two_dead_groups
    = (Return (true, Some p, n), st').
Proof.
  destruct (clever_player_answer_is_sound board_two_dead_groups BLACK [(1, 0); (0, 0)])
    as [Hrun|(p & n & st' & _ & _ & _ & Hrun)].
  - by_computation.
  - by_computation.
  - vm_compute in Hrun. discriminate Hrun.
  - by exists p, n, st'.
Defined.

(** X19: the clever virtual player passes on its turn exactly when every
    free point of the board is one it rejects: a stone there would be a
    suicide, or would leave its group with a single liberty while no
    neighbouring group is left without one.  So it may pass although a move
    is allowed. *)
Theorem clever_player_passes_on_rejected_points_only st (free_points : list coord) :
  wf_state st → free_points ≡ₚ elements (get_free_points st) →
  CleverVirtualPlayer.try_make_move (_turn st) free_points st
  = (Return (false, None, 0), st)
  ↔ ∀ p, check_coordinates (goban st) p = true → get_state st p = FREE →
         suicide st p ∨ self_atari st p.
Proof.
  intros Hwf Hperm. rewrite clever_try_make_move.
  rewrite bool_decide_eq_true_2 by done.
  pose proof (free_points_list st free_points Hwf Hperm) as Hfree.
  destruct (find_point_to_move_run st free_points Hwf (λ p Hp, proj1 (Hfree p) Hp) _ eq_refl)
    as [(q & n & st' & Hq & Hna & Hm & Hres)|[Hres Hall]]; rewrite Hres.
  - split; [intros [=]|]. intros Hall. apply Hfree in Hq as [Hb Hf].
    destruct (Hall q Hb Hf) as [Hs|Ha]; [|done].
    by destruct (returned_move_not_suicide st q n st').
  - split; [|done]. intros _ p Hb Hf. apply Hall, Hfree. done.
Qed.

Lemma clever_player_passes_on_rejected_points_only_witness :
  CleverVirtualPlayer.try_make_move BLACK [(0, 0); (1, 0)] board_2x1
  = (Return (false, None, 0), board_2x1)
  ↔ ∀ p, check_coordinates (goban board_2x1) p = true → get_state board_2x1 p = FREE →
         suicide board_2x1 p ∨ self_atari board_2x1 p.
Proof.
  apply (clever_player_passes_on_rejected_points_only board_2x1 [(0, 0); (1, 0)]).
  - by_computation.
  - by_computation.
Defined.

(** X25: [check_moves_to_take_stones], started at an empty cell of the
    board for a player, always comes to an end and leaves the state exactly
    as it was, whatever stones it put down on the way. *)
Theorem check_moves_to_take_stones_restores_the_state st c point :
  wf_cells st → c ≠ FREE →
  check_coordinates (goban st) point = true → get_state st point = FREE →
  ∃ n, check_moves_to_take_stones c point st = (Return n, st).
Proof.
  intros Hwf Hc Hb Hf. apply check_moves_restores; [done|done|].
  by apply wf_lookup_free.
Qed.

Lemma check_moves_to_take_stones_restores_the_state_witness :
  ∃ n, check_moves_to_take_stones BLACK (3, 2) board_territory = (Return n, board_territory).
Proof.
  apply (check_moves_to_take_stones_restores_the_state board_territory BLACK (3, 2)).
  - by_computation.
  - discriminate.
  - reflexivity.
  - reflexivity.
Defined.

(** ** Stone accounting *)

(** X20: a returned move accounts for every stone: the number it returns is
    the number of stones that left the board, so the free points are those
    of before, less the point played, plus the stones taken, and the score
    of the player who moved grows by that number. *)
Theorem returned_move_accounts_for_the_stones st p n st' :
  wf_state st → make_move p st = (Return n, st') →
  Z.of_nat (size (get_free_points st')) = Z.of_nat (size (get_free_points st)) - 1 + n ∧
  0 ≤ n ∧
  ∃ old, _score st !! _turn st = Some old ∧ _score st' !! _turn st = Some (old + n).
Proof.
  intros Hwf Hmove.
  destruct (make_move_returns st p n st' Hwf Hmove) as (Hb & Hf & Hlib).
  destruct (make_move_success st p Hwf Hb Hf Hlib)
    as (n' & s2 & next & old & _ & Hold & _ & Hrun & Hsweep & _ & Hscore & Hgoban & Hwf2).
  rewrite Hrun in Hmove. injection Hmove as -> <-.
  destruct (sweep_captured _ _ _ _ _ Hsweep) as (C & -> & HC & _ & Hcells).
  assert (Hfree : get_free_points (with_turn s2 next) = C ∪ (get_free_points st ∖ {[p]})).
  { apply set_eq. intros q.
    rewrite (free_points_wf (with_turn s2 next) q Hwf2).
    change (goban (with_turn s2 next)) with (goban s2).
    change (get_state (with_turn s2 next) q) with (get_state s2 q).
    rewrite Hgoban, Hcells, elem_of_union, elem_of_difference, not_elem_of_singleton.
    rewrite (free_points_wf st q (proj1 Hwf)).
    destruct (decide (q ∈ C)) as [Hq|Hq].
    - split; [by left|]. intros _. split; [|done].
      destruct (HC q Hq) as [Hstone _].
      pose proof (placed_wf_cells st p (proj1 Hwf) Hb) as Hwfp.
      destruct (check_coordinates (goban st) q) eqn:Hqb; [done|]. destruct Hstone.
      unfold get_state.
      assert (Hnone : _state (placed st p) !! q = None); [|by rewrite Hnone].
      apply not_elem_of_dom. unfold wf_cells in Hwfp. rewrite Hwfp.
      rewrite elem_of_list_to_set, elem_of_board_points.
      change (goban (placed st p)) with (goban st). by rewrite Hqb.
    - rewrite placed_get. destruct (decide (q = p)) as [->|Hne].
      + split.
        * intros [_ Hturn]. by destruct (turn_not_free (_turn st) (proj1 (proj2 Hwf))).
        * intros [?|[_ ?]]; done.
      + split; [intros [? ?]; by right|]. intros [?|[[? ?] _]]; done. }
  split; [|split].
  - rewrite Hfree, size_union.
    2:{ intros q Hq [Hq' Hne]%elem_of_difference. destruct (HC q Hq) as [Hstone _].
        apply (free_points_wf st q (proj1 Hwf)) in Hq' as [_ Hq'].
        apply not_elem_of_singleton in Hne.
        rewrite placed_get, decide_False in Hstone by done. done. }
    assert (Hsub : ({[p]} : gset coord) ⊆ get_free_points st).
    { apply singleton_subseteq_l, free_points_wf; [apply Hwf|done]. }
    rewrite (size_difference _ _ Hsub). apply subseteq_size in Hsub.
    rewrite size_singleton in *. lia.
  - lia.
  - exists old. split; [done|]. simpl. rewrite Hscore. by rewrite lookup_insert_eq.
Qed.

Lemma returned_move_accounts_for_the_stones_witness :
  ∃ n st', make_move (1, 0) board_two_dead_groups = (Return n, st') ∧
           Z.of_nat (size (get_free_points st'))
           = Z.of_nat (size (get_free_points board_two_dead_groups)) - 1 + n.
Proof.
  eexists _, _. split; [vm_compute; reflexivity|].
  refine (proj1 (returned_move_accounts_for_the_stones board_two_dead_groups (1, 0) _ _ _ _)).
  - by_computation.
  - vm_compute. reflexivity.
Defined.

(** ** The table of records *)

Lemma check_value_Some value name score :
  Scoreboard.check_value value = Some (name, score) ↔
  value = Scoreboard.JArray [Scoreboard.JString name; score] ∧
  Scoreboard.isinstance_int score = true ∧ 0 < Scoreboard.int_value score.
Proof.
  split.
  - destruct value as [| | | | |items|]; try done. simpl.
    destruct items as [|v0 [|v1 [|v2 items]]]; try done. simpl.
    destruct v0; try done.
    destruct (Scoreboard.isinstance_int v1) eqn:Hint; [|done]. simpl.
    destruct (Scoreboard.int_value v1 <=? 0) eqn:Hpos; [done|].
    intros [= -> ->]. split; [done|]. split; [done|]. lia.
  - intros (-> & Hint & Hpos). simpl. rewrite Hint. simpl.
    replace (Scoreboard.int_value score <=? 0) with false by lia. done.
Qed.

Lemma lookup_check members key :
  Scoreboard._check (Scoreboard.JObject members) !! key
  = members !! key ≫= (λ values, match values with
                                 | Scoreboard.JArray values =>
                                     Some (omap Scoreboard.check_value values)
                                 | _ => None
                                 end).
Proof.
  unfold Scoreboard._check.
  apply (map_fold_weak_ind (λ result m, result !! key = m !! key ≫= _)).
  - by rewrite !lookup_empty.
  - intros k values m result Hk IH.
    destruct (decide (key = k)) as [->|Hne].
    + rewrite lookup_insert_eq. simpl. destruct values; try (by rewrite IH, Hk).
      by rewrite lookup_insert_eq.
    + rewrite (lookup_insert_ne m) by done. rewrite <- IH.
      destruct values; try done. by rewrite lookup_insert_ne.
Qed.

Lemma check_valid scores : Scoreboard.valid (Scoreboard._check scores).
Proof.
  intros key records [name score] Hkey Hrecord.
  destruct scores as [| | | | | |members];
    try (cbn in Hkey; rewrite lookup_empty in Hkey; done).
  rewrite lookup_check in Hkey.
  destruct (members !! key) as [values|]; [|done]. simpl in Hkey.
  destruct values as [| | | | |values|]; try done. injection Hkey as <-.
  apply list_elem_of_omap in Hrecord as (value & _ & Hvalue).
  by apply check_value_Some in Hvalue as (_ & ? & ?).
Qed.

Lemma check_dump _scores :
  Scoreboard.valid _scores → Scoreboard._check (Scoreboard.dump _scores) = _scores.
Proof.
  intros Hvalid. apply map_eq. intros key. unfold Scoreboard.dump.
  rewrite lookup_check, lookup_fmap.
  destruct (_scores !! key) as [records|] eqn:Hkey; [|done]. simpl. f_equal.
  assert (Hall : ∀ record, record ∈ records →
                   Scoreboard.isinstance_int record.2 = true
                   ∧ 0 < Scoreboard.int_value record.2).
  { intros record. by apply (Hvalid key records record). }
  clear Hkey. induction records as [|[name score] records IH]; [done|].
  cbn [map omap list_omap].
  destruct (Hall (name, score)) as [Hint Hpos]; [by left|].
  rewrite (proj2 (check_value_Some _ name score)) by done.
  f_equal. apply IH. intros record Hrecord. apply Hall. by right.
Qed.

(** X21: what [_check] accepts holds records with a positive integer only,
    where [true] counts as the integer 1, and is accepted again in full once
    written to the file and read back. *)
Theorem check_accepts_again_what_it_accepted scores :
  Scoreboard.valid (Scoreboard._check scores) ∧
  Scoreboard._check (Scoreboard.dump (Scoreboard._check scores)) = Scoreboard._check scores.
Proof. split; [apply check_valid|apply check_dump, check_valid]. Qed.

Lemma add_score_lookup key name score _scores key' :
  Scoreboard.add_score key name score _scores !! key'
  = if decide (key' = key)
    then Some (default [] (_scores !! key) ++ [(name, Scoreboard.JInt score)])
    else _scores !! key'.
Proof.
  unfold Scoreboard.add_score.
  destruct (decide (key' = key)) as [->|Hne].
  - rewrite lookup_alter_eq. destruct (_scores !! key) as [records|] eqn:Hkey.
    + rewrite bool_decide_eq_false_2.
      * by rewrite Hkey.
      * intros Hnot. apply Hnot, elem_of_dom. eauto.
    + rewrite bool_decide_eq_true_2 by (by apply not_elem_of_dom).
      by rewrite lookup_insert_eq.
  - rewrite lookup_alter_ne by done. destruct (bool_decide _); [|done].
    by rewrite lookup_insert_ne.
Qed.

(** X22: [add_score] takes any integer, but a record added to a table of
    positive records is still there after the file is read back exactly when
    its score is positive. *)
Theorem added_record_survives_iff_positive key name score _scores :
  Scoreboard.valid _scores →
  Scoreboard._check (Scoreboard.dump (Scoreboard.add_score key name score _scores))
  = Scoreboard.add_score key name score _scores
  ↔ 0 < score.
Proof.
  intros Hvalid. split.
  - intros Heq. pose proof (check_valid
      (Scoreboard.dump (Scoreboard.add_score key name score _scores))) as Hv.
    rewrite Heq in Hv.
    destruct (Hv key (default [] (_scores !! key) ++ [(name, Scoreboard.JInt score)])
                 (name, Scoreboard.JInt score)) as [_ Hpos].
    + by rewrite add_score_lookup, decide_True.
    + apply elem_of_app. right. by left.
    + exact Hpos.
  - intros Hpos. apply check_dump. intros key' records record Hkey Hrecord.
    rewrite add_score_lookup in Hkey. destruct (decide (key' = key)) as [->|Hne].
    + injection Hkey as <-.
      apply elem_of_app in Hrecord as [Hrecord|Hrecord%list_elem_of_singleton].
      * destruct (_scores !! key) as [old|] eqn:Hold; [|by apply elem_of_nil in Hrecord].
        by apply (Hvalid key old).
      * subst record. done.
    + by apply (Hvalid key' records).
Qed.

Lemma added_record_survives_iff_positive_witness :
  Scoreboard._check (Scoreboard.dump (Scoreboard.add_score "(9, 9)" "Ann" 0 ∅))
  = Scoreboard.add_score "(9, 9)" "Ann" 0 ∅
  ↔ 0 < 0.
Proof.
  apply (added_record_survives_iff_positive "(9, 9)" "Ann" 0 ∅).
  intros key records record Hkey. by rewrite lookup_empty in Hkey.
Defined.

Lemma insert_reverse_perm {A : Type} (key : A → Z) (x : A) (l : list A) :
  insert_reverse key x l ≡ₚ x :: l.
Proof.
  induction l as [|y l IH]; [done|]. cbn [insert_reverse].
  destruct (key x <? key y); [|done]. rewrite IH. apply Permutation_swap.
Qed.

Lemma sorted_reverse_perm {A : Type} (key : A → Z) (l : list A) :
  sorted_reverse key l ≡ₚ l.
Proof.
  induction l as [|x l IH]; [done|].
  unfold sorted_reverse. cbn [foldr]. fold (sorted_reverse key l).
  by rewrite insert_reverse_perm, IH.
Qed.

Lemma insert_reverse_sorted {A : Type} (key : A → Z) (x : A) (l : list A) :
  StronglySorted (λ a b, key b ≤ key a) l →
  StronglySorted (λ a b, key b ≤ key a) (insert_reverse key x l).
Proof.
  induction 1 as [|y l Hl IH Hy]; cbn [insert_reverse].
  - repeat constructor.
  - destruct (key x <? key y) eqn:Hxy.
    + constructor; [done|]. apply Forall_forall. intros z Hz.
      apply elem_of_insert_reverse in Hz as [->|Hz]; [lia|].
      by apply (proj1 (Forall_forall _ _) Hy).
    + constructor; [by constructor|]. constructor; [lia|].
      eapply Forall_impl; [exact Hy|]. simpl. intros z Hz. lia.
Qed.

Lemma sorted_reverse_sorted {A : Type} (key : A → Z) (l : list A) :
  StronglySorted (λ a b, key b ≤ key a) (sorted_reverse key l).
Proof.
  induction l as [|x l IH]; [constructor|].
  unfold sorted_reverse. cbn [foldr]. by apply insert_reverse_sorted.
Qed.

Lemma insert_reverse_stable {A : Type} (key : A → Z) (k : Z) (x : A) (l : list A) :
  StronglySorted (λ a b, key b ≤ key a) l →
  List.filter (λ a, key a =? k) (insert_reverse key x l)
  = List.filter (λ a, key a =? k) (x :: l).
Proof.
  induction 1 as [|y l Hl IH Hy]; [done|]. cbn [insert_reverse].
  destruct (key x <? key y) eqn:Hxy; [|done].
  cbn [List.filter] in *. rewrite IH.
  destruct (key x =? k) eqn:Hx; [|done].
  destruct (key y =? k) eqn:Hyk; [lia|done].
Qed.

Lemma sorted_reverse_stable {A : Type} (key : A → Z) (k : Z) (l : list A) :
  List.filter (λ a, key a =? k) (sorted_reverse key l) = List.filter (λ a, key a =? k) l.
Proof.
  induction l as [|x l IH]; [done|].
  unfold sorted_reverse. cbn [foldr]. fold (sorted_reverse key l).
  rewrite insert_reverse_stable by apply sorted_reverse_sorted.
  cbn [List.filter]. by rewrite IH.
Qed.

(** X23: [get_scores] lists the records kept for the size, each once, by
    decreasing score, records of equal score in the order they were added;
    a size without records gives the empty list. *)
Theorem get_scores_lists_the_records_by_decreasing_score key _scores :
  let records := default [] (_scores !! key) in
  Scoreboard.get_scores key _scores ≡ₚ records ∧
  StronglySorted (λ a b, Scoreboard.int_value b.2 ≤ Scoreboard.int_value a.2)
                 (Scoreboard.get_scores key _scores) ∧
  ∀ score, List.filter (λ a, Scoreboard.int_value a.2 =? score)
                       (Scoreboard.get_scores key _scores)
           = List.filter (λ a, Scoreboard.int_value a.2 =? score) records.
Proof.
  unfold Scoreboard.get_scores. split; [apply sorted_reverse_perm|].
  split; [apply (sorted_reverse_sorted (λ record, Scoreboard.int_value record.2))|].
  intros score. apply (sorted_reverse_stable (λ record, Scoreboard.int_value record.2)).
Qed.

(** ** The record of a single winner *)

Lemma reachable_scores g st :
  rtc step (GameState_init g) st →
  ∀ c, c ∈ TURNS → ∃ v, _score st !! c = Some v ∧ 0 ≤ v.
Proof.
  intros Hreach c Hc. revert st Hreach.
  apply (rtc_ind_r (λ st, ∃ v, _score st !! c = Some v ∧ 0 ≤ v)).
  - exists 0. split; [|done]. by apply init_scores.
  - intros st st' _ Hstep (v & Hv & Hpos).
    destruct (step_score_le c st st' Hstep v Hv) as (v' & Hv' & Hle).
    exists v'. split; [done|]. lia.
Qed.

(** X24: in a game played from the initial state, a colour that
    [get_winner] names alone has a positive score, greater than that of the
    two others; so the record the window adds for a single winner is one
    the table of records keeps. *)
Theorem single_winner_has_a_positive_score g st keys w :
  rtc step (GameState_init g) st →
  keys ≡ₚ (map_to_list (_score st)).*1 →
  get_winner_in keys st = Return [w] →
  ∃ v, _score st !! w = Some v ∧ 0 < v ∧
       ∀ c, c ∈ TURNS → c ≠ w → ∃ v', _score st !! c = Some v' ∧ 0 ≤ v' < v.
Proof.
  intros Hreach Hperm Hwin.
  pose proof (reachable_scores g st Hreach) as Hscores.
  assert (Hkeys : ∀ k, k ∈ keys ↔ is_Some (_score st !! k)).
  { intros k. by rewrite Hperm, elem_of_keys. }
  destruct (Hscores BLACK) as (vb & Hvb & _); [set_solver|].
  destruct ((map_to_list (_score st)).*2) as [|v0 vals] eqn:Evals.
  { assert (vb ∈ (map_to_list (_score st)).*2) as Hin by (apply elem_of_values; eauto).
    rewrite Evals in Hin. by apply elem_of_nil in Hin. }
  destruct (foldl_max_spec vals v0) as [_ Hle].
  set (m := foldl Z.max v0 vals) in *.
  assert (Hm : py_max (map_to_list (_score st)).*2 = Return m) by (by rewrite Evals).
  rewrite <- Evals in Hle.
  rewrite (get_winner_in_filter keys st m Hm) in Hwin by (intros k Hk; by apply Hkeys).
  injection Hwin as Hwin.
  assert (Hfilter : ∀ c, c ∈ [w] ↔ c ∈ keys ∧ _score st !! c = Some m).
  { intros c. rewrite <- Hwin, list_elem_of_In, filter_In, <- list_elem_of_In.
    by rewrite bool_decide_eq_true. }
  assert (Hw : _score st !! w = Some m) by (apply Hfilter; by left).
  assert (Hothers : ∀ c, c ∈ TURNS → c ≠ w → ∃ v', _score st !! c = Some v' ∧ 0 ≤ v' < m).
  { intros c Hc Hne. destruct (Hscores c Hc) as (v' & Hv' & Hpos).
    exists v'. split; [done|]. split; [done|].
    assert (v' ≤ m) by (apply Hle, elem_of_values; eauto).
    destruct (decide (v' = m)) as [->|]; [|lia].
    destruct Hne. apply list_elem_of_singleton, Hfilter. split; [|done].
    apply Hkeys. eauto. }
  exists m. split; [done|]. split; [|done].
  destruct (decide (w = BLACK)) as [->|Hb].
  - destruct (Hothers WHITE) as (v' & _ & ?); [set_solver|done|lia].
  - destruct (Hothers BLACK) as (v' & _ & ?); [set_solver|done|lia].
Qed.

Lemma single_winner_has_a_positive_score_witness :
  ∃ v, _score (take_territory_in [(0, 1); (1, 0); (1, 1)] BLACK
                 (make_move (0, 0) board_2x2).2).2 !! BLACK = Some v ∧ 0 < v.
Proof.
  destruct (single_winner_has_a_positive_score {| _size := (2, 2) |}
              (take_territory_in [(0, 1); (1, 0); (1, 1)] BLACK
                 (make_move (0, 0) board_2x2).2).2
              [BLACK; GREY; WHITE] BLACK)
    as (v & Hv & Hpos & _).
  - eapply rtc_l; [apply step_make_move|].
    apply rtc_once, step_take_territory. by_computation.
  - by_computation.
  - vm_compute. reflexivity.
  - by exists v.
Defined.

(** * The clever player under a time limit *)
























Section timed_search.

Context (st : GameState) (c : colour) (fp : list coord).
Hypothesis Hwf : wf_state st.
Hypothesis Hfp : ∀ p, p ∈ fp → _state st !! p = Some FREE.



















Lemma moves_ok_forbid p l :
  moves_ok fp l → moves_ok fp (CleverVirtualPlayer.forbid p l).
Proof. done. Qed.

Lemma moves_ok_aim p l : moves_ok fp l → moves_ok fp (CleverVirtualPlayer.aim p l).
Proof. done. Qed.








End timed_search.



